(** * OpenCanvas: context-and-retrieval engine, verified against the sources

    A shallow embedding of the TypeScript sources of the canvas workspace:

    - [chunkText], [parseTextFile], [parseMarkdownFile], [parseCSVFile]
                                          (src/utils/document-parser.ts)
    - [VectorStore]: [search], [cosineSimilarity], [addChunks],
      [removeChunks], [export]            (services/embeddings/vector-store.ts)
    - the chat node's [handleSend]: donor context, RAG query, streaming;
      the effect that keeps [attachedMemoryNodes] in step with the edges
                                          (components/canvas/nodes/ChatNode.tsx)
    - the memory node's [handleFileUpload] and [loadVectorStore]
                                          (components/canvas/nodes/MemoryNode.tsx)
    - the canvas' [handleConnect], [handleBranch], [handleMerge]
                                          (components/canvas/CanvasMode.tsx)
    - the canvas store: [saveCanvas], [loadSession], [createSession],
      [addNode], [deleteNode], [deleteSession], ...
                                          (stores/canvasStore.ts)
    - the chat store: [createChat], [saveChat], [addMessage],
      [updateLastMessage], [deleteChats], ..., and the chat mode's
      [handleSend]                        (stores/chatStore.ts, ChatMode.tsx)

    Modelling conventions.
    - A JavaScript string that is sliced and measured ([chunkText]) is the
      list of its UTF-16 code units; every other string is opaque text.
    - Integer-valued numbers (lengths, indices, chunk sizes, timestamps of
      [Date.now]) are [Z].  Real-valued numbers (embedding components,
      similarity scores, layout coordinates) are [R]: rounding, overflow and
      NaN of IEEE doubles are abstracted away.  What is stated of the
      branches and the formula of [cosineSimilarity] and of the ranking of
      [search] is stated of this arithmetic; [cosineSimilarityIn] is the
      same loop with the arithmetic left open, for what holds of doubles as
      it holds of real numbers.
    - [throw] is the [Throw] constructor of [Result]; [try]/[catch] is a match.
    - An [async] function is run to completion as one atomic step; the
      persistent store never fails.  [Date.now()] is a parameter [now].
    - What lies outside the sources is given by its result: the chunks of
      a provider's stream with their times of arrival, the outcome of
      [parseFile] on an uploaded file, the embedding service as a function
      from texts to embeddings or errors.
    - A component reads the nodes and edges from the canvas store, which
      its own state mirrors. *)

From Stdlib Require Import ZArith List String Ascii Bool Lia Reals Lra.
From Stdlib Require Import Permutation Sorted DecimalString DecimalNat.
From stdpp Require Import gmap strings.
Import ListNotations.

Local Open Scope Z_scope.

(* ===================================================================== *)
(** * JavaScript primitives used by the sources *)
(* ===================================================================== *)

Module JS.

(** [throw new Error(msg)] versus a normal return. *)
Inductive Result (A : Type) : Type :=
| Ok (a : A)
| Throw (msg : string).
Arguments Ok {A} a.
Arguments Throw {A} msg.

Definition bind {A B} (r : Result A) (k : A -> Result B) : Result B :=
  match r with
  | Ok a => k a
  | Throw m => Throw m
  end.

(** A relative index of [slice]: negative counts from the end, and the
    result is clamped to [0, len]. *)
Definition relIndex (len i : Z) : Z :=
  if i <? 0 then Z.max (len + i) 0 else Z.min i len.

(** [Array.prototype.slice(start, end)] and [String.prototype.slice]. *)
Definition slice {A} (l : list A) (s e : Z) : list A :=
  let len := Z.of_nat (length l) in
  let k := relIndex len s in
  let final := relIndex len e in
  firstn (Z.to_nat (final - k)) (skipn (Z.to_nat k) l).

(** [Array.prototype.sort(comparefn)]: a stable sort.  [after a b] is
    [comparefn(a, b) > 0], that is, [a] has to come after [b]. *)
Section Sort.
Context {A : Type} (after : A -> A -> bool).

Fixpoint insert (x : A) (l : list A) : list A :=
  match l with
  | [] => [x]
  | y :: ys => if after x y then y :: insert x ys else x :: y :: ys
  end.

Fixpoint sort (l : list A) : list A :=
  match l with
  | [] => []
  | x :: xs => insert x (sort xs)
  end.
End Sort.

(** A string as the sequence of its UTF-16 code units. *)
Definition str := list N.

(** WhiteSpace and LineTerminator code points, as [trim] strips them. *)
Definition isWhiteSpace (c : N) : bool :=
  ((c =? 9) || (c =? 10) || (c =? 11) || (c =? 12) || (c =? 13)
   || (c =? 32) || (c =? 160) || (c =? 5760)
   || ((8192 <=? c) && (c <=? 8202))
   || (c =? 8232) || (c =? 8233) || (c =? 8239) || (c =? 8287)
   || (c =? 12288) || (c =? 65279))%N.

Fixpoint dropWhile {A} (p : A -> bool) (l : list A) : list A :=
  match l with
  | [] => []
  | x :: xs => if p x then dropWhile p xs else l
  end.

Definition trimStart (s : str) : str := dropWhile isWhiteSpace s.
Definition trimEnd (s : str) : str := rev (dropWhile isWhiteSpace (rev s)).
(** [String.prototype.trim]. *)
Definition trim (s : str) : str := trimEnd (trimStart s).

(** Truthiness of an optional string: [undefined] and [''] are falsy. *)
Definition truthy (s : option string) : bool :=
  match s with
  | Some t => negb (String.eqb t EmptyString)
  | None => false
  end.

(** [s || d] on an optional string. *)
Definition orElse (s : option string) (d : string) : string :=
  match s with
  | Some t => if String.eqb t EmptyString then d else t
  | None => d
  end.

(** [x > 0] on a number, as [sort] asks of the result of a [comparefn]. *)
Definition positive (x : R) : bool :=
  if Rlt_dec 0 x then true else false.

(** [n || d] on a number: [0] is falsy. *)
Definition numOr (n : option R) (d : R) : R :=
  match n with
  | Some x => if Req_dec_T x 0 then d else x
  | None => d
  end.

End JS.
Import JS.

(* ===================================================================== *)
(** * document-parser.ts: [chunkText] *)
(* ===================================================================== *)

Module Chunker.

Definition MAX_CHUNKS : Z := 10000.

(** The mutable locals of the loop. *)
Record Loop := mkLoop {
  start : Z;
  chunks : list str;
  iterations : Z
}.

(** How one run of the loop body ends. *)
Inductive Flow :=
| Next (st : Loop)      (* back to the loop test *)
| Break (st : Loop).    (* one of the two [break]s *)

Definition textLength (text : str) : Z := Z.of_nat (length text).

(** The body of the [while] loop. *)
Definition body (text : str) (chunkSize overlap : Z) (st : Loop) : Flow :=
  let iterations := iterations st + 1 in
  if iterations >? MAX_CHUNKS * 2 then
    Break (mkLoop (start st) (chunks st) iterations)
  else
    let end_ := Z.min (start st + chunkSize) (textLength text) in
    let chunk := trim (slice text (start st) end_) in
    let chunks :=
      if (0 <? Z.of_nat (length chunk)) then chunks st ++ [chunk]
      else chunks st in
    let nextStart := end_ - overlap in
    let start := if nextStart <=? start st then end_ else nextStart in
    if start >=? textLength text then Break (mkLoop start chunks iterations)
    else Next (mkLoop start chunks iterations).

(** The loop test. *)
Definition test (text : str) (st : Loop) : bool :=
  (start st <? textLength text)
  && (Z.of_nat (length (chunks st)) <? MAX_CHUNKS).

(** [while (test) body], with [fuel] bounding the number of runs of the
    body; [None] when the fuel runs out. *)
Fixpoint while (fuel : nat) (text : str) (chunkSize overlap : Z)
         (st : Loop) : option Loop :=
  if test text st then
    match fuel with
    | O => None
    | S fuel' =>
        match body text chunkSize overlap st with
        | Break st' => Some st'
        | Next st' => while fuel' text chunkSize overlap st'
        end
    end
  else Some st.

(** "Validate parameters": the three assignments before the loop.
    [Math.floor(chunkSize * 0.2)] on an integer is [chunkSize * 2 / 10]. *)
Definition validate (chunkSize overlap : Z) : Z * Z :=
  let chunkSize := if chunkSize <=? 0 then 1000 else chunkSize in
  let overlap := if overlap <? 0 then 0 else overlap in
  let overlap :=
    if overlap >=? chunkSize then (chunkSize * 2) / 10 else overlap in
  (chunkSize, overlap).

(** The iteration guard stops the body at its 20001st run. *)
Definition fuel : nat := S (Z.to_nat (MAX_CHUNKS * 2)).

Definition chunkText (text : str) (chunkSize overlap : Z)
  : option (list str) :=
  let '(chunkSize, overlap) := validate chunkSize overlap in
  option_map chunks (while fuel text chunkSize overlap (mkLoop 0 [] 0)).

(** The default arguments [chunkSize = 1000], [overlap = 200]. *)
Definition chunkTextDefault (text : str) : option (list str) :=
  chunkText text 1000 200.

(** ** Vocabulary of the statements *)

Definition flowState (f : Flow) : Loop :=
  match f with Next st => st | Break st => st end.

Definition nonEmpty (c : str) : bool := 0 <? Z.of_nat (length c).

(** [chunks.push(chunk)] guarded by [chunk.length > 0]. *)
Definition keep (c : str) (cks : list str) : list str :=
  if nonEmpty c then cks ++ [c] else cks.

(** What the loop keeps true at its test. *)
Definition goodChunk (cs : Z) (c : str) : Prop :=
  0 < Z.of_nat (length c) <= cs.

Record Inv (cs : Z) (st : Loop) : Prop := {
  inv_start : 0 <= start st;
  inv_iter : 0 <= iterations st <= MAX_CHUNKS * 2;
  inv_good : Forall (goodChunk cs) (chunks st);
  inv_len : Z.of_nat (length (chunks st)) <= MAX_CHUNKS
}.

(** A text of 2,400 letters [a], and the windows the loop cuts out of a
    text of that length with the default parameters. *)
Definition text2400 : str := repeat 97%N 2400.

Definition windows2400 (text : str) : list str :=
  [slice text 0 1000; slice text 800 1800;
   slice text 1600 2400; slice text 2200 2400].

End Chunker.

(* ===================================================================== *)
(** * document-parser.ts: [parseTextFile] *)
(* ===================================================================== *)

Module Parser.
Import Chunker.

(** An element of [ParsedDocument.chunks]. *)
Record ParsedChunk := mkParsed {
  parsedId : string;
  parsedContent : str;
  parsedSource : option string;
  parsedType : option string;
  parsedPage : option Z;
  parsedLine : option Z
}.

(** [n.toString()] of an array index, inside a template literal. *)
Definition showIndex (n : nat) : string :=
  NilZero.string_of_uint (Nat.to_uint n).

(** [array.map((x, index) => f(x, index))], from the index [i] on. *)
Fixpoint mapIndexed {A B} (f : A -> nat -> B) (i : nat) (l : list A)
  : list B :=
  match l with
  | [] => []
  | a :: rest => f a i :: mapIndexed f (S i) rest
  end.

(** [parseTextFile(file)], on the name and the text of the file. *)
Definition parseTextFile (name : string) (text : str)
  : option (list ParsedChunk) :=
  option_map
    (mapIndexed
       (fun content index =>
          mkParsed (name +:+ "-" +:+ showIndex index) content
                   (Some name) (Some "text") None
                   (Some (Z.of_nat index + 1)))
       0)
    (chunkTextDefault text).

(** ** [parseMarkdownFile] *)

(** LineTerminator code points: what [^] with the flag [m] looks behind
    for. *)
Definition isLineTerminator (c : N) : bool :=
  ((c =? 10) || (c =? 13) || (c =? 8232) || (c =? 8233))%N.

(** [#+\s] matches at the head of [s]: a run of [#] and then white
    space. *)
Definition headerAhead (s : str) : bool :=
  match s with
  | c :: rest =>
      (c =? 35)%N
      && match dropWhile (N.eqb 35) rest with
         | d :: _ => isWhiteSpace d
         | [] => false
         end
  | [] => false
  end.

(** [(?=^#+\s)] with the flag [m] matches before [s]; [prev] is the
    code unit before [s], if there is one. *)
Definition sectionStart (prev : option N) (s : str) : bool :=
  match prev with
  | Some c => isLineTerminator c
  | None => true
  end && headerAhead s.

(** One more code unit in front of the first piece. *)
Definition consHead (c : N) (pieces : list str) : list str :=
  match pieces with
  | piece :: rest => (c :: piece) :: rest
  | [] => [[c]]
  end.

(** [text.split(/(?=^#+\s)/m)]: the text is cut at every match of the
    lookahead except at its very start ([split] does not cut where the
    piece would be empty).  [splitSections prev s] gives the pieces of
    [s], the first being the rest of the piece that [s] continues. *)
Fixpoint splitSections (prev : option N) (s : str) : list str :=
  match s with
  | [] => [[]]
  | c :: rest =>
      let pieces := consHead c (splitSections (Some c) rest) in
      match prev with
      | Some _ => if sectionStart prev s then [] :: pieces else pieces
      | None => pieces
      end
  end.

Definition markdownChunk (name : string) (index : nat) (content : str)
           (subIndex : nat) : ParsedChunk :=
  mkParsed (name +:+ "-" +:+ showIndex index +:+ "-" +:+ showIndex subIndex)
           content (Some name) (Some "markdown")
           (Some (Z.of_nat index + 1)) None.

(** [sections.forEach((section, index) => ...)], from the index [index]
    on. *)
Fixpoint markdownSections (name : string) (index : nat)
         (sections : list str) : option (list ParsedChunk) :=
  match sections with
  | [] => Some []
  | section :: rest =>
      match chunkTextDefault (trim section),
            markdownSections name (S index) rest with
      | Some subChunks, Some chunks =>
          Some (mapIndexed (markdownChunk name index) 0 subChunks ++ chunks)
      | _, _ => None
      end
  end.

Definition parseMarkdownFile (name : string) (text : str)
  : option (list ParsedChunk) :=
  let sections :=
    List.filter (fun s => nonEmpty (trim s)) (splitSections None text) in
  markdownSections name 0 sections.

(** ** [parseCSVFile] *)

(** [s.split(sep)] for a separator of one code unit. *)
Fixpoint splitOn (sep : N) (s : str) : list str :=
  match s with
  | [] => [[]]
  | c :: rest =>
      if (c =? sep)%N then [] :: splitOn sep rest
      else consHead c (splitOn sep rest)
  end.

(** [array.join(sep)]. *)
Fixpoint join (sep : str) (l : list str) : str :=
  match l with
  | [] => []
  | [a] => a
  | a :: rest => a ++ sep ++ join sep rest
  end.

Definition newlineUnit : N := 10.
Definition commaUnit : N := 44.
Definition colonSpace : str := [58; 32]%N.
Definition commaSpace : str := [44; 32]%N.

(** [headers.map((header, i) => `${header}: ${values[i] || ''}`)
    .join(', ')]. *)
Definition rowData (headers values : list str) : str :=
  join commaSpace
       (mapIndexed (fun header i => header ++ colonSpace ++ nth i values [])
                   0 headers).

Definition csvChunk (name : string) (headers : list str) (line : str)
           (index : nat) : ParsedChunk :=
  let values := map trim (splitOn commaUnit line) in
  mkParsed (name +:+ "-row-" +:+ showIndex index) (rowData headers values)
           (Some name) (Some "csv") None (Some (Z.of_nat index + 2)).

Definition parseCSVFile (name : string) (text : str) : list ParsedChunk :=
  let lines :=
    List.filter (fun line => nonEmpty (trim line))
                (splitOn newlineUnit text) in
  let headers :=
    match lines with
    | first :: _ => map trim (splitOn commaUnit first)
    | [] => []
    end in
  mapIndexed (csvChunk name headers) 0 (tl lines).

(** ** Vocabulary of the statements *)

(** A hyphen occurs in the string. *)
Fixpoint hasDash (s : string) : bool :=
  match s with
  | EmptyString => false
  | String a rest => Ascii.eqb a "-" || hasDash rest
  end.

(** [c] stands in [s] as it is. *)
Definition infix (c s : str) : Prop := exists pre post, s = pre ++ c ++ post.

(** Neither the first nor the last code unit is white space. *)
Definition trimmed (c : str) : Prop :=
  (exists x, hd_error c = Some x /\ isWhiteSpace x = false)
  /\ (exists y, hd_error (rev c) = Some y /\ isWhiteSpace y = false).

(** A cell of a table that [parseCSVFile] reads back as it is: no comma,
    no line feed, no white space at its ends. *)
Definition plainCell (c : str) : Prop :=
  ~ In commaUnit c /\ ~ In newlineUnit c /\ trim c = c.

(** A row that [parseCSVFile] reads back: as many plain cells as there
    are headers, one of them not empty. *)
Definition plainRow (width : nat) (row : list str) : Prop :=
  length row = width /\ Forall plainCell row
  /\ exists c, In c row /\ c <> [].

(** The text of a table: the cells of a line joined by commas, the lines
    joined by line feeds. *)
Definition tableText (table : list (list str)) : str :=
  join [newlineUnit] (map (join [commaUnit]) table).

(** The content of the chunk of a row. *)
Definition labelled (headers values : list str) : str :=
  join commaSpace
       (map (fun hv => fst hv ++ colonSpace ++ snd hv)
            (combine headers values)).

End Parser.

(* ===================================================================== *)
(** * services/storage/types.ts: the stored data *)
(* ===================================================================== *)

Module Types.

Inductive Role := system | user | assistant.

Definition Role_eqb (a b : Role) : bool :=
  match a, b with
  | system, system | user, user | assistant, assistant => true
  | _, _ => false
  end.

Record Message := mkMessage {
  role : Role;
  content : string;
  timestamp : Z
}.

Record DocumentChunk := mkChunk {
  chunkId : string;
  chunkContent : string;
  embedding : option (list R);            (* [embedding?: number[]] *)
  chunkMetadata : list (string * string)
}.

Record VectorStoreData := mkStoreData {
  storeDataId : string;
  storeName : string;
  documents : option (list DocumentChunk); (* read as [documents || []] *)
  embeddingProvider : option string;       (* [metadata.embeddingProvider] *)
  embeddingModel : option string;          (* [metadata.embeddingModel] *)
  storeCreatedAt : Z
}.

Record XY := mkXY { x : R; y : R }.
Record Size := mkSize { width : R; height : R }.
Record Viewport := mkViewport { vx : R; vy : R; vzoom : R }.

(** The [data] object of a node: chat and memory nodes share one bag of
    optional fields ([ChatNodeData], [MemoryNodeData]). *)
Record NodeData := mkData {
  title : option string;
  provider : option string;
  model : option string;
  messages : option (list Message);
  systemPrompt : option string;
  attachedMemoryNodes : option (list string);
  chunkCount : option Z
}.

Record CanvasNode := mkCanvasNode {
  cnId : string;
  cnType : string;                         (* ['chat' | 'memory'] *)
  cnPosition : XY;
  cnSize : Size;
  cnData : NodeData
}.

Record CanvasEdge := mkCanvasEdge {
  ceId : string;
  ceSource : string;
  ceTarget : string;
  ceType : option string                   (* legacy records lack it *)
}.

Record CanvasState := mkCanvasState {
  csNodes : list CanvasNode;
  csEdges : list CanvasEdge;
  csViewport : Viewport;
  csVersion : Z
}.

Record CanvasSessionData := mkSession {
  sessionId : string;
  sessionTitle : string;
  sessionState : CanvasState;
  createdAt : Z;
  updatedAt : Z
}.

Record ChatData := mkChat {
  chatId : string;
  chatTitle : string;
  chatMessages : list Message;
  chatProvider : string;
  chatModel : string;
  chatSystemPrompt : option string;
  chatCreatedAt : Z;
  chatUpdatedAt : Z
}.

(** The object stores of the persistent key-value store that the modelled
    code reads and writes. *)
Record Storage := mkStorage {
  canvasSessions : gmap string CanvasSessionData;
  vectorStores : gmap string VectorStoreData
}.

Definition saveCanvasSession (id : string) (data : CanvasSessionData)
           (db : Storage) : Storage :=
  mkStorage (<[id := data]> (canvasSessions db)) (vectorStores db).

Definition getCanvasSession (id : string) (db : Storage)
  : option CanvasSessionData := canvasSessions db !! id.

Definition getAllCanvasSessions (db : Storage) : list CanvasSessionData :=
  map snd (map_to_list (canvasSessions db)).

Definition getVectorStore (id : string) (db : Storage)
  : option VectorStoreData := vectorStores db !! id.

End Types.
Import Types.

(* ===================================================================== *)
(** * vector-store.ts: [VectorStore] *)
(* ===================================================================== *)

Module VectorStore.

Record t := mk {
  storeId : string;
  chunks : list DocumentChunk
}.

(** [new VectorStore(storeId, data)]. *)
Definition create (storeId : string) (data : option VectorStoreData) : t :=
  match data with
  | Some d => mk storeId (default [] (documents d))
  | None => mk storeId []
  end.

Record VectorSearchResult := mkResult {
  chunk : DocumentChunk;
  score : R
}.

(** The three accumulators of the [for] loop of [cosineSimilarity]. *)
Record Acc := mkAcc {
  dotProduct : R;
  normA : R;
  normB : R
}.

(** One run of the loop body at index [i]. *)
Definition cosineStep (a b : list R) (acc : Acc) (i : nat) : Acc :=
  let ai := nth i a 0%R in
  let bi := nth i b 0%R in
  mkAcc (dotProduct acc + ai * bi)%R
        (normA acc + ai * ai)%R
        (normB acc + bi * bi)%R.

Definition lengthError : string := "Vectors must have the same length".

Definition cosineSimilarity (a b : list R) : Result R :=
  if negb (length a =? length b)%nat then Throw lengthError
  else
    let acc :=
      fold_left (cosineStep a b) (seq 0 (length a)) (mkAcc 0 0 0)%R in
    let denominator := (sqrt (normA acc) * sqrt (normB acc))%R in
    if Req_dec_T denominator 0 then Ok 0%R
    else Ok (dotProduct acc / denominator)%R.

(** *** [cosineSimilarity] with the arithmetic left open

    The same function over any type of numbers with a zero, [+], [*],
    [/], [Math.sqrt] and the test [=== 0]: IEEE doubles with their
    rounded operations are one instance, the real numbers of
    [cosineSimilarity] are another.  [a[i]] and [b[i]] are read inside the
    arrays, so the default of [nth] is never used. *)
Section Arithmetic.
Variable num : Type.
Variable zero : num.
Variables add mul div : num -> num -> num.
Variable squareRoot : num -> num.
Variable isZero : num -> bool.

Record AccIn := mkAccIn {
  dotProductIn : num;
  normAIn : num;
  normBIn : num
}.

Definition cosineStepIn (a b : list num) (acc : AccIn) (i : nat)
  : AccIn :=
  let ai := nth i a zero in
  let bi := nth i b zero in
  mkAccIn (add (dotProductIn acc) (mul ai bi))
          (add (normAIn acc) (mul ai ai))
          (add (normBIn acc) (mul bi bi)).

Definition cosineSimilarityIn (a b : list num) : Result num :=
  if negb (length a =? length b)%nat then Throw lengthError
  else
    let acc :=
      fold_left (cosineStepIn a b) (seq 0 (length a))
                (mkAccIn zero zero zero) in
    let denominator :=
      mul (squareRoot (normAIn acc)) (squareRoot (normBIn acc)) in
    if isZero denominator then Ok zero
    else Ok (div (dotProductIn acc) denominator).
End Arithmetic.

(** [x === 0] on a real number. *)
Definition isZeroR (x : R) : bool := if Req_dec_T x 0 then true else false.

(** [!chunk.embedding || chunk.embedding.length === 0] is false. *)
Definition hasEmbedding (c : DocumentChunk) : bool :=
  match embedding c with
  | Some (_ :: _) => true
  | _ => false
  end.

(** The [for (const chunk of this.chunks)] loop; a [throw] of
    [cosineSimilarity] leaves the loop and [search]. *)
Fixpoint searchLoop (queryEmbedding : list R) (cs : list DocumentChunk)
         (results : list VectorSearchResult)
  : Result (list VectorSearchResult) :=
  match cs with
  | [] => Ok results
  | c :: rest =>
      match embedding c with
      | Some (e0 :: e') =>
          bind (cosineSimilarity queryEmbedding (e0 :: e')) (fun s =>
            searchLoop queryEmbedding rest (results ++ [mkResult c s]))
      | _ => searchLoop queryEmbedding rest results
      end
  end.

(** [(a, b) => b.score - a.score] is positive. *)
Definition byScore (a b : VectorSearchResult) : bool :=
  positive (score b - score a).

Definition search (vs : t) (queryEmbedding : list R) (topK : Z)
  : Result (list VectorSearchResult) :=
  if (length (chunks vs) =? 0)%nat then Ok []
  else
    bind (searchLoop queryEmbedding (chunks vs) []) (fun results =>
      Ok (slice (sort byScore results) 0 topK)).

(** The default argument [topK = 5]. *)
Definition searchDefault (vs : t) (queryEmbedding : list R) :=
  search vs queryEmbedding 5.

(** ** Vocabulary of the statements *)

(** [Σ aᵢbᵢ] and [‖a‖]. *)
Fixpoint dot (a b : list R) : R :=
  match a, b with
  | u :: a', v :: b' => (u * v + dot a' b')%R
  | _, _ => 0%R
  end.

Definition norm (a : list R) : R := sqrt (dot a a).

(** The chunks that take part in a search. *)
Definition embedded (vs : t) : list DocumentChunk :=
  List.filter hasEmbedding (chunks vs).

(** Scores never go up along the sequence. *)
Definition nonIncreasing (scores : list R) : Prop :=
  StronglySorted (fun a b => (b <= a)%R) scores.

(** A result is the chunk it was computed from, with its similarity. *)
Definition scored (q : list R) (r : VectorSearchResult) : Prop :=
  exists e, embedding (chunk r) = Some e /\ e <> []
            /\ cosineSimilarity q e = Ok (score r).

(** No compared pair differs in length. *)
Definition sameDimension (vs : t) (q : list R) : Prop :=
  forall c e, In c (chunks vs) -> embedding c = Some e -> e <> [] ->
              length e = length q.

(** Some compared pair differs in length. *)
Definition dimensionMismatch (vs : t) (q : list R) : Prop :=
  exists c e, In c (chunks vs) /\ embedding c = Some e /\ e <> []
              /\ length e <> length q.

(** A store of two chunks with one-dimensional embeddings. *)
Definition twoChunks : t :=
  mk "m" [mkChunk "d-0" "first" (Some [1%R]) [];
          mkChunk "d-1" "second" (Some [1%R]) []].

(** ** The other methods of the class *)

(** [Map.prototype.set] on the entries of a [Map] in insertion order: a
    key that is present keeps its place and gets the new value. *)
Fixpoint mapSet (k : string) (v : DocumentChunk)
         (m : list (string * DocumentChunk)) : list (string * DocumentChunk) :=
  match m with
  | [] => [(k, v)]
  | (k', v') :: rest =>
      if String.eqb k' k then (k, v) :: rest
      else (k', v') :: mapSet k v rest
  end.

(** [chunks.forEach(chunk => chunkMap.set(chunk.id, chunk))]. *)
Definition setAll (cs : list DocumentChunk)
           (m : list (string * DocumentChunk)) : list (string * DocumentChunk) :=
  fold_left (fun m c => mapSet (chunkId c) c m) cs m.

(** [addChunks(chunks)]. *)
Definition addChunks (new : list DocumentChunk) (vs : t) : t :=
  let chunkMap := setAll (chunks vs) [] in
  let chunkMap := setAll new chunkMap in
  mk (storeId vs) (map snd chunkMap).

(** [removeChunks(chunkIds)]. *)
Definition removeChunks (chunkIds : list string) (vs : t) : t :=
  mk (storeId vs)
     (List.filter
        (fun c => negb (existsb (String.eqb (chunkId c)) chunkIds))
        (chunks vs)).

Definition getChunkCount (vs : t) : Z := Z.of_nat (length (chunks vs)).

Definition clear (vs : t) : t := mk (storeId vs) [].

(** [export(embeddingProvider, embeddingModel)] at the time [now]; a
    falsy provider or model is left out of the metadata. *)
Definition export (embeddingProvider embeddingModel : option string)
           (now : Z) (vs : t) : VectorStoreData :=
  mkStoreData (storeId vs) EmptyString (Some (chunks vs))
              (if truthy embeddingProvider then embeddingProvider else None)
              (if truthy embeddingModel then embeddingModel else None)
              now.

(** The chunk a lookup by id finds, and the last chunk of a list with a
    given id. *)
Definition findChunk (id : string) (cs : list DocumentChunk)
  : option DocumentChunk :=
  List.find (fun c => String.eqb (chunkId c) id) cs.

Definition lastWith (id : string) (cs : list DocumentChunk)
  : option DocumentChunk :=
  findChunk id (rev cs).

Definition ids (cs : list DocumentChunk) : list string := map chunkId cs.

(** Every entry of the map sits under the id of its chunk. *)
Definition keyed (m : list (string * DocumentChunk)) : Prop :=
  Forall (fun e => fst e = chunkId (snd e)) m.

(** The entry [set(chunk.id, chunk)] writes. *)
Definition entry (c : DocumentChunk) : string * DocumentChunk := (chunkId c, c).

End VectorStore.

(* ===================================================================== *)
(** * The canvas graph: React Flow nodes and edges *)
(* ===================================================================== *)

Module Graph.

Record Style := mkStyle {
  styleWidth : option R;
  styleHeight : option R
}.

Record Node := mkNode {
  nodeId : string;
  nodeType : option string;                (* [type?: string] *)
  position : XY;
  data : NodeData;
  style : option Style
}.

Record Edge := mkEdge {
  edgeId : string;
  source : string;
  target : string;
  edgeType : option string
}.

(** [x.type === s]. *)
Definition isType (ty : option string) (s : string) : bool :=
  match ty with
  | Some t => String.eqb t s
  | None => false
  end.

(** [nodes.find(n => n.id === id)]. *)
Definition findNode (nodes : list Node) (id : string) : option Node :=
  List.find (fun n => String.eqb (nodeId n) id) nodes.

End Graph.
Import Graph.

(* ===================================================================== *)
(** * services/llm/types.ts: the provider interface *)
(* ===================================================================== *)

Module LLM.

Record LLMMessage := mkLLM {
  llmRole : Role;
  llmContent : string
}.

Record LLMStreamChunk := mkStreamChunk {
  deltaText : string;                      (* [chunk.content] *)
  done : bool
}.

(** What [streamChat] yields, each chunk with the value of [Date.now()]
    at its arrival. *)
Definition Stream := list (LLMStreamChunk * Z).

(** ** Vocabulary of the statements *)

(** The chunks a [for await] loop with [if (chunk.done) break] consumes:
    up to the first [done] chunk. *)
Fixpoint consumed (stream : Stream) : Stream :=
  match stream with
  | [] => []
  | (chunk, now) :: rest =>
      if done chunk then [(chunk, now)] else (chunk, now) :: consumed rest
  end.

(** All deltas received, one after the other. *)
Definition deltas (stream : Stream) : string :=
  fold_right (fun c acc => deltaText (fst c) +:+ acc) EmptyString
             (consumed stream).

(** The delta received last. *)
Definition lastDelta (stream : Stream) : string :=
  match rev (consumed stream) with
  | c :: _ => deltaText (fst c)
  | [] => EmptyString
  end.

End LLM.
Import LLM.

(* ===================================================================== *)
(** * ChatNode.tsx: what [handleSend] sends to the model *)
(* ===================================================================== *)

Module ChatNode.

(** ** Donor context *)

Record Donor := mkDonor {
  donorNodeId : string;
  nodeTitle : string;
  donorMessages : list Message
}.

(** The body of [for (const edge of incomingEdges)]; leaving [donorNodes]
    as it is stands for [continue]. *)
Definition donorStep (currentNodes : list Node) (donorNodes : list Donor)
           (edge : Edge) : list Donor :=
  match findNode currentNodes (source edge) with
  | None => donorNodes
  | Some donorNode =>
      if negb (isType (nodeType donorNode) "chat") then donorNodes
      else
        let donorData := data donorNode in
        donorNodes ++ [mkDonor (nodeId donorNode)
                               (orElse (title donorData) "Untitled")
                               (default [] (messages donorData))]
  end.

Definition incomingContextEdges (currentEdges : list Edge) (id : string)
  : list Edge :=
  let allIncomingEdges :=
    List.filter (fun e => String.eqb (target e) id) currentEdges in
  List.filter (fun e => isType (edgeType e) "context") allIncomingEdges.

Definition getContextFromDonorNodes (currentEdges : list Edge)
           (currentNodes : list Node) (id : string) : list Donor :=
  fold_left (donorStep currentNodes) (incomingContextEdges currentEdges id) [].

(** ** The message array *)

Definition quote : string := String (ascii_of_nat 34) EmptyString.
Definition newline : string := String (ascii_of_nat 10) EmptyString.

Definition donorHeader (nodeTitle : string) : LLMMessage :=
  mkLLM system ("Context from " +:+ quote +:+ nodeTitle +:+ quote
                +:+ " (donor node):").

Definition donorSeparator : LLMMessage := mkLLM system "---".

Definition endOfDonorContext : LLMMessage :=
  mkLLM system
        "--- End of donor context. Continue the conversation below. ---".

(** [donor.messages.forEach(...)]: system messages are skipped. *)
Definition pushDonorMessage (llmMessages : list LLMMessage) (msg : Message)
  : list LLMMessage :=
  if Role_eqb (role msg) user || Role_eqb (role msg) assistant
  then llmMessages ++ [mkLLM (role msg) (content msg)]
  else llmMessages.

(** [donorNodes.forEach((donor, index) => ...)]; [count] is
    [donorNodes.length]. *)
Fixpoint pushDonors (count : Z) (index : Z) (donors : list Donor)
         (llmMessages : list LLMMessage) : list LLMMessage :=
  match donors with
  | [] => llmMessages
  | donor :: rest =>
      let llmMessages := llmMessages ++ [donorHeader (nodeTitle donor)] in
      let llmMessages :=
        fold_left pushDonorMessage (donorMessages donor) llmMessages in
      let llmMessages :=
        if index <? count - 1 then llmMessages ++ [donorSeparator]
        else llmMessages in
      pushDonors count (index + 1) rest llmMessages
  end.

Definition ragSystemMessage (ragContext : string) : LLMMessage :=
  mkLLM system
    ("The following context is retrieved from attached memory nodes:"
     +:+ ragContext +:+ newline +:+ newline
     +:+ "Use this context to inform your response.").

(** The part of [handleSend] from [const llmMessages = []] to the call of
    [streamChat]. *)
Definition buildLLMMessages (systemPrompt : string) (donorNodes : list Donor)
           (ragContext : string) (updatedMessages : list Message)
  : list LLMMessage :=
  let llmMessages := [] in
  let llmMessages :=
    if negb (String.eqb systemPrompt EmptyString)
    then llmMessages ++ [mkLLM system systemPrompt]
    else llmMessages in
  let llmMessages :=
    if (0 <? Z.of_nat (length donorNodes)) then
      pushDonors (Z.of_nat (length donorNodes)) 0 donorNodes llmMessages
                 ++ [endOfDonorContext]
    else llmMessages in
  let llmMessages :=
    if negb (String.eqb ragContext EmptyString)
    then llmMessages ++ [ragSystemMessage ragContext]
    else llmMessages in
  fold_left (fun acc m => acc ++ [mkLLM (role m) (content m)])
            updatedMessages llmMessages.

(** ** The RAG query, from the query embedding on *)

Record RagResult := mkRag {
  ragContent : string;
  ragScore : R;
  ragSource : string;
  ragMetadata : list (string * string)
}.

Definition toRag (storeData : VectorStoreData) (memoryNodeId : string)
           (result : VectorStore.VectorSearchResult) : RagResult :=
  mkRag (chunkContent (VectorStore.chunk result))
        (VectorStore.score result)
        (orElse (Some (storeName storeData)) memoryNodeId)
        (chunkMetadata (VectorStore.chunk result)).

(** The body of [for (const memoryNodeId of attachedMemoryNodes)]: a
    missing store is skipped, an error of the search is caught. *)
Definition queryStep (db : Storage) (queryEmbedding : list R)
           (allResults : list RagResult) (memoryNodeId : string)
  : list RagResult :=
  match getVectorStore memoryNodeId db with
  | Some storeData =>
      let vectorStore := VectorStore.create memoryNodeId (Some storeData) in
      match VectorStore.search vectorStore queryEmbedding 3 with
      | Ok results =>
          fold_left (fun acc result =>
                       acc ++ [toRag storeData memoryNodeId result])
                    results allResults
      | Throw _ => allResults
      end
  | None => allResults
  end.

Definition queryMemoryNodes (db : Storage) (queryEmbedding : list R)
           (attachedMemoryNodes : list string) : list RagResult :=
  fold_left (queryStep db queryEmbedding) attachedMemoryNodes [].

(** [(a, b) => b.score - a.score] is positive. *)
Definition byRagScore (a b : RagResult) : bool :=
  positive (ragScore b - ragScore a).

(** [allResults.sort(...)] followed by [allResults.slice(0, 5)]. *)
Definition topResults (db : Storage) (queryEmbedding : list R)
           (attachedMemoryNodes : list string) : list RagResult :=
  let allResults := queryMemoryNodes db queryEmbedding attachedMemoryNodes in
  slice (sort byRagScore allResults) 0 5.

Definition showNat (n : nat) : string :=
  NilZero.string_of_uint (Nat.to_uint n).

Fixpoint join (sep : string) (l : list string) : string :=
  match l with
  | [] => EmptyString
  | [s] => s
  | s :: rest => s +:+ sep +:+ join sep rest
  end.

(** [topResults.map((r, i) => ...)]. *)
Fixpoint formatResults (i : nat) (l : list RagResult) : list string :=
  match l with
  | [] => []
  | r :: rest =>
      ("[" +:+ showNat (i + 1) +:+ "] (from " +:+ quote +:+ ragSource r
       +:+ quote +:+ "): " +:+ ragContent r)
        :: formatResults (S i) rest
  end.

Definition ragContext (topResults : list RagResult) : string :=
  if (0 <? Z.of_nat (length topResults)) then
    newline +:+ newline +:+ "Relevant context from memory:" +:+ newline
    +:+ join (newline +:+ newline) (formatResults 0 topResults)
  else EmptyString.

(** ** Streaming the answer *)

(** [fullContent] and the argument of the last [setMessages]. *)
Record Streaming := mkStreaming {
  fullContent : string;
  shown : list Message
}.

(** The [for await] loop over the chunks of [streamChat]; each chunk
    comes with the value of [Date.now()] at its arrival. *)
Fixpoint streamLoop (updatedMessages : list Message) (st : Streaming)
         (stream : Stream) : Streaming :=
  match stream with
  | [] => st
  | (chunk, now) :: rest =>
      let st :=
        if negb (String.eqb (deltaText chunk) EmptyString) then
          let fullContent := fullContent st +:+ deltaText chunk in
          let assistantMessage := mkMessage assistant fullContent now in
          mkStreaming fullContent (updatedMessages ++ [assistantMessage])
        else st in
      if done chunk then st
      else streamLoop updatedMessages st rest
  end.

(** [let fullContent = ''] and the loop, after [setMessages(updatedMessages)]. *)
Definition streamAnswer (updatedMessages : list Message)
           (stream : Stream) : Streaming :=
  streamLoop updatedMessages (mkStreaming EmptyString updatedMessages) stream.

(** ** Vocabulary of the statements *)

Definition forwarded (msg : Message) : bool :=
  Role_eqb (role msg) user || Role_eqb (role msg) assistant.

Definition toLLM (m : Message) : LLMMessage := mkLLM (role m) (content m).

(** The labeled block of one donor. *)
Definition donorBlock (d : Donor) : list LLMMessage :=
  donorHeader (nodeTitle d)
    :: map toLLM (List.filter forwarded (donorMessages d)).

(** The blocks of the donors in order, a separator between two of them. *)
Fixpoint donorBlocks (donors : list Donor) : list LLMMessage :=
  match donors with
  | [] => []
  | [d] => donorBlock d
  | d :: rest => donorBlock d ++ [donorSeparator] ++ donorBlocks rest
  end.

(** The donor an incoming context edge stands for, if any. *)
Definition donorOf (nodes : list Node) (e : Edge) : list Donor :=
  match findNode nodes (source e) with
  | Some n =>
      if isType (nodeType n) "chat"
      then [mkDonor (nodeId n) (orElse (title (data n)) "Untitled")
                    (default [] (messages (data n)))]
      else []
  | None => []
  end.

Definition donorContext (donors : list Donor) : list LLMMessage :=
  match donors with
  | [] => []
  | _ => donorBlocks donors ++ [endOfDonorContext]
  end.

Definition systemPart (systemPrompt : string) : list LLMMessage :=
  if String.eqb systemPrompt EmptyString then [] else [mkLLM system systemPrompt].

Definition ragPart (ragContext : string) : list LLMMessage :=
  if String.eqb ragContext EmptyString then [] else [ragSystemMessage ragContext].

(** A message of role user or assistant. *)
Definition turn (m : LLMMessage) : bool :=
  negb (Role_eqb (llmRole m) system).

(** The comparison of [byRagScore], on the scores themselves. *)
Definition scoreAfter (a b : R) : bool := positive (b - a).

(** What one attached memory node contributes to [allResults]. *)
Definition perIndex (db : Storage) (q : list R) (memoryNodeId : string)
  : list RagResult :=
  match getVectorStore memoryNodeId db with
  | Some storeData =>
      match VectorStore.search
              (VectorStore.create memoryNodeId (Some storeData)) q 3 with
      | Ok results => map (toRag storeData memoryNodeId) results
      | Throw _ => []
      end
  | None => []
  end.

End ChatNode.

(* ===================================================================== *)
(** * chatStore.ts and ChatMode.tsx: streaming in chat mode *)
(* ===================================================================== *)

Module ChatStore.

(** The new [messages] array of [updateLastMessage]. *)
Definition replaceLast (content : string) (now : Z)
           (messages : list Message) : list Message :=
  match rev messages with
  | lastMessage :: before =>
      if Role_eqb (role lastMessage) assistant then
        rev before
            ++ [mkMessage (role lastMessage) content (timestamp lastMessage)]
      else messages ++ [mkMessage assistant content now]
  | [] => messages ++ [mkMessage assistant content now]
  end.

(** [updateLastMessage(content)] on the [currentChat] of the store. *)
Definition updateLastMessage (content : string) (now : Z)
           (currentChat : option ChatData) : option ChatData :=
  match currentChat with
  | None => None
  | Some c =>
      Some (mkChat (chatId c) (chatTitle c)
                   (replaceLast content now (chatMessages c))
                   (chatProvider c) (chatModel c) (chatSystemPrompt c)
                   (chatCreatedAt c) now)
  end.

(** [fullContent] and the [currentChat] of the store. *)
Record Streaming := mkStreaming {
  fullContent : string;
  currentChat : option ChatData
}.

(** The [for await] loop of [ChatMode]'s [handleSend]. *)
Fixpoint streamLoop (st : Streaming) (stream : Stream) : Streaming :=
  match stream with
  | [] => st
  | (chunk, now) :: rest =>
      let st :=
        if negb (String.eqb (deltaText chunk) EmptyString) then
          let fullContent := fullContent st +:+ deltaText chunk in
          mkStreaming fullContent
                      (updateLastMessage fullContent now (currentChat st))
        else st in
      if done chunk then st
      else streamLoop st rest
  end.

Definition streamAnswer (chat : option ChatData) (stream : Stream)
  : Streaming :=
  streamLoop (mkStreaming EmptyString chat) stream.

(** ** Vocabulary of the statements *)

(** The content of the stored assistant message, if the last message is
    one. *)
Definition storedAnswer (messages : list Message) : option string :=
  match rev messages with
  | m :: _ => if Role_eqb (role m) assistant then Some (content m) else None
  | [] => None
  end.

End ChatStore.

(* ===================================================================== *)
(** * canvasStore.ts: the canvas store and its persistence *)
(* ===================================================================== *)

Module CanvasStore.

Record State := mkState {
  nodes : list Node;
  edges : list Edge;
  viewport : Viewport;
  initialized : bool;
  currentSessionId : option string;
  sessions : list CanvasSessionData;
  isLoadingSession : bool;
  isCreatingSession : bool
}.

(** The store next to the persistent key-value store. *)
Definition World : Type := State * Storage.

Definition initialState : State :=
  mkState [] [] (mkViewport 0 0 1) false None [] false false.

(** [set({...})] for the fields that the modelled actions write. *)
Definition setNodesField (ns : list Node) (s : State) : State :=
  mkState ns (edges s) (viewport s) (initialized s) (currentSessionId s)
          (sessions s) (isLoadingSession s) (isCreatingSession s).

Definition setEdgesField (es : list Edge) (s : State) : State :=
  mkState (nodes s) es (viewport s) (initialized s) (currentSessionId s)
          (sessions s) (isLoadingSession s) (isCreatingSession s).

Definition setViewportField (v : Viewport) (s : State) : State :=
  mkState (nodes s) (edges s) v (initialized s) (currentSessionId s)
          (sessions s) (isLoadingSession s) (isCreatingSession s).

Definition setLoading (b : bool) (s : State) : State :=
  mkState (nodes s) (edges s) (viewport s) (initialized s)
          (currentSessionId s) (sessions s) b (isCreatingSession s).

Definition setCreating (b : bool) (s : State) : State :=
  mkState (nodes s) (edges s) (viewport s) (initialized s)
          (currentSessionId s) (sessions s) (isLoadingSession s) b.

Definition setSession (id : option string) (ss : list CanvasSessionData)
           (s : State) : State :=
  mkState (nodes s) (edges s) (viewport s) (initialized s) id ss
          (isLoadingSession s) (isCreatingSession s).

(** [(a, b) => b.updatedAt - a.updatedAt] is positive. *)
Definition byUpdatedAt (a b : CanvasSessionData) : bool :=
  0 <? updatedAt b - updatedAt a.

(** React Flow [Node] to [CanvasNode], as [saveCanvas] converts. *)
Definition toCanvasNode (node : Node) : CanvasNode :=
  mkCanvasNode
    (nodeId node)
    (orElse (nodeType node) "chat")
    (position node)
    (mkSize (numOr (match style node with
                    | Some st => styleWidth st | None => None end) 400)
            (numOr (match style node with
                    | Some st => styleHeight st | None => None end) 500))
    (data node).

Definition toCanvasEdge (edge : Edge) : CanvasEdge :=
  mkCanvasEdge (edgeId edge) (source edge) (target edge)
               (Some (orElse (edgeType edge) "context")).

Definition snapshot (s : State) : CanvasState :=
  mkCanvasState (map toCanvasNode (nodes s)) (map toCanvasEdge (edges s))
                (viewport s) 1.

(** [saveCanvas], at the time [now]. *)
Definition saveCanvas (now : Z) (w : World) : World :=
  let '(s, db) := w in
  if isLoadingSession s then w                      (* skip: loading *)
  else
    let canvasState := snapshot s in
    if (length (nodes s) =? 0)%nat && (length (edges s) =? 0)%nat
    then w                                          (* skip: empty canvas *)
    else
      if negb (truthy (currentSessionId s)) then w  (* skip: no session *)
      else
        let sessionId := orElse (currentSessionId s) EmptyString in
        let session :=
          match List.find (fun x => String.eqb (Types.sessionId x) sessionId)
                          (sessions s) with
          | Some x => Some x
          | None => getCanvasSession sessionId db
          end in
        let updatedSession :=
          mkSession sessionId
                    (orElse (option_map sessionTitle session) "New Canvas")
                    canvasState
                    (match session with
                     | Some x => if createdAt x =? 0 then now else createdAt x
                     | None => now
                     end)
                    now in
        let db := saveCanvasSession sessionId updatedSession db in
        let updatedSessions := getAllCanvasSessions db in
        (setSession (Some sessionId) (sort byUpdatedAt updatedSessions) s,
         db).

Definition showZ (z : Z) : string := NilZero.string_of_int (Z.to_int z).

Definition createSession (now : Z) (w : World) : World :=
  let '(s, db) := w in
  if truthy (currentSessionId s) then w
  else if isCreatingSession s then w
  else
    let s := setCreating true s in
    let sessionId := "canvas-" +:+ showZ now in
    let newSession :=
      mkSession sessionId "New Canvas" (snapshot s) now now in
    let db := saveCanvasSession sessionId newSession db in
    let updatedSessions := getAllCanvasSessions db in
    (mkState (nodes s) (edges s) (viewport s) true (Some sessionId)
             (sort byUpdatedAt updatedSessions) (isLoadingSession s) false,
     db).

(** The part shared by [addNode] and [addEdge] after their [set]. *)
Definition ensureSessionAndSave (now : Z) (w : World) : World :=
  if truthy (currentSessionId (fst w)) then saveCanvas now w
  else
    let w := createSession now w in
    if truthy (currentSessionId (fst w)) then saveCanvas now w
    else w.

Definition addNode (now : Z) (node : Node) (w : World) : World :=
  let '(s, db) := w in
  ensureSessionAndSave now (setNodesField (nodes s ++ [node]) s, db).

(** [{...a, ...b}] on node data: a field of [b] that is present wins. *)
Definition mergeData (a b : NodeData) : NodeData :=
  let pick {A} (u v : option A) := match v with Some _ => v | None => u end in
  mkData (pick (title a) (title b)) (pick (provider a) (provider b))
         (pick (model a) (model b)) (pick (messages a) (messages b))
         (pick (systemPrompt a) (systemPrompt b))
         (pick (attachedMemoryNodes a) (attachedMemoryNodes b))
         (pick (chunkCount a) (chunkCount b)).

(** The [Partial<Node>] the callers pass to [updateNode]. *)
Record NodeUpdates := mkUpdates {
  updPosition : option XY;
  updData : option NodeData;
  updStyle : option Style
}.

Definition applyUpdates (updates : NodeUpdates) (node : Node) : Node :=
  mkNode (nodeId node) (nodeType node)
         (default (position node) (updPosition updates))
         (match updData updates with
          | Some d => mergeData (data node) d
          | None => data node
          end)
         (match updStyle updates with
          | Some st => Some st
          | None => style node
          end).

Definition updateNode (now : Z) (id : string) (updates : NodeUpdates)
           (w : World) : World :=
  let '(s, db) := w in
  let updatedNodes :=
    map (fun node => if String.eqb (nodeId node) id
                     then applyUpdates updates node else node) (nodes s) in
  saveCanvas now (setNodesField updatedNodes s, db).

Definition deleteNode (now : Z) (id : string) (w : World) : World :=
  let '(s, db) := w in
  let s :=
    setEdgesField
      (List.filter (fun edge => negb (String.eqb (source edge) id)
                                && negb (String.eqb (target edge) id))
                   (edges s))
      (setNodesField
         (List.filter (fun node => negb (String.eqb (nodeId node) id))
                      (nodes s)) s) in
  saveCanvas now (s, db).

Definition addEdge (now : Z) (edge : Edge) (w : World) : World :=
  let '(s, db) := w in
  ensureSessionAndSave now (setEdgesField (edges s ++ [edge]) s, db).

Definition deleteEdge (now : Z) (id : string) (w : World) : World :=
  let '(s, db) := w in
  saveCanvas now
    (setEdgesField
       (List.filter (fun edge => negb (String.eqb (edgeId edge) id))
                    (edges s)) s, db).

Definition setNodes (now : Z) (ns : list Node) (w : World) : World :=
  let '(s, db) := w in saveCanvas now (setNodesField ns s, db).

Definition setEdges (now : Z) (es : list Edge) (w : World) : World :=
  let '(s, db) := w in saveCanvas now (setEdgesField es s, db).

(** [setViewport]: the [set]; its save runs when the timer fires. *)
Definition setViewport (v : Viewport) (w : World) : World :=
  let '(s, db) := w in (setViewportField v s, db).

(** ** [loadSession] *)

Definition findCanvasNode (ns : list CanvasNode) (id : string)
  : option CanvasNode :=
  List.find (fun n => String.eqb (cnId n) id) ns.

Definition toFlowNode (node : CanvasNode) : Node :=
  mkNode (cnId node)
         (Some (orElse (Some (cnType node)) "chat"))
         (cnPosition node)
         (cnData node)
         (Some (mkStyle (Some (numOr (Some (width (cnSize node))) 400))
                        (Some (numOr (Some (height (cnSize node))) 500)))).

(** [sourceNode?.type === 'memory' && targetNode?.type === 'chat']. *)
Definition memoryToChat (ns : list CanvasNode) (edge : CanvasEdge) : bool :=
  match findCanvasNode ns (ceSource edge),
        findCanvasNode ns (ceTarget edge) with
  | Some sourceNode, Some targetNode =>
      String.eqb (cnType sourceNode) "memory"
      && String.eqb (cnType targetNode) "chat"
  | _, _ => false
  end.

(** The conversion of one stored edge, with the auto-detection of RAG
    edges. *)
Definition toFlowEdge (ns : list CanvasNode) (edge : CanvasEdge) : Edge :=
  if (negb (truthy (ceType edge)) || isType (ceType edge) "context")
     && memoryToChat ns edge
  then mkEdge (ceId edge) (ceSource edge) (ceTarget edge) (Some "rag")
  else mkEdge (ceId edge) (ceSource edge) (ceTarget edge)
              (Some (orElse (ceType edge) "context")).

(** [loadSession(sessionId)] up to its [setTimeout]. *)
Definition loadSession (id : string) (w : World) : World :=
  let '(s, db) := w in
  let s := setLoading true s in
  match getCanvasSession id db with
  | Some session =>
      let canvasState := sessionState session in
      let reactFlowNodes := map toFlowNode (csNodes canvasState) in
      let reactFlowEdges :=
        map (toFlowEdge (csNodes canvasState)) (csEdges canvasState) in
      let allSessions := getAllCanvasSessions db in
      (mkState reactFlowNodes reactFlowEdges (csViewport canvasState)
               (initialized s) (Some id) (sort byUpdatedAt allSessions)
               (isLoadingSession s) (isCreatingSession s),
       db)
  | None => (setLoading false s, db)
  end.

(** The callback of the [setTimeout(..., 2000)] of [loadSession]. *)
Definition loadSessionTimeout (w : World) : World :=
  let '(s, db) := w in (setLoading false s, db).

(** ** [loadSessions] and [deleteSession] *)




(** ** Vocabulary of the statements *)

(** The mutations of the store that end in a call of [saveCanvas]. *)
Inductive Mutation :=
| SaveCanvas
| SetNodes (ns : list Node)
| SetEdges (es : list Edge)
| SetViewport (v : Viewport)            (* with its delayed save *)
| UpdateNode (id : string) (updates : NodeUpdates)
| DeleteNode (id : string)
| DeleteEdge (id : string).

Definition mutate (now : Z) (m : Mutation) (w : World) : World :=
  match m with
  | SaveCanvas => saveCanvas now w
  | SetNodes ns => setNodes now ns w
  | SetEdges es => setEdges now es w
  | SetViewport v => saveCanvas now (setViewport v w)
  | UpdateNode id updates => updateNode now id updates w
  | DeleteNode id => deleteNode now id w
  | DeleteEdge id => deleteEdge now id w
  end.

(** A run of mutations, each at its own time. *)
Definition run (ms : list (Mutation * Z)) (w : World) : World :=
  fold_left (fun w m => mutate (snd m) (fst m) w) ms w.

(** A stored edge is missing its kind. *)
Definition kindMissing (edge : CanvasEdge) : Prop :=
  ceType edge = None \/ ceType edge = Some EmptyString.

(** The endpoints of a stored edge are a Memory node and a Chat node. *)
Definition endpointsMemoryToChat (ns : list CanvasNode) (edge : CanvasEdge)
  : Prop :=
  exists sourceNode targetNode,
    findCanvasNode ns (ceSource edge) = Some sourceNode
    /\ findCanvasNode ns (ceTarget edge) = Some targetNode
    /\ cnType sourceNode = "memory" /\ cnType targetNode = "chat".

(** Every edge runs between two nodes of the canvas. *)
Definition wellFormed (s : State) : Prop :=
  forall e, In e (edges s) ->
            In (source e) (map nodeId (nodes s))
            /\ In (target e) (map nodeId (nodes s)).

(** The two actions that create the session when there is none. *)
Inductive Addition :=
| AddNode (node : Node)
| AddEdge (edge : Edge).

Definition add (now : Z) (a : Addition) (w : World) : World :=
  match a with
  | AddNode node => addNode now node w
  | AddEdge edge => addEdge now edge w
  end.

Definition addAll (l : list (Addition * Z)) (w : World) : World :=
  fold_left (fun w a => add (snd a) (fst a) w) l w.

Definition addedNodes (l : list (Addition * Z)) : list Node :=
  flat_map (fun a => match fst a with AddNode n => [n] | AddEdge _ => [] end) l.

Definition addedEdges (l : list (Addition * Z)) : list Edge :=
  flat_map (fun a => match fst a with AddNode _ => [] | AddEdge e => [e] end) l.

(** The state after the [set] of an addition. *)
Definition added (a : Addition) (s : State) : State :=
  match a with
  | AddNode node => setNodesField (nodes s ++ [node]) s
  | AddEdge edge => setEdgesField (edges s ++ [edge]) s
  end.

(** Newest first. *)
Definition newestFirst (l : list CanvasSessionData) : Prop :=
  StronglySorted (fun a b => updatedAt b <= updatedAt a) l.

End CanvasStore.

(* ===================================================================== *)
(** * CanvasMode.tsx: [handleConnect] *)
(* ===================================================================== *)

Module CanvasMode.
Import CanvasStore.

Record Connection := mkConnection {
  connSource : option string;
  connTarget : option string
}.

(** "If connecting memory node to chat node, create RAG edge.  Otherwise,
    create context edge." *)
Definition edgeTypeFor (sourceNode targetNode : Node) : string :=
  if isType (nodeType sourceNode) "memory"
     && isType (nodeType targetNode) "chat"
  then "rag" else "context".

(** [currentAttached.includes(id)]. *)
Definition includes (l : list string) (id : string) : bool :=
  existsb (String.eqb id) l.

Definition handleConnect (now : Z) (connection : Connection) (w : World)
  : World :=
  if negb (truthy (connSource connection))
     || negb (truthy (connTarget connection)) then w
  else
    let src := orElse (connSource connection) EmptyString in
    let tgt := orElse (connTarget connection) EmptyString in
    let currentNodes := nodes (fst w) in
    match findNode currentNodes src, findNode currentNodes tgt with
    | Some sourceNode, Some targetNode =>
        let edgeType := edgeTypeFor sourceNode targetNode in
        let newEdge :=
          mkEdge ("edge-" +:+ src +:+ "-" +:+ tgt +:+ "-" +:+ showZ now)
                 src tgt (Some edgeType) in
        let updatedEdges := edges (fst w) ++ [newEdge] in
        let w := setEdges now updatedEdges w in
        if String.eqb edgeType "rag" then
          let targetData := data targetNode in
          let currentAttached :=
            default [] (attachedMemoryNodes targetData) in
          if negb (includes currentAttached src) then
            let updatedAttached := currentAttached ++ [src] in
            updateNode now tgt
              (mkUpdates None
                 (Some (mkData (title targetData) (provider targetData)
                               (model targetData) (messages targetData)
                               (systemPrompt targetData)
                               (Some updatedAttached)
                               (chunkCount targetData)))
                 None) w
          else w
        else w
    | _, _ => w
    end.

(** ** [handleBranch] and [handleMerge]

    [nodes] and [edges] of the component are read from the store, which
    they mirror. *)

Definition chatNodeId (now : Z) : string := "chat-node-" +:+ showZ now.

Definition contextEdge (sourceId targetId : string) : Edge :=
  mkEdge ("edge-" +:+ sourceId +:+ "-" +:+ targetId) sourceId targetId
         (Some "context").

Definition handleBranch (now : Z) (selectedNodeIds : list string)
           (w : World) : World :=
  match selectedNodeIds with
  | [selected] =>
      match findNode (nodes (fst w)) selected with
      | None => w
      | Some selectedNode =>
          if negb (isType (nodeType selectedNode) "chat") then w
          else
            let nodeData := data selectedNode in
            let parentWidth :=
              numOr (match style selectedNode with
                     | Some st => styleWidth st
                     | None => None
                     end) 400 in
            let existingChildren :=
              List.filter
                (fun e => String.eqb (source e) (nodeId selectedNode))
                (edges (fst w)) in
            let childCount := INR (length existingChildren) in
            let horizontalGap := 100%R in
            let verticalOffset := (childCount * 150)%R in
            let newNode :=
              mkNode
                (chatNodeId now) (Some "chat")
                (mkXY (numOr (Some (x (position selectedNode))) 0
                       + parentWidth + horizontalGap)%R
                      (numOr (Some (y (position selectedNode))) 0
                       + verticalOffset)%R)
                (mkData
                   (Some (orElse (title nodeData) "New Chat"
                          +:+ " (Branch)"))
                   (Some (orElse (provider nodeData) "ollama"))
                   (Some (orElse (model nodeData) EmptyString))
                   (Some [])
                   (systemPrompt nodeData)
                   None None)
                (Some (mkStyle (Some 400%R) (Some 500%R))) in
            let w := addNode now newNode w in
            addEdge now (contextEdge (nodeId selectedNode) (nodeId newNode))
                    w
      end
  | _ => w
  end.

(** The [forEach] that looks for a common provider and model: both tests
    start from the initial values ['ollama'] and ['']. *)
Definition commonStep (acc : string * string) (node : Node)
  : string * string :=
  let '(commonProvider, commonModel) := acc in
  let nodeData := data node in
  (if negb (truthy (Some commonProvider)) && truthy (provider nodeData)
   then orElse (provider nodeData) EmptyString else commonProvider,
   if negb (truthy (Some commonModel)) && truthy (model nodeData)
   then orElse (model nodeData) EmptyString else commonModel).

Definition sumBy (f : Node -> R) (l : list Node) : R :=
  fold_left (fun sum n => (sum + f n)%R) l 0%R.

Definition handleMerge (now : Z) (selectedNodeIds : list string)
           (w : World) : World :=
  if (length selectedNodeIds <? 2)%nat then w
  else
    let selectedNodes :=
      List.filter (fun n => includes selectedNodeIds (nodeId n)
                            && isType (nodeType n) "chat")
                  (nodes (fst w)) in
    if (length selectedNodes <? 2)%nat then w
    else
      let '(commonProvider, commonModel) :=
        fold_left commonStep selectedNodes ("ollama", EmptyString) in
      let avgX :=
        (sumBy (fun n => numOr (Some (x (position n))) 0) selectedNodes
         / INR (length selectedNodes))%R in
      let avgY :=
        (sumBy (fun n => numOr (Some (y (position n))) 0) selectedNodes
         / INR (length selectedNodes))%R in
      let newNode :=
        mkNode (chatNodeId now) (Some "chat")
               (mkXY (avgX + 250)%R (avgY + 300)%R)
               (mkData (Some "Merged Chat") (Some commonProvider)
                       (Some commonModel) (Some [])
                       (match selectedNodes with
                        | first :: _ => systemPrompt (data first)
                        | [] => None
                        end)
                       None None)
               (Some (mkStyle (Some 400%R) (Some 500%R))) in
      let w := addNode now newNode w in
      fold_left
        (fun w sourceNode =>
           addEdge now (contextEdge (nodeId sourceNode) (nodeId newNode)) w)
        selectedNodes w.

(** ** Vocabulary of the statements *)

(** The donor that a chat node is to a node it gives context to. *)
Definition donorFrom (n : Node) : ChatNode.Donor :=
  ChatNode.mkDonor (nodeId n) (orElse (title (data n)) "Untitled")
                   (default [] (messages (data n))).

(** No node and no edge of the canvas uses the id yet. *)
Definition freshId (id : string) (s : State) : Prop :=
  ~ In id (map nodeId (nodes s))
  /\ forall e, In e (edges s) -> source e <> id /\ target e <> id.

End CanvasMode.

(* ===================================================================== *)
(** * chatStore.ts: the chat store and its persistence;
      ChatMode.tsx: [handleSend] *)
(* ===================================================================== *)

Module ChatMode.

(** The fields of the store that the modelled actions read or write
    ([availableModels] is left out). *)
Record State := mkState {
  currentChat : option ChatData;
  chats : list ChatData;
  provider : string;
  model : string;
  systemPrompt : string;
  isLoading : bool;
  error : option string
}.

(** The store next to the [chats] object store of the persistent
    key-value store. *)
Definition World : Type := State * gmap string ChatData.

Definition initialState : State :=
  mkState None [] "ollama" EmptyString EmptyString false None.

Definition setCurrentChat (c : option ChatData) (s : State) : State :=
  mkState c (chats s) (provider s) (model s) (systemPrompt s)
          (isLoading s) (error s).

Definition setChats (l : list ChatData) (s : State) : State :=
  mkState (currentChat s) l (provider s) (model s) (systemPrompt s)
          (isLoading s) (error s).

Definition setLoading (b : bool) (s : State) : State :=
  mkState (currentChat s) (chats s) (provider s) (model s) (systemPrompt s)
          b (error s).

Definition setError (e : option string) (s : State) : State :=
  mkState (currentChat s) (chats s) (provider s) (model s) (systemPrompt s)
          (isLoading s) e.

(** [storage.getAllChats()]. *)
Definition getAllChats (db : gmap string ChatData) : list ChatData :=
  map snd (map_to_list db).

Definition loadChats (w : World) : World :=
  let '(s, db) := w in (setChats (getAllChats db) s, db).

Definition loadChat (chatId : string) (w : World) : World :=
  let '(s, db) := w in
  match db !! chatId with
  | Some chat =>
      (mkState (Some chat) (chats s) (chatProvider chat) (chatModel chat)
               (orElse (chatSystemPrompt chat) EmptyString) (isLoading s) (error s),
       db)
  | None => w
  end.

Definition createChat (now : Z) (w : World) : World :=
  let '(s, db) := w in
  let chatId := "chat-" +:+ CanvasStore.showZ now in
  let chat :=
    mkChat chatId "New Chat" [] (provider s) (model s)
           (Some (systemPrompt s)) now now in
  loadChats (setCurrentChat (Some chat) s, db).

Definition saveChat (now : Z) (w : World) : World :=
  let '(s, db) := w in
  match currentChat s with
  | None => w
  | Some currentChat =>
      if (length (chatMessages currentChat) =? 0)%nat then w
      else
        let updatedChat :=
          mkChat (chatId currentChat) (chatTitle currentChat)
                 (chatMessages currentChat) (provider s) (model s)
                 (Some (systemPrompt s)) (chatCreatedAt currentChat) now in
        let db := <[chatId currentChat := updatedChat]> db in
        loadChats (setCurrentChat (Some updatedChat) s, db)
  end.

Definition addMessage (now : Z) (role : Role) (content : string)
           (s : State) : State :=
  match currentChat s with
  | None => s
  | Some currentChat =>
      let newMessage := mkMessage role content now in
      let updatedChat :=
        mkChat (chatId currentChat) (chatTitle currentChat)
               (chatMessages currentChat ++ [newMessage])
               (chatProvider currentChat) (chatModel currentChat)
               (chatSystemPrompt currentChat) (chatCreatedAt currentChat)
               now in
      setCurrentChat (Some updatedChat) s
  end.

Definition updateLastMessage (content : string) (now : Z) (s : State)
  : State :=
  setCurrentChat (ChatStore.updateLastMessage content now (currentChat s)) s.

Definition deleteChat (id : string) (w : World) : World :=
  let '(s, db) := w in
  let db := delete id db in
  let s :=
    match currentChat s with
    | Some c => if String.eqb (chatId c) id then setCurrentChat None s else s
    | None => s
    end in
  loadChats (s, db).

Definition deleteChats (chatIds : list string) (w : World) : World :=
  let '(s, db) := w in
  let db := fold_left (fun db chatId => delete chatId db) chatIds db in
  let s :=
    match currentChat s with
    | Some c =>
        if existsb (String.eqb (chatId c)) chatIds
        then setCurrentChat None s else s
    | None => s
    end in
  loadChats (s, db).

(** ** [handleSend] of [ChatMode] *)

(** The message array handed to [streamChat]. *)
Definition buildMessages (systemPrompt : string) (messages : list Message)
  : list LLMMessage :=
  (if negb (String.eqb systemPrompt EmptyString)
   then [mkLLM system systemPrompt] else [])
    ++ map (fun m => mkLLM (role m) (content m)) messages.

Definition notConfigured (provider : string) : string :=
  "Provider " +:+ provider +:+ " not configured".

(** [handleSend(content)].  [llmProvider] is the result of
    [createProvider] ([None] for [null]), its [streamChat] gives the
    chunks with their times of arrival; [t0], [t1] and [t2] are the times
    of [createChat], of [addMessage] and of [saveChat].  A stream that
    throws is outside the model. *)
Definition handleSend
           (llmProvider : option (list LLMMessage -> string -> Stream))
           (t0 t1 t2 : Z) (content : string) (w : World) : World :=
  let '(s, db) := w in
  if isLoading s then w
  else
    let w1 :=
      match currentChat s with
      | None => createChat t0 w
      | Some _ => w
      end in
    match currentChat (fst w1) with
    | None => w1
    | Some _ =>
        let s1 := addMessage t1 user content (fst w1) in
        let s1 := setError None (setLoading true s1) in
        match llmProvider with
        | None =>
            (setLoading false
               (setError (Some (notConfigured (provider s))) s1), snd w1)
        | Some streamChat =>
            match currentChat s1 with
            | None => (setLoading false s1, snd w1)
            | Some updatedChat =>
                let messages :=
                  buildMessages (systemPrompt s)
                                (chatMessages updatedChat) in
                let st :=
                  ChatStore.streamAnswer (currentChat s1)
                                         (streamChat messages (model s)) in
                let s2 := setCurrentChat (ChatStore.currentChat st) s1 in
                let w2 := saveChat t2 (s2, snd w1) in
                (setLoading false (fst w2), snd w2)
            end
        end
    end.

(** ** Vocabulary of the statements *)




(** The actions of the store and of the chat mode. *)
Inductive Action :=
| LoadChats
| LoadChat (chatId : string)
| CreateChat
| SaveChat
| AddMessage (role : Role) (content : string)
| UpdateLastMessage (content : string)
| DeleteChat (chatId : string)
| DeleteChats (chatIds : list string)
| HandleSend (llmProvider : option (list LLMMessage -> string -> Stream))
             (content : string) (t1 t2 : Z).

Definition act (now : Z) (a : Action) (w : World) : World :=
  match a with
  | LoadChats => loadChats w
  | LoadChat chatId => loadChat chatId w
  | CreateChat => createChat now w
  | SaveChat => saveChat now w
  | AddMessage role content => (addMessage now role content (fst w), snd w)
  | UpdateLastMessage content =>
      (updateLastMessage content now (fst w), snd w)
  | DeleteChat chatId => deleteChat chatId w
  | DeleteChats chatIds => deleteChats chatIds w
  | HandleSend llmProvider content t1 t2 =>
      handleSend llmProvider now t1 t2 content w
  end.

Definition run (l : list (Action * Z)) (w : World) : World :=
  fold_left (fun w a => act (snd a) (fst a) w) l w.

(** No stored chat is without messages. *)
Definition noEmptyChat (db : gmap string ChatData) : Prop :=
  forall id c, db !! id = Some c -> chatMessages c <> [].

End ChatMode.

(* ===================================================================== *)
(** * MemoryNode.tsx: loading and filling the vector store of a memory
      node *)
(* ===================================================================== *)

Module MemoryNode.

(** [storage.saveVectorStore(storeId, data)]. *)
Definition saveVectorStore (storeId : string) (data : VectorStoreData)
           (db : Storage) : Storage :=
  mkStorage (canvasSessions db) (<[storeId := data]> (vectorStores db)).

(** An uploaded file with what [parseFile] makes of it: its chunks, or
    the message of the error it throws. *)
Record File := mkFile {
  fileName : string;
  parsed : Result (list DocumentChunk)
}.

(** [chunk.metadata?.source]. *)
Definition metadataSource (chunk : DocumentChunk) : option string :=
  option_map snd
             (List.find (fun kv => String.eqb (fst kv) "source")
                        (chunkMetadata chunk)).

(** [set.add(x)] on a [Set] kept in insertion order. *)
Definition setAdd (x : string) (s : list string) : list string :=
  if existsb (String.eqb x) s then s else s ++ [x].

(** [new Set(xs)]. *)
Definition newSet (xs : list string) : list string :=
  fold_left (fun s x => setAdd x s) xs [].

(** The two refs of the component. *)
Record Refs := mkRefs {
  vectorStoreRef : option VectorStore.t;
  documentSourcesRef : list string
}.

(** The effect [loadVectorStore] that initialises the refs. *)
Definition loadVectorStore (id : string) (db : Storage) : Refs :=
  match getVectorStore id db with
  | Some storeData =>
      let uniqueSources :=
        newSet (List.filter
                  (fun s => negb (String.eqb s EmptyString))
                  (flat_map (fun doc => match metadataSource doc with
                                        | Some s => [s]
                                        | None => []
                                        end)
                            (default [] (documents storeData)))) in
      mkRefs (Some (VectorStore.create id (Some storeData))) uniqueSources
  | None => mkRefs (Some (VectorStore.create id None)) []
  end.

(** [allChunks] and [newDocumentSources] while the files are parsed. *)
Record Parsing := mkParsing {
  allChunks : list DocumentChunk;
  newDocumentSources : list string
}.

(** The body of [parsed.chunks.forEach(...)]. *)
Definition pushParsed (st : Parsing) (chunk : DocumentChunk) : Parsing :=
  mkParsing
    (allChunks st
       ++ [mkChunk (chunkId chunk) (chunkContent chunk) None
                   (chunkMetadata chunk)])
    (if truthy (metadataSource chunk)
     then setAdd (orElse (metadataSource chunk) EmptyString) (newDocumentSources st)
     else newDocumentSources st).

Definition errorChunk (name message : string) : DocumentChunk :=
  mkChunk (name +:+ "-error")
          ("Error parsing " +:+ name +:+ ": " +:+ message)
          None
          [("source", name); ("type", "error")].

(** The body of the loop that parses the files, with its [try/catch]. *)
Definition parseStep (st : Parsing) (file : File) : Parsing :=
  match parsed file with
  | Ok chunks => fold_left pushParsed chunks st
  | Throw message =>
      mkParsing (allChunks st ++ [errorChunk (fileName file) message])
                (setAdd (fileName file) (newDocumentSources st))
  end.

(** The body of the loop that generates the embeddings: a chunk whose
    embedding fails is left out. *)
Definition embedStep (generateEmbedding : string -> Result (list R))
           (chunksWithEmbeddings : list DocumentChunk)
           (chunk : DocumentChunk) : list DocumentChunk :=
  match generateEmbedding (chunkContent chunk) with
  | Ok embedding =>
      chunksWithEmbeddings
        ++ [mkChunk (chunkId chunk) (chunkContent chunk) (Some embedding)
                    (chunkMetadata chunk)]
  | Throw _ => chunksWithEmbeddings
  end.

Definition notAvailable (provider : string) : string :=
  "Embedding provider " +:+ provider +:+ " is not available".

(** What [handleFileUpload] leaves behind. *)
Record Upload := mkUpload {
  refs : Refs;
  storage : Storage;
  chunkCount : option Z;           (* [setChunkCount(finalChunkCount)] *)
  documentCount : option Z;        (* [setDocumentCount(...)] *)
  error : option string            (* [setError(...)] *)
}.

(** [handleFileUpload], from the check of the files to
    [storage.saveVectorStore] and the two counts; [embeddingService] is
    the result of [createEmbeddingProvider] ([None] for [null]),
    [provider] and [embeddingModel] are the provider chosen and its model
    from the settings.  The update of the node's data that follows is
    left out. *)
Definition handleFileUpload
           (id title provider : string) (embeddingModel : option string)
           (embeddingService : option (string -> Result (list R)))
           (now : Z) (files : list File) (r : Refs) (db : Storage)
  : Upload :=
  if (length files =? 0)%nat then mkUpload r db None None None
  else
    match embeddingService with
    | None => mkUpload r db None None (Some (notAvailable provider))
    | Some generateEmbedding =>
        let st := fold_left parseStep files (mkParsing [] []) in
        let documentSources :=
          fold_left (fun s source => setAdd source s)
                    (newDocumentSources st) (documentSourcesRef r) in
        let chunksWithEmbeddings :=
          fold_left (embedStep generateEmbedding) (allChunks st) [] in
        let vectorStore :=
          match vectorStoreRef r with
          | Some vs => vs
          | None => VectorStore.create id None
          end in
        let vectorStore :=
          VectorStore.addChunks chunksWithEmbeddings vectorStore in
        let finalChunkCount := VectorStore.getChunkCount vectorStore in
        let finalDocumentCount := Z.of_nat (length documentSources) in
        let storeData :=
          VectorStore.export (Some provider) embeddingModel now
                             vectorStore in
        let storeData :=
          mkStoreData (storeDataId storeData) title (documents storeData)
                      (Types.embeddingProvider storeData)
                      (Types.embeddingModel storeData)
                      (storeCreatedAt storeData) in
        mkUpload (mkRefs (Some vectorStore) documentSources)
                 (saveVectorStore id storeData db)
                 (Some finalChunkCount) (Some finalDocumentCount) None
    end.

(** ** Vocabulary of the statements *)

(** The chunks a file gives to [allChunks]. *)
Definition fileChunks (file : File) : list DocumentChunk :=
  match parsed file with
  | Ok chunks =>
      map (fun chunk => mkChunk (chunkId chunk) (chunkContent chunk) None
                                (chunkMetadata chunk)) chunks
  | Throw message => [errorChunk (fileName file) message]
  end.

(** A chunk with its embedding, when the embedding succeeds. *)
Definition embedded (generateEmbedding : string -> Result (list R))
           (chunk : DocumentChunk) : list DocumentChunk :=
  match generateEmbedding (chunkContent chunk) with
  | Ok embedding =>
      [mkChunk (chunkId chunk) (chunkContent chunk) (Some embedding)
               (chunkMetadata chunk)]
  | Throw _ => []
  end.

(** The store the chunks are added to. *)
Definition current (id : string) (r : Refs) : VectorStore.t :=
  match vectorStoreRef r with
  | Some vs => vs
  | None => VectorStore.create id None
  end.

End MemoryNode.

(* ===================================================================== *)
(** * ChatNode.tsx: keeping [attachedMemoryNodes] in step with the RAG
      edges *)
(* ===================================================================== *)

Module ChatNodeSync.
Import CanvasStore.

(** [{}] as node data. *)
Definition noData : NodeData := mkData None None None None None None None.

(** [(currentNode?.data as ChatNodeData) || {}]. *)
Definition currentData (currentNodes : list Node) (id : string) : NodeData :=
  match findNode currentNodes id with
  | Some currentNode => data currentNode
  | None => noData
  end.

(** [sourceNode?.type === 'memory'] for the source of an edge. *)
Definition sourceIsMemory (currentNodes : list Node) (e : Edge) : bool :=
  match findNode currentNodes (source e) with
  | Some sourceNode => isType (nodeType sourceNode) "memory"
  | None => false
  end.

Definition allIncomingEdges (currentEdges : list Edge) (id : string)
  : list Edge :=
  List.filter (fun e => String.eqb (target e) id) currentEdges.

(** The ids of the incoming edges that come from a memory node and are
    not marked as RAG edges. *)
Definition edgesToFix (currentEdges : list Edge) (currentNodes : list Node)
           (id : string) : list string :=
  map edgeId
      (List.filter (fun edge => sourceIsMemory currentNodes edge
                                && negb (isType (edgeType edge) "rag"))
                   (allIncomingEdges currentEdges id)).

(** [(e.type === 'rag') || (sourceNode?.type === 'memory' &&
    e.target === id)] on the incoming edges. *)
Definition ragEdges (currentEdges : list Edge) (currentNodes : list Node)
           (id : string) : list Edge :=
  List.filter (fun e => isType (edgeType e) "rag"
                        || (sourceIsMemory currentNodes e
                            && String.eqb (target e) id))
              (allIncomingEdges currentEdges id).

(** [ragEdges.map(e => e.source).filter(Boolean)]. *)
Definition memoryNodeIds (currentEdges : list Edge)
           (currentNodes : list Node) (id : string) : list string :=
  List.filter (fun s => negb (String.eqb s EmptyString))
              (map source (ragEdges currentEdges currentNodes id)).

Definition fixedEdges (toFix : list string) (currentEdges : list Edge)
  : list Edge :=
  map (fun edge => if existsb (fun f => String.eqb f (edgeId edge)) toFix
                   then mkEdge (edgeId edge) (source edge) (target edge)
                               (Some "rag")
                   else edge)
      currentEdges.

Definition includes (l : list string) (id : string) : bool :=
  existsb (String.eqb id) l.

Definition needsUpdate (memoryNodeIds currentAttachedInData : list string)
  : bool :=
  negb (length memoryNodeIds =? length currentAttachedInData)%nat
  || existsb (fun id => negb (includes currentAttachedInData id))
             memoryNodeIds
  || existsb (fun id => negb (includes memoryNodeIds id))
             currentAttachedInData.

Definition withAttached (currentData : NodeData) (ids : list string)
  : NodeUpdates :=
  mkUpdates None
            (Some (mkData (title currentData) (provider currentData)
                          (model currentData) (messages currentData)
                          (systemPrompt currentData) (Some ids)
                          (chunkCount currentData)))
            None.

(** The effect that runs when the edges change. *)
Definition syncAttachedMemoryNodes (now : Z) (id : string) (w : World)
  : World :=
  let currentState := fst w in
  let currentData := currentData (nodes currentState) id in
  let currentAttachedInData :=
    default [] (attachedMemoryNodes currentData) in
  let currentEdges := edges currentState in
  let currentNodes := nodes currentState in
  let toFix := edgesToFix currentEdges currentNodes id in
  let memoryNodeIds := memoryNodeIds currentEdges currentNodes id in
  let w :=
    if (0 <? length toFix)%nat
    then setEdges now (fixedEdges toFix currentEdges) w
    else w in
  if needsUpdate memoryNodeIds currentAttachedInData
  then updateNode now id (withAttached currentData memoryNodeIds) w
  else w.

(** The memory nodes [handleSend] queries, with its fallback when
    [attachedMemoryNodes] is empty. *)
Definition resolveAttachedMemoryNodes (now : Z) (id : string) (w : World)
  : list string * World :=
  let currentState := fst w in
  let currentData := currentData (nodes currentState) id in
  let attachedMemoryNodes :=
    default [] (Types.attachedMemoryNodes currentData) in
  if (length attachedMemoryNodes =? 0)%nat then
    let detectedMemoryNodes :=
      memoryNodeIds (edges currentState) (nodes currentState) id in
    if (0 <? length detectedMemoryNodes)%nat
    then (detectedMemoryNodes,
          updateNode now id (withAttached currentData detectedMemoryNodes)
                     w)
    else (attachedMemoryNodes, w)
  else (attachedMemoryNodes, w).

(** ** Vocabulary of the statements *)

(** The two lists have the same members. *)
Definition sameMembers (l1 l2 : list string) : Prop :=
  forall id, In id l1 <-> In id l2.

End ChatNodeSync.

(* ===================================================================== *)
(** * Concrete canvases the statements are tried on *)
(* ===================================================================== *)

Module Example.
Import ChatNode.

Definition origin : XY := mkXY 0 0.

Definition chatData (t : string) (msgs : list Message) : NodeData :=
  mkData (Some t) (Some "ollama") (Some "llama3") (Some msgs) None None None.

Definition u1 : Message := mkMessage user "What is a monad?" 10.
Definition a1 : Message := mkMessage assistant "A monoid of endofunctors." 11.
Definition u2 : Message := mkMessage user "And a functor?" 20.
Definition own : Message := mkMessage user "Summarise both." 30.

(** The receiver was created first, then D2, then D1; the edge from D1
    was drawn before the edge from D2. *)
Definition receiver : Node :=
  mkNode "chat-node-1" (Some "chat") origin (chatData "Merged Chat" []) None.
Definition donor2 : Node :=
  mkNode "chat-node-2" (Some "chat") origin (chatData "D2" [u2]) None.
Definition donor1 : Node :=
  mkNode "chat-node-3" (Some "chat") origin (chatData "D1" [u1; a1]) None.

Definition nodes : list Node := [receiver; donor2; donor1].

Definition edge1 : Edge :=
  mkEdge "edge-chat-node-3-chat-node-1" "chat-node-3" "chat-node-1"
         (Some "context").
Definition edge2 : Edge :=
  mkEdge "edge-chat-node-2-chat-node-1" "chat-node-2" "chat-node-1"
         (Some "context").

Definition edges : list Edge := [edge1; edge2].

(** Two deltas of one answer, as the providers yield them. *)
Definition stream2 : Stream :=
  [(mkStreamChunk "He" false, 41); (mkStreamChunk "llo" false, 42)].

Definition chat : ChatData :=
  mkChat "chat-1" "New Chat" [own] "ollama" "llama3" None 1 30.

(** A fresh canvas after its first node was added: the session
    [canvas-100] exists and holds that node. *)
Definition emptyStorage : Storage := mkStorage ∅ ∅.

Definition world1 : CanvasStore.World :=
  CanvasStore.addNode 100 receiver (CanvasStore.initialState, emptyStorage).

(** A canvas with a memory node next to two chat nodes. *)
Definition memoryNode : Node :=
  mkNode "memory-node-1" (Some "memory") origin
         (mkData (Some "Memory Node") None None None None None (Some 0))
         None.

(** The three chat nodes on a canvas with the memory node; D1 carries a
    system message of its own.  The edges in the order they were drawn: a
    RAG edge into the receiver, D1 -> D2, D1 -> receiver, receiver -> D2,
    D2 -> receiver. *)
Definition s1 : Message := mkMessage system "Answer briefly." 9.



Definition ragEdge : Edge :=
  mkEdge "edge-memory-node-1-chat-node-1" "memory-node-1" "chat-node-1"
         (Some "rag").


Definition world2 : CanvasStore.World :=
  CanvasStore.addNode 102 donor2
    (CanvasStore.addNode 101 memoryNode world1).

(** The same canvas with an edge from the memory node to the first chat
    node that is marked as a context edge. *)
Definition world3 : CanvasStore.World :=
  CanvasStore.setEdges
    103 [mkEdge "e1" "memory-node-1" "chat-node-1" (Some "context")]
    world2.

(** The canvas of [world2] with three edges: from the memory node to
    either chat node, and between the chat nodes. *)
Definition ragEdge2 : Edge :=
  mkEdge "edge-memory-node-1-chat-node-2" "memory-node-1" "chat-node-2"
         (Some "rag").

Definition world4 : CanvasStore.World :=
  CanvasStore.setEdges 104 [ragEdge; edge2; ragEdge2] world2.

(** A session stored before edge kinds were inferred: the first edge
    lacks its kind, the second one was written as a context edge. *)
Definition legacySession : CanvasSessionData :=
  mkSession "canvas-7" "Old Canvas"
    (mkCanvasState
       (map CanvasStore.toCanvasNode [receiver; memoryNode; donor2])
       [mkCanvasEdge "e1" "memory-node-1" "chat-node-1" None;
        mkCanvasEdge "e2" "memory-node-1" "chat-node-2" (Some "context");
        mkCanvasEdge "e3" "chat-node-2" "chat-node-1" (Some "context");
        mkCanvasEdge "e4" "chat-node-1" "memory-node-1" None]
       (mkViewport 0 0 1) 1)
    7 8.

Definition legacyStorage : Storage :=
  mkStorage {[ "canvas-7" := legacySession ]} ∅.

(** Two memory nodes whose chunks score 0.9, 0.4, 0.2 and 0.8, 0.3
    against the query [query]: the embedding [unit c] is the unit vector
    at cosine [c] to it. *)
Definition query : list R := [1%R; 0%R].

Definition unit (c : R) : list R := [c; sqrt (1 - c * c)]%R.

Definition doc (id : string) (c : R) : DocumentChunk :=
  mkChunk id ("text of " +:+ id) (Some (unit c)) [("source", "notes.txt")].

Definition storeData1 : VectorStoreData :=
  mkStoreData "memory-node-1" "Notes"
              (Some [doc "notes.txt-0" (9 / 10)%R;
                     doc "notes.txt-1" (4 / 10)%R;
                     doc "notes.txt-2" (2 / 10)%R])
              (Some "ollama") (Some "nomic-embed-text") 5.

Definition storeData2 : VectorStoreData :=
  mkStoreData "memory-node-2" "Papers"
              (Some [doc "paper.pdf-0" (8 / 10)%R;
                     doc "paper.pdf-1" (3 / 10)%R])
              (Some "ollama") (Some "nomic-embed-text") 6.

Definition ragStorage : Storage :=
  mkStorage ∅ (<["memory-node-1" := storeData1]>
                 (<["memory-node-2" := storeData2]> ∅)).

End Example.

(* ===================================================================== *)
(** * Properties *)
(* ===================================================================== *)

Section ChunkerFacts.
Import Chunker.

Lemma length_dropWhile_le {A} (p : A -> bool) (l : list A) :
  (length (dropWhile p l) <= length l)%nat.
Proof.
  induction l as [|x xs IH]; simpl; [lia|].
  destruct (p x); simpl; lia.
Qed.

Lemma length_trim_le (s : str) : (length (trim s) <= length s)%nat.
Proof.
  unfold trim, trimEnd, trimStart.
  rewrite length_rev.
  etransitivity; [apply length_dropWhile_le|].
  rewrite length_rev. apply length_dropWhile_le.
Qed.

Lemma length_slice_le {A} (l : list A) (s e : Z) :
  0 <= s -> 0 <= e -> Z.of_nat (length (slice l s e)) <= Z.max 0 (e - s).
Proof.
  intros Hs He. unfold slice, relIndex.
  rewrite length_firstn.
  destruct (Z.ltb_spec s 0); [lia|].
  destruct (Z.ltb_spec e 0); lia.
Qed.

Lemma while_mono text cs ov :
  forall n m st r, (n <= m)%nat ->
    while n text cs ov st = Some r -> while m text cs ov st = Some r.
Proof.
  induction n as [|n IH]; intros m st r Hle; simpl.
  - destruct (test text st) eqn:Ht; [discriminate|].
    intros H. destruct m; simpl; rewrite Ht; exact H.
  - destruct m as [|m]; [lia|]. simpl.
    destruct (test text st); [|auto].
    destruct (body text cs ov st); [|auto].
    apply IH. lia.
Qed.



Lemma validate_bounds chunkSize overlap :
  1 <= fst (validate chunkSize overlap)
  /\ 0 <= snd (validate chunkSize overlap) < fst (validate chunkSize overlap).
Proof.
  unfold validate; simpl.
  destruct (Z.leb_spec chunkSize 0); destruct (Z.ltb_spec overlap 0);
    match goal with |- context [?a >=? ?b] => destruct (Z.geb_spec a b) end;
    simpl; split; try lia;
    try (split; [apply Z.div_pos; lia | apply Z.div_lt_upper_bound; lia]).
Qed.

Lemma body_advances text cs ov st :
  1 <= cs -> 0 <= ov < cs ->
  start st < textLength text ->
  iterations st < MAX_CHUNKS * 2 ->
  start st < start (flowState (body text cs ov st)).
Proof.
  intros Hcs Hov Hlt Hit. unfold body.
  destruct (Z.gtb_spec (iterations st + 1) (MAX_CHUNKS * 2)); [lia|].
  set (e := Z.min (start st + cs) (textLength text)).
  assert (start st < e) by (unfold e; lia).
  destruct (Z.leb_spec (e - ov) (start st));
    match goal with |- context [?a >=? ?b] => destruct (Z.geb_spec a b) end;
    simpl; lia.
Qed.

Lemma body_inv text cs ov st :
  1 <= cs -> 0 <= ov < cs ->
  Inv cs st -> test text st = true ->
  match body text cs ov st with
  | Next st' => Inv cs st' /\ iterations st' = iterations st + 1
  | Break st' =>
      Forall (goodChunk cs) (chunks st')
      /\ Z.of_nat (length (chunks st')) <= MAX_CHUNKS
  end.
Proof.
  intros Hcs Hov [Hs Hi Hg Hl] Ht.
  unfold test in Ht. apply andb_true_iff in Ht as [Ht1 Ht2].
  apply Z.ltb_lt in Ht1, Ht2.
  unfold body.
  destruct (Z.gtb_spec (iterations st + 1) (MAX_CHUNKS * 2)) as [Hgt|Hle];
    [simpl; split; assumption|].
  set (e := Z.min (start st + cs) (textLength text)).
  assert (He : start st < e <= start st + cs) by (unfold e; lia).
  set (c := trim (slice text (start st) e)).
  assert (Hc : Z.of_nat (length c) <= cs).
  { unfold c. pose proof (length_trim_le (slice text (start st) e)).
    pose proof (length_slice_le text (start st) e). lia. }
  set (cks := if 0 <? Z.of_nat (length c) then chunks st ++ [c] else chunks st).
  assert (Hcks : Forall (goodChunk cs) cks
                 /\ Z.of_nat (length cks) <= MAX_CHUNKS).
  { unfold cks. destruct (Z.ltb_spec 0 (Z.of_nat (length c))).
    - split.
      + apply Forall_app; split; [assumption|].
        constructor; [split; assumption | constructor].
      + rewrite length_app; simpl. lia.
    - split; [assumption | lia]. }
  destruct Hcks as [Hg' Hl'].
  set (s' := if e - ov <=? start st then e else e - ov).
  assert (Hs' : start st < s').
  { unfold s'. destruct (Z.leb_spec (e - ov) (start st)); lia. }
  destruct (Z.geb_spec s' (textLength text)); simpl.
  - split; assumption.
  - split; [|reflexivity]. constructor; simpl; try assumption; lia.
Qed.

Lemma while_total text cs ov :
  1 <= cs -> 0 <= ov < cs ->
  forall n st,
    Inv cs st -> MAX_CHUNKS * 2 + 1 - iterations st <= Z.of_nat n ->
    exists st', while n text cs ov st = Some st'
      /\ Forall (goodChunk cs) (chunks st')
      /\ Z.of_nat (length (chunks st')) <= MAX_CHUNKS.
Proof.
  intros Hcs Hov. induction n as [|n IH]; intros st HI Hn.
  - destruct HI as [_ Hi _ _]. simpl in Hn. lia.
  - simpl. destruct (test text st) eqn:Ht.
    + pose proof (body_inv text cs ov st Hcs Hov HI Ht) as Hb.
      destruct (body text cs ov st) as [st'|st'].
      * destruct Hb as [HI' Hit]. apply IH; [assumption|]. lia.
      * exists st'. split; [reflexivity | exact Hb].
    + exists st. split; [reflexivity|]. destruct HI; split; assumption.
Qed.

(** C10: [chunkText] terminates on every text and every integer
    [chunkSize] and [overlap].  The parameters are validated first
    ([chunkSize <= 0] becomes 1000, [overlap < 0] becomes 0,
    [overlap >= chunkSize] becomes 20% of [chunkSize]), after which a run of
    the body that is not stopped by the iteration guard strictly increases
    [start]; every returned chunk is non-empty and not longer than the
    validated [chunkSize], and at most 10,000 chunks are returned. *)
Theorem chunkText_terminates_bounded (text : str) (chunkSize overlap : Z) :
  let cs := fst (validate chunkSize overlap) in
  let ov := snd (validate chunkSize overlap) in
  (cs = if chunkSize <=? 0 then 1000 else chunkSize)
  /\ (ov = if overlap <? 0 then 0
           else if overlap >=? cs then cs * 2 / 10 else overlap)
  /\ (1 <= cs /\ 0 <= ov < cs)
  /\ (forall st, start st < textLength text ->
        iterations st < MAX_CHUNKS * 2 ->
        start st < start (flowState (body text cs ov st)))
  /\ exists chunks,
       chunkText text chunkSize overlap = Some chunks
       /\ Forall (fun c => 0 < Z.of_nat (length c) <= cs) chunks
       /\ Z.of_nat (length chunks) <= 10000.
Proof.
  intros cs ov.
  pose proof (validate_bounds chunkSize overlap) as [Hcs Hov].
  fold cs ov in Hcs, Hov.
  split; [reflexivity|].
  split.
  { unfold ov, cs, validate; simpl.
    destruct (overlap <? 0) eqn:E; [|reflexivity].
    destruct (Z.leb_spec chunkSize 0);
      match goal with |- context [?a >=? ?b] => destruct (Z.geb_spec a b) end;
      lia. }
  split; [split; assumption|].
  split; [intros st; apply body_advances; assumption|].
  destruct (while_total text cs ov Hcs Hov fuel (mkLoop 0 [] 0))
    as (st' & Hw & Hg & Hl).
  { constructor; simpl; try (unfold MAX_CHUNKS; lia). constructor. }
  { unfold fuel. simpl iterations. rewrite Nat2Z.inj_succ, Z2Nat.id; unfold MAX_CHUNKS; lia. }
  exists (chunks st'). split; [|split; assumption].
  unfold chunkText.
  rewrite (surjective_pairing (validate chunkSize overlap)).
  fold cs ov. rewrite Hw. reflexivity.
Qed.




(** C1 as stated fails: on 2,400 letters the defaults give four chunks, the
    fourth being the 200 characters from offset 2200 on. *)
Lemma chunkText_2400_four :
  length text2400 = 2400%nat
  /\ chunkTextDefault text2400
     = Some [repeat 97%N 1000; repeat 97%N 1000;
             repeat 97%N 800; repeat 97%N 200]
  /\ ~ (exists c1 c2 c3, chunkTextDefault text2400 = Some [c1; c2; c3]).
Proof.
  assert (E : chunkTextDefault text2400
     = Some [repeat 97%N 1000; repeat 97%N 1000;
             repeat 97%N 800; repeat 97%N 200]) by (vm_compute; reflexivity).
  split; [reflexivity|]. split; [exact E|].
  intros (c1 & c2 & c3 & H). rewrite E in H. discriminate H.
Qed.


Lemma body_next text cs ov s cks it e s' it' :
  it' = it + 1 -> it' <= MAX_CHUNKS * 2 ->
  e = Z.min (s + cs) (textLength text) ->
  s' = (if e - ov <=? s then e else e - ov) ->
  s' < textLength text ->
  body text cs ov (mkLoop s cks it)
  = Next (mkLoop s' (keep (trim (slice text s e)) cks) it').
Proof.
  intros -> Hit -> -> Hs. unfold body; simpl.
  destruct (Z.gtb_spec (it + 1) (MAX_CHUNKS * 2)); [lia|].
  match goal with |- context [?a >=? ?b] => destruct (Z.geb_spec a b) end;
    [lia | reflexivity].
Qed.

Lemma body_break text cs ov s cks it e s' it' :
  it' = it + 1 -> it' <= MAX_CHUNKS * 2 ->
  e = Z.min (s + cs) (textLength text) ->
  s' = (if e - ov <=? s then e else e - ov) ->
  textLength text <= s' ->
  body text cs ov (mkLoop s cks it)
  = Break (mkLoop s' (keep (trim (slice text s e)) cks) it').
Proof.
  intros -> Hit -> -> Hs. unfold body; simpl.
  destruct (Z.gtb_spec (it + 1) (MAX_CHUNKS * 2)); [lia|].
  match goal with |- context [?a >=? ?b] => destruct (Z.geb_spec a b) end;
    [reflexivity | lia].
Qed.

Lemma while_next n text cs ov st st' :
  test text st = true -> body text cs ov st = Next st' ->
  while (S n) text cs ov st = while n text cs ov st'.
Proof. intros Ht Hb. simpl. rewrite Ht, Hb. reflexivity. Qed.

Lemma while_break n text cs ov st st' :
  test text st = true -> body text cs ov st = Break st' ->
  while (S n) text cs ov st = Some st'.
Proof. intros Ht Hb. simpl. rewrite Ht, Hb. reflexivity. Qed.

Lemma length_keep c cks :
  (length (keep c cks) <= S (length cks))%nat.
Proof.
  unfold keep. destruct (nonEmpty c); [rewrite length_app; simpl|]; lia.
Qed.

Lemma keep_filter c l :
  keep c (List.filter nonEmpty l) = List.filter nonEmpty (l ++ [c]).
Proof.
  unfold keep. rewrite List.filter_app. simpl.
  destruct (nonEmpty c); [reflexivity | rewrite app_nil_r; reflexivity].
Qed.

Lemma test_true text s cks it :
  s < textLength text -> Z.of_nat (length cks) < MAX_CHUNKS ->
  test text (mkLoop s cks it) = true.
Proof.
  intros H1 H2. unfold test; simpl.
  apply andb_true_iff; split; apply Z.ltb_lt; assumption.
Qed.

Lemma fuel_ge_4 : (4 <= fuel)%nat.
Proof. apply Nat.leb_le. vm_compute. reflexivity. Qed.

Lemma while_2400 text :
  textLength text = 2400 ->
  while 4 text 1000 200 (mkLoop 0 [] 0)
  = Some (mkLoop 2400 (List.filter nonEmpty (map trim (windows2400 text))) 4).
Proof.
  intros H.
  set (c1 := trim (slice text 0 1000)).
  set (c2 := trim (slice text 800 1800)).
  set (c3 := trim (slice text 1600 2400)).
  set (c4 := trim (slice text 2200 2400)).
  pose proof (length_keep c1 []) as L1.
  pose proof (length_keep c2 (keep c1 [])) as L2.
  pose proof (length_keep c3 (keep c2 (keep c1 []))) as L3.
  simpl in L1.
  rewrite (while_next _ _ _ _ _ (mkLoop 800 (keep c1 []) 1));
    [| apply test_true; rewrite ?H; simpl; unfold MAX_CHUNKS; lia
     | apply body_next with (e := 1000); rewrite ?H;
       first [reflexivity | unfold MAX_CHUNKS; lia] ].
  rewrite (while_next _ _ _ _ _ (mkLoop 1600 (keep c2 (keep c1 [])) 2));
    [| apply test_true; rewrite ?H; unfold MAX_CHUNKS; lia
     | apply body_next with (e := 1800); rewrite ?H;
       first [reflexivity | unfold MAX_CHUNKS; lia] ].
  rewrite (while_next _ _ _ _ _
             (mkLoop 2200 (keep c3 (keep c2 (keep c1 []))) 3));
    [| apply test_true; rewrite ?H; unfold MAX_CHUNKS; lia
     | apply body_next with (e := 2400); rewrite ?H;
       first [reflexivity | unfold MAX_CHUNKS; lia] ].
  rewrite (while_break _ _ _ _ _
             (mkLoop 2400 (keep c4 (keep c3 (keep c2 (keep c1 [])))) 4));
    [| apply test_true; rewrite ?H; unfold MAX_CHUNKS; lia
     | apply body_break with (e := 2400); rewrite ?H;
       first [reflexivity | unfold MAX_CHUNKS; lia] ].
  do 2 f_equal.
  change (keep c1 []) with (keep c1 (List.filter nonEmpty [])).
  rewrite !keep_filter. reflexivity.
Qed.

Lemma dropWhile_head {A} (p : A -> bool) (l : list A) :
  Forall (fun x => p x = false) l -> dropWhile p l = l.
Proof. intros H. destruct H as [|x l Hx]; simpl; [|rewrite Hx]; reflexivity. Qed.

Lemma trim_no_whitespace (s : str) :
  Forall (fun c => isWhiteSpace c = false) s -> trim s = s.
Proof.
  intros H. unfold trim, trimStart, trimEnd.
  rewrite (dropWhile_head _ s H).
  rewrite dropWhile_head; [apply rev_involutive|].
  apply Forall_rev; assumption.
Qed.

Lemma Forall_slice {A} (P : A -> Prop) (l : list A) s e :
  Forall P l -> Forall P (slice l s e).
Proof.
  intros H. unfold slice. apply Forall_take, Forall_drop; assumption.
Qed.

Lemma length_slice_in {A} (l : list A) (s e : Z) :
  0 <= s <= e -> e <= Z.of_nat (length l) ->
  Z.of_nat (length (slice l s e)) = e - s.
Proof.
  intros Hs He. unfold slice, relIndex.
  rewrite length_firstn, length_skipn.
  destruct (Z.ltb_spec s 0); [lia|].
  destruct (Z.ltb_spec e 0); lia.
Qed.

(** C1, as the code has it: on a text of exactly 2,400 characters the
    defaults cut the windows [0, 1000), [800, 1800), [1600, 2400) and
    [2200, 2400), and [chunkText] returns those of them that are non-empty
    once trimmed, in this order; on a text without whitespace these are
    four chunks of 1000, 1000, 800 and 200 characters, the second starting
    at offset 800 and the third at offset 1600. *)
Theorem chunkText_2400_windows (text : str) :
  length text = 2400%nat ->
  chunkTextDefault text
  = Some (List.filter nonEmpty (map trim (windows2400 text)))
  /\ (Forall (fun c => isWhiteSpace c = false) text ->
      chunkTextDefault text = Some (windows2400 text)
      /\ map (fun c => Z.of_nat (length c)) (windows2400 text)
         = [1000; 1000; 800; 200]).
Proof.
  intros Hlen.
  assert (H : textLength text = 2400) by (unfold textLength; lia).
  assert (E : chunkTextDefault text
              = Some (List.filter nonEmpty (map trim (windows2400 text)))).
  { unfold chunkTextDefault, chunkText.
    change (validate 1000 200) with (1000, 200). cbv beta iota.
    rewrite (while_mono text 1000 200 4 fuel _ _ (fuel_ge_4) (while_2400 text H)).
    reflexivity. }
  split; [exact E|].
  intros Hws.
  assert (L : map (fun c => Z.of_nat (length c)) (windows2400 text)
              = [1000; 1000; 800; 200]).
  { unfold windows2400; simpl.
    rewrite !length_slice_in by (unfold textLength in H; lia).
    reflexivity. }
  split; [|exact L].
  rewrite E. f_equal.
  unfold windows2400 in *. simpl map in *.
  rewrite !trim_no_whitespace by (apply Forall_slice; assumption).
  injection L as L1 L2 L3 L4.
  unfold nonEmpty. simpl. rewrite L1, L2, L3, L4. reflexivity.
Qed.

Lemma chunkText_2400_windows_witness :
  length text2400 = 2400%nat
  /\ chunkTextDefault text2400
     = Some (List.filter nonEmpty (map trim (windows2400 text2400))).
Proof.
  split; [reflexivity|].
  exact (proj1 (chunkText_2400_windows text2400 eq_refl)).
Defined.
Lemma chunkText_terminates_bounded_witness :
  exists chunks,
    chunkText [97; 32; 32; 98; 32; 99]%N 0 (-3) = Some chunks
    /\ Z.of_nat (length chunks) <= 10000.
Proof.
  destruct (chunkText_terminates_bounded [97; 32; 32; 98; 32; 99]%N 0 (-3))
    as (_ & _ & _ & _ & chunks & H & _ & Hl).
  exists chunks. split; assumption.
Defined.

End ChunkerFacts.

Section SortFacts.
Context {A : Type} (after : A -> A -> bool) (le : A -> A -> Prop).
Hypothesis le_trans : forall a b c, le a b -> le b c -> le a c.
Hypothesis after_true : forall a b, after a b = true -> le b a.
Hypothesis after_false : forall a b, after a b = false -> le a b.

Lemma insert_perm (a : A) (l : list A) :
  Permutation (insert after a l) (a :: l).
Proof using Type.
  induction l as [|b l IH]; simpl; [reflexivity|].
  destruct (after a b); [|reflexivity].
  rewrite IH. apply perm_swap.
Qed.

Lemma sort_perm (l : list A) : Permutation (sort after l) l.
Proof using Type.
  induction l as [|a l IH]; simpl; [reflexivity|].
  rewrite insert_perm. constructor. exact IH.
Qed.

Lemma sort_length (l : list A) : length (sort after l) = length l.
Proof using Type. apply Permutation_length, sort_perm. Qed.

Lemma insert_sorted (a : A) (l : list A) :
  StronglySorted le l -> StronglySorted le (insert after a l).
Proof using le_trans after_true after_false.
  induction 1 as [|b l Hs IH Hb]; simpl.
  - repeat constructor.
  - destruct (after a b) eqn:E.
    + constructor; [exact IH|].
      eapply Permutation_Forall; [symmetry; apply insert_perm|].
      constructor; [apply after_true; exact E | exact Hb].
    + pose proof (after_false _ _ E) as Hab.
      constructor; [constructor; assumption|].
      constructor; [exact Hab|].
      eapply List.Forall_impl; [|exact Hb].
      intros c Hc. eapply le_trans; eassumption.
Qed.

Lemma sort_sorted (l : list A) : StronglySorted le (sort after l).
Proof using le_trans after_true after_false.
  induction l as [|a l IH]; simpl; [constructor|].
  apply insert_sorted; exact IH.
Qed.
End SortFacts.

Lemma StronglySorted_firstn {A} (le : A -> A -> Prop) (n : nat) (l : list A) :
  StronglySorted le l -> StronglySorted le (firstn n l).
Proof.
  intros H. revert n. induction H as [|a l Hs IH Ha]; intros [|n]; simpl;
    try constructor.
  - apply IH.
  - apply Forall_take. exact Ha.
Qed.

Lemma StronglySorted_map {A B} (f : A -> B) (le : B -> B -> Prop) (l : list A) :
  StronglySorted (fun a b => le (f a) (f b)) l -> StronglySorted le (map f l).
Proof.
  induction 1 as [|a l Hs IH Ha]; simpl; constructor; [exact IH|].
  apply Forall_map. exact Ha.
Qed.

Lemma slice_from_0 {A} (l : list A) (k : Z) :
  slice l 0 k = firstn (Z.to_nat (relIndex (Z.of_nat (length l)) k)) l.
Proof.
  unfold slice.
  replace (relIndex (Z.of_nat (length l)) 0) with 0
    by (unfold relIndex; simpl; lia).
  rewrite Z.sub_0_r. reflexivity.
Qed.

Lemma length_slice_from_0 {A} (l : list A) (k : Z) :
  Z.of_nat (length (slice l 0 k)) = relIndex (Z.of_nat (length l)) k.
Proof.
  rewrite slice_from_0, length_firstn. unfold relIndex.
  destruct (Z.ltb_spec k 0); lia.
Qed.

Section VectorStoreFacts.
Import VectorStore.

Lemma cosineStep_at (pa pb a' b' : list R) (u v : R) (acc : Acc) :
  length pa = length pb ->
  cosineStep (pa ++ u :: a') (pb ++ v :: b') acc (length pa)
  = mkAcc (dotProduct acc + u * v)%R
          (normA acc + u * u)%R
          (normB acc + v * v)%R.
Proof.
  intros Hp. unfold cosineStep.
  rewrite nth_middle. rewrite Hp. rewrite nth_middle. reflexivity.
Qed.

Lemma cosine_fold_from (a' : list R) :
  forall (b' pa pb : list R) (k : nat) (acc : Acc),
    k = length pa -> k = length pb -> length a' = length b' ->
    fold_left (cosineStep (pa ++ a') (pb ++ b')) (seq k (length a')) acc
    = mkAcc (dotProduct acc + dot a' b')%R
            (normA acc + dot a' a')%R
            (normB acc + dot b' b')%R.
Proof.
  induction a' as [|u a' IH]; intros [|v b'] pa pb k [d na nb] Hk Hp Hl;
    simpl in Hl; try discriminate.
  - simpl. f_equal; lra.
  - simpl seq. simpl fold_left. subst k.
    rewrite cosineStep_at by assumption.
    assert (E1 : pa ++ u :: a' = (pa ++ [u]) ++ a')
      by (rewrite <- app_assoc; reflexivity).
    assert (E2 : pb ++ v :: b' = (pb ++ [v]) ++ b')
      by (rewrite <- app_assoc; reflexivity).
    rewrite E1, E2.
    rewrite (IH b' (pa ++ [u]) (pb ++ [v]) (S (length pa))).
    + simpl. f_equal; lra.
    + rewrite length_app; simpl; lia.
    + rewrite length_app; simpl; lia.
    + lia.
Qed.

Lemma cosine_fold (a b : list R) :
  length a = length b ->
  fold_left (cosineStep a b) (seq 0 (length a)) (mkAcc 0 0 0)
  = mkAcc (dot a b) (dot a a) (dot b b).
Proof.
  intros H.
  pose proof (cosine_fold_from a b [] [] 0%nat (mkAcc 0 0 0)
                eq_refl eq_refl H) as E.
  simpl in E. rewrite E. f_equal; lra.
Qed.

Lemma cosine_throw (a b : list R) :
  length a <> length b -> cosineSimilarity a b = Throw lengthError.
Proof.
  intros H. unfold cosineSimilarity.
  destruct (Nat.eqb_spec (length a) (length b)); [contradiction|reflexivity].
Qed.

Lemma cosine_value (a b : list R) :
  length a = length b ->
  cosineSimilarity a b
  = if Req_dec_T (norm a * norm b) 0 then Ok 0%R
    else Ok (dot a b / (norm a * norm b))%R.
Proof.
  intros H. unfold cosineSimilarity.
  destruct (Nat.eqb_spec (length a) (length b)); [|contradiction].
  simpl negb. cbv iota. rewrite cosine_fold by assumption. reflexivity.
Qed.

(** C5: [cosineSimilarity] throws on vectors of different lengths; on
    vectors of one length it returns 0 when either norm is 0, and
    (Σ aᵢbᵢ) / (‖a‖·‖b‖) otherwise. *)
Theorem cosineSimilarity_spec (a b : list R) :
  (length a <> length b -> cosineSimilarity a b = Throw lengthError)
  /\ (length a = length b -> (norm a = 0 \/ norm b = 0)%R ->
      cosineSimilarity a b = Ok 0%R)
  /\ (length a = length b -> norm a <> 0%R -> norm b <> 0%R ->
      cosineSimilarity a b = Ok (dot a b / (norm a * norm b))%R).
Proof.
  split; [apply cosine_throw|]. split.
  - intros H Hz. rewrite cosine_value by assumption.
    destruct (Req_dec_T (norm a * norm b) 0) as [_|Hn]; [reflexivity|].
    exfalso. apply Hn. destruct Hz as [-> | ->]; lra.
  - intros H Ha Hb. rewrite cosine_value by assumption.
    destruct (Req_dec_T (norm a * norm b) 0) as [Hz|_]; [|reflexivity].
    exfalso. apply Rmult_integral in Hz. tauto.
Qed.


Lemma cosineSimilarity_spec_witness :
  cosineSimilarity [1%R] [1%R; 2%R] = Throw lengthError
  /\ cosineSimilarity [0%R] [1%R] = Ok 0%R
  /\ cosineSimilarity [1%R] [1%R]
     = Ok (dot [1%R] [1%R] / (norm [1%R] * norm [1%R]))%R.
Proof.
  assert (N1 : norm [1%R] = 1%R).
  { unfold norm; simpl. replace (1 * 1 + 0)%R with 1%R by lra. apply sqrt_1. }
  assert (N0 : norm [0%R] = 0%R).
  { unfold norm; simpl. replace (0 * 0 + 0)%R with 0%R by lra. apply sqrt_0. }
  destruct (cosineSimilarity_spec [1%R] [1%R; 2%R]) as (H1 & _ & _).
  destruct (cosineSimilarity_spec [0%R] [1%R]) as (_ & H2 & _).
  destruct (cosineSimilarity_spec [1%R] [1%R]) as (_ & _ & H3).
  split; [apply H1; simpl; lia|].
  split; [apply H2; [reflexivity | left; exact N0]|].
  apply H3; [reflexivity | rewrite N1; lra | rewrite N1; lra].
Defined.

(** *** [search] *)

Lemma byScore_true a b : byScore a b = true -> (score a <= score b)%R.
Proof.
  unfold byScore, positive.
  destruct (Rlt_dec 0 (score b - score a)); [lra|discriminate].
Qed.

Lemma byScore_false a b : byScore a b = false -> (score b <= score a)%R.
Proof.
  unfold byScore, positive.
  destruct (Rlt_dec 0 (score b - score a)); [discriminate|lra].
Qed.

Lemma sort_byScore_sorted (l : list VectorSearchResult) :
  nonIncreasing (map score (sort byScore l)).
Proof.
  apply StronglySorted_map.
  apply (sort_sorted byScore (fun a b => (score b <= score a)%R)).
  - intros a b c H1 H2. lra.
  - apply byScore_true.
  - apply byScore_false.
Qed.

Lemma searchLoop_ok (q : list R) (cs : list DocumentChunk) :
  forall results rs,
    searchLoop q cs results = Ok rs ->
    exists new, rs = results ++ new
      /\ map chunk new = List.filter hasEmbedding cs
      /\ Forall (scored q) new.
Proof.
  induction cs as [|c cs IH]; intros results rs H; simpl in H.
  - injection H as <-. exists []. rewrite app_nil_r. repeat split. constructor.
  - simpl List.filter. unfold hasEmbedding at 1.
    destruct (embedding c) as [[|e0 e']|] eqn:E.
    + apply IH; exact H.
    + destruct (cosineSimilarity q (e0 :: e')) as [s|m] eqn:Ec;
        simpl in H; [|discriminate].
      destruct (IH _ _ H) as (new & -> & Hm & Hs).
      exists (mkResult c s :: new). rewrite <- app_assoc. simpl.
      split; [reflexivity|]. split; [rewrite Hm; reflexivity|].
      constructor; [|exact Hs].
      exists (e0 :: e'). simpl. repeat split; [exact E | discriminate | exact Ec].
    + apply IH; exact H.
Qed.

Lemma searchLoop_total (q : list R) (cs : list DocumentChunk) :
  (forall c e, In c cs -> embedding c = Some e -> e <> [] ->
               length e = length q) ->
  forall results, exists rs, searchLoop q cs results = Ok rs.
Proof.
  induction cs as [|c cs IH]; intros Hd results; simpl.
  - eexists; reflexivity.
  - assert (Hd' : forall c' e, In c' cs -> embedding c' = Some e -> e <> [] ->
                               length e = length q)
      by (intros c' e Hin; apply Hd; right; exact Hin).
    destruct (embedding c) as [[|e0 e']|] eqn:E; try (apply IH; exact Hd').
    assert (Hl : length q = length (e0 :: e')).
    { symmetry. apply (Hd c); [left; reflexivity | exact E | discriminate]. }
    rewrite (cosine_value q (e0 :: e') Hl).
    destruct (Req_dec_T _ _); simpl; apply IH; exact Hd'.
Qed.

Lemma searchLoop_throw (q : list R) (cs : list DocumentChunk) :
  (exists c e, In c cs /\ embedding c = Some e /\ e <> []
               /\ length e <> length q) ->
  forall results, searchLoop q cs results = Throw lengthError.
Proof.
  induction cs as [|c cs IH]; intros (c0 & e & Hin & He & Hne & Hl) results.
  - destruct Hin.
  - simpl. destruct (Nat.eq_dec (length q)
                       (length (default [] (embedding c)))) as [Heq|Hneq].
    + destruct Hin as [<- | Hin].
      { rewrite He in Heq. simpl in Heq. congruence. }
      assert (Hex : exists c e, In c cs /\ embedding c = Some e /\ e <> []
                                /\ length e <> length q) by eauto 6.
      destruct (embedding c) as [[|e0 e']|]; try (apply IH; exact Hex).
      simpl in Heq. rewrite (cosine_value q (e0 :: e') Heq).
      destruct (Req_dec_T _ _); simpl; apply IH; exact Hex.
    + destruct (embedding c) as [[|e0 e']|] eqn:E; simpl in Hneq.
      * destruct Hin as [<- | Hin]; [congruence|]. apply IH; eauto 6.
      * rewrite (cosine_throw q (e0 :: e') Hneq). reflexivity.
      * destruct Hin as [<- | Hin]; [congruence|]. apply IH; eauto 6.
Qed.

Lemma search_length (vs : t) (q : list R) (topK : Z) rs :
  search vs q topK = Ok rs ->
  Z.of_nat (length rs)
  = relIndex (Z.of_nat (length (embedded vs))) topK.
Proof.
  unfold search, embedded.
  destruct (Nat.eqb_spec (length (chunks vs)) 0) as [E|_].
  - intros H; injection H as <-.
    destruct (chunks vs); [|discriminate]. simpl.
    unfold relIndex. destruct (Z.ltb_spec topK 0); lia.
  - destruct (searchLoop q (chunks vs) []) as [res|m] eqn:El;
      simpl; [|discriminate].
    intros H; injection H as <-.
    destruct (searchLoop_ok _ _ _ _ El) as (new & -> & Hm & _).
    simpl. rewrite length_slice_from_0, sort_length.
    rewrite <- Hm, length_map. reflexivity.
Qed.


Lemma search_total (vs : t) (q : list R) (topK : Z) :
  sameDimension vs q -> exists rs, search vs q topK = Ok rs.
Proof.
  intros Hd. unfold search.
  destruct (length (chunks vs) =? 0)%nat; [eexists; reflexivity|].
  destruct (searchLoop_total q (chunks vs) Hd []) as [rs ->].
  simpl. eexists; reflexivity.
Qed.

Lemma search_throw (vs : t) (q : list R) (topK : Z) :
  dimensionMismatch vs q -> search vs q topK = Throw lengthError.
Proof.
  intros Hm. unfold search.
  destruct (Nat.eqb_spec (length (chunks vs)) 0) as [E|_].
  - destruct Hm as (c & e & Hin & _).
    destruct (chunks vs); [destruct Hin | discriminate].
  - rewrite (searchLoop_throw q (chunks vs) Hm). reflexivity.
Qed.

Lemma search_results (vs : t) (q : list R) (topK : Z) rs :
  search vs q topK = Ok rs ->
  nonIncreasing (map score rs)
  /\ Forall (fun r => In (chunk r) (embedded vs) /\ scored q r) rs.
Proof.
  unfold search, embedded.
  destruct (length (chunks vs) =? 0)%nat.
  - intros H; injection H as <-. split; constructor.
  - destruct (searchLoop q (chunks vs) []) as [res|m] eqn:El;
      simpl; [|discriminate].
    intros H; injection H as <-.
    destruct (searchLoop_ok _ _ _ _ El) as (new & -> & Hm & Hs).
    simpl. rewrite slice_from_0. split.
    + rewrite <- firstn_map. apply StronglySorted_firstn.
      apply sort_byScore_sorted.
    + apply Forall_take.
      eapply Permutation_Forall; [symmetry; apply sort_perm|].
      rewrite !List.Forall_forall in *. intros r Hr.
      split; [|apply Hs; exact Hr].
      rewrite <- Hm. apply in_map; exact Hr.
Qed.

Lemma embedded_nil_sameDimension (vs : t) (q : list R) :
  embedded vs = [] -> sameDimension vs q.
Proof.
  intros He c e Hin Hc Hne. exfalso.
  assert (Hf : In c (embedded vs)).
  { unfold embedded. apply filter_In. split; [exact Hin|].
    unfold hasEmbedding. rewrite Hc. destruct e; [contradiction|reflexivity]. }
  rewrite He in Hf. destruct Hf.
Qed.

(** C3: for a number of results [topK >= 0], a search that meets no
    dimension mismatch returns exactly [min n topK] results, so at most
    that many, none of them from a chunk without embedding, with
    non-increasing scores; it returns the empty sequence when no chunk has
    an embedding; and it throws on a dimension mismatch. *)
Theorem search_topK (vs : t) (q : list R) (topK : Z) :
  0 <= topK ->
  let n := Z.of_nat (length (embedded vs)) in
  (sameDimension vs q -> exists rs, search vs q topK = Ok rs)
  /\ (dimensionMismatch vs q -> search vs q topK = Throw lengthError)
  /\ (forall rs, search vs q topK = Ok rs ->
        Z.of_nat (length rs) = Z.min n topK
        /\ nonIncreasing (map score rs)
        /\ Forall (fun r => In (chunk r) (embedded vs) /\ scored q r) rs)
  /\ (n = 0 -> search vs q topK = Ok []).
Proof.
  intros Hk n.
  split; [apply search_total|]. split; [apply search_throw|].
  assert (Hlen : forall rs, search vs q topK = Ok rs ->
                            Z.of_nat (length rs) = Z.min n topK).
  { intros rs H. rewrite (search_length _ _ _ _ H). fold n.
    unfold relIndex. destruct (Z.ltb_spec topK 0); lia. }
  split.
  - intros rs H. split; [apply Hlen; exact H|].
    apply search_results with (topK := topK); exact H.
  - intros Hn.
    assert (He : embedded vs = []).
    { destruct (embedded vs); [reflexivity | subst n; simpl in Hn; lia]. }
    destruct (search_total vs q topK (embedded_nil_sameDimension vs q He))
      as [rs H].
    rewrite H. f_equal. specialize (Hlen rs H).
    destruct rs; [reflexivity | simpl in Hlen; lia].
Qed.

Lemma twoChunks_sameDimension : sameDimension twoChunks [1%R].
Proof.
  intros c e Hin He _. simpl in Hin.
  destruct Hin as [<- | [<- | []]]; simpl in He; injection He as <-;
    reflexivity.
Qed.

Lemma search_topK_witness :
  0 <= 1
  /\ exists rs, search twoChunks [1%R] 1 = Ok rs
       /\ Z.of_nat (length rs) = Z.min 2 1
       /\ nonIncreasing (map score rs).
Proof.
  split; [lia|].
  destruct (search_topK twoChunks [1%R] 1 ltac:(lia)) as (Ht & _ & Hr & _).
  destruct (Ht twoChunks_sameDimension) as [rs H].
  exists rs. split; [exact H|].
  destruct (Hr rs H) as (Hl & Hs & _). split; assumption.
Defined.

End VectorStoreFacts.

Section TranscriptFacts.
Import ChatNode.

Lemma pushDonorMessages_spec (msgs : list Message) :
  forall llm,
    fold_left pushDonorMessage msgs llm
    = llm ++ map toLLM (List.filter forwarded msgs).
Proof.
  induction msgs as [|m msgs IH]; intros llm; simpl.
  - rewrite app_nil_r; reflexivity.
  - rewrite IH. unfold pushDonorMessage, forwarded.
    destruct (Role_eqb (role m) user || Role_eqb (role m) assistant); simpl.
    + rewrite <- app_assoc. reflexivity.
    + reflexivity.
Qed.

Lemma pushDonors_spec (donors : list Donor) :
  forall count index llm,
    count = index + Z.of_nat (length donors) ->
    pushDonors count index donors llm = llm ++ donorBlocks donors.
Proof.
  induction donors as [|d rest IH]; intros count index llm Hc.
  - simpl. rewrite app_nil_r; reflexivity.
  - cbn [pushDonors]. rewrite pushDonorMessages_spec.
    destruct rest as [|d' rest'].
    + simpl in Hc.
      destruct (Z.ltb_spec index (count - 1)) as [Hlt|_]; [lia|].
      simpl. rewrite <- app_assoc. reflexivity.
    + destruct (Z.ltb_spec index (count - 1)) as [_|Hge];
        [|simpl length in Hc; lia].
      rewrite IH by (simpl length in *; lia).
      cbn [donorBlocks]. unfold donorBlock.
      rewrite <- !app_assoc. reflexivity.
Qed.

Lemma pushOwn_spec (own : list Message) :
  forall llm,
    fold_left (fun acc m => acc ++ [mkLLM (role m) (content m)]) own llm
    = llm ++ map toLLM own.
Proof.
  induction own as [|m own IH]; intros llm; simpl.
  - rewrite app_nil_r; reflexivity.
  - rewrite IH, <- app_assoc. reflexivity.
Qed.

Lemma buildLLMMessages_spec sp donors rag own :
  buildLLMMessages sp donors rag own
  = systemPart sp ++ donorContext donors ++ ragPart rag ++ map toLLM own.
Proof.
  unfold buildLLMMessages. rewrite pushOwn_spec.
  unfold systemPart, ragPart, donorContext.
  destruct donors as [|d rest].
  - simpl. destruct (String.eqb sp EmptyString), (String.eqb rag EmptyString); reflexivity.
  - change (0 <? Z.of_nat (length (d :: rest))) with true. cbv iota.
    rewrite pushDonors_spec by lia.
    destruct (String.eqb sp EmptyString), (String.eqb rag EmptyString); simpl;
      rewrite <- ?app_assoc; reflexivity.
Qed.

Lemma donorSteps_spec nodes (es : list Edge) :
  forall acc,
    fold_left (donorStep nodes) es acc = acc ++ flat_map (donorOf nodes) es.
Proof.
  induction es as [|e es IH]; intros acc; simpl.
  - rewrite app_nil_r; reflexivity.
  - rewrite IH. unfold donorStep, donorOf.
    destruct (findNode nodes (source e)) as [n|]; [|reflexivity].
    destruct (isType (nodeType n) "chat"); simpl;
      [rewrite <- app_assoc|]; reflexivity.
Qed.

Lemma getContext_spec edges nodes id :
  getContextFromDonorNodes edges nodes id
  = flat_map (donorOf nodes) (incomingContextEdges edges id).
Proof. unfold getContextFromDonorNodes. apply donorSteps_spec. Qed.




Lemma isType_eq (ty : option string) (k : string) :
  isType ty k = true <-> ty = Some k.
Proof.
  unfold isType. destruct ty as [t|]; [|split; discriminate].
  rewrite String.eqb_eq. split; congruence.
Qed.

Lemma incomingContextEdges_In (edges : list Edge) (id : string) (e : Edge) :
  In e (incomingContextEdges edges id)
  <-> In e edges /\ target e = id /\ edgeType e = Some "context".
Proof.
  unfold incomingContextEdges.
  rewrite !filter_In, String.eqb_eq, isType_eq. tauto.
Qed.

Lemma incomingContextEdges_app (edges extra : list Edge) (id : string) :
  incomingContextEdges (edges ++ extra) id
  = incomingContextEdges edges id ++ incomingContextEdges extra id.
Proof. unfold incomingContextEdges. rewrite !List.filter_app. reflexivity. Qed.

Lemma donorOf_length (nodes : list Node) (e : Edge) :
  (length (donorOf nodes e) <= 1)%nat.
Proof.
  unfold donorOf. destruct (findNode nodes (source e)) as [n|]; [|simpl; lia].
  destruct (isType (nodeType n) "chat"); simpl; lia.
Qed.

Lemma flat_map_nil {A B} (f : A -> list B) (l : list A) :
  (forall a, In a l -> f a = []) -> flat_map f l = [].
Proof.
  intros H. induction l as [|a l IH]; [reflexivity|].
  simpl. rewrite (H a) by (left; reflexivity).
  apply IH. intros b Hb. apply H. right. exact Hb.
Qed.






End TranscriptFacts.

Section StreamingFacts.

Lemma deltas_cons (chunk : LLMStreamChunk) (now : Z) (rest : Stream) :
  deltas ((chunk, now) :: rest)
  = deltaText chunk +:+ (if done chunk then EmptyString else deltas rest).
Proof. unfold deltas. simpl. destruct (done chunk); reflexivity. Qed.

Lemma append_nil_l (s : string) : EmptyString +:+ s = s.
Proof. reflexivity. Qed.

Lemma append_cons (a : ascii) (s t : string) :
  String a s +:+ t = String a (s +:+ t).
Proof. reflexivity. Qed.

Lemma append_nil_r (s : string) : s +:+ EmptyString = s.
Proof.
  induction s as [|a s IH]; [reflexivity|].
  rewrite append_cons, IH. reflexivity.
Qed.

Lemma append_assoc (s t u : string) : (s +:+ t) +:+ u = s +:+ (t +:+ u).
Proof.
  induction s as [|a s IH]; [reflexivity|].
  rewrite !append_cons, IH. reflexivity.
Qed.

Lemma append_empty (s t : string) : s +:+ t = EmptyString -> s = EmptyString /\ t = EmptyString.
Proof.
  destruct s; [rewrite append_nil_l; auto | rewrite append_cons; discriminate].
Qed.

Lemma storedAnswer_snoc (l : list Message) (s : string) (now : Z) :
  ChatStore.storedAnswer (l ++ [mkMessage assistant s now]) = Some s.
Proof. unfold ChatStore.storedAnswer. rewrite rev_unit. reflexivity. Qed.

Lemma chatNode_streamLoop_spec (updated : list Message) (stream : Stream) :
  forall st,
    let st' := ChatNode.streamLoop updated st stream in
    ChatNode.fullContent st' = ChatNode.fullContent st +:+ deltas stream
    /\ (deltas stream = EmptyString -> st' = st)
    /\ (deltas stream <> EmptyString ->
        exists now,
          ChatNode.shown st'
          = updated ++ [mkMessage assistant (ChatNode.fullContent st') now]).
Proof.
  induction stream as [|[chunk now] rest IH]; intros st.
  - simpl. unfold deltas; simpl. rewrite append_nil_r.
    split; [reflexivity|]. split; [reflexivity | congruence].
  - cbn [ChatNode.streamLoop]. rewrite deltas_cons.
    destruct (String.eqb_spec (deltaText chunk) EmptyString) as [E|E].
    + rewrite E. simpl negb. cbv iota. rewrite append_nil_l.
      destruct (done chunk).
      * simpl. rewrite append_nil_r. repeat split; congruence.
      * apply IH.
    + simpl negb. cbv iota.
      set (st1 := ChatNode.mkStreaming _ _).
      destruct (done chunk).
      * simpl. rewrite append_nil_r.
        split; [reflexivity|]. split; [tauto|].
        intros _. exists now. reflexivity.
      * destruct (IH st1) as (Hf & Hz & Hn). cbv zeta in *.
        split; [rewrite Hf; simpl; rewrite append_assoc; reflexivity|].
        split; [intros H; apply append_empty in H; tauto|].
        intros _. destruct (string_dec (deltas rest) EmptyString) as [Hd|Hd].
        -- rewrite (Hz Hd). exists now. reflexivity.
        -- apply Hn; exact Hd.
Qed.

Lemma updateLastMessage_stored (content : string) (now : Z) (c : ChatData) :
  exists c',
    ChatStore.updateLastMessage content now (Some c) = Some c'
    /\ ChatStore.storedAnswer (chatMessages c') = Some content.
Proof.
  eexists. split; [reflexivity|]. simpl.
  unfold ChatStore.replaceLast.
  destruct (rev (chatMessages c)) as [|m before] eqn:E.
  - apply storedAnswer_snoc.
  - destruct (Role_eqb (role m) assistant) eqn:Er.
    + unfold ChatStore.storedAnswer. rewrite rev_unit. simpl.
      rewrite Er. reflexivity.
    + apply storedAnswer_snoc.
Qed.

Lemma chatMode_streamLoop_spec (stream : Stream) :
  forall st c,
    ChatStore.currentChat st = Some c ->
    let st' := ChatStore.streamLoop st stream in
    ChatStore.fullContent st' = ChatStore.fullContent st +:+ deltas stream
    /\ (deltas stream = EmptyString -> st' = st)
    /\ (deltas stream <> EmptyString ->
        exists c', ChatStore.currentChat st' = Some c'
          /\ ChatStore.storedAnswer (chatMessages c')
             = Some (ChatStore.fullContent st')).
Proof.
  induction stream as [|[chunk now] rest IH]; intros st c Hc.
  - simpl. unfold deltas; simpl. rewrite append_nil_r.
    split; [reflexivity|]. split; [reflexivity | congruence].
  - cbn [ChatStore.streamLoop]. rewrite deltas_cons.
    destruct (String.eqb_spec (deltaText chunk) EmptyString) as [E|E].
    + rewrite E. simpl negb. cbv iota. rewrite append_nil_l.
      destruct (done chunk).
      * simpl. rewrite append_nil_r. repeat split; congruence.
      * apply (IH st c Hc).
    + simpl negb. cbv iota. rewrite Hc.
      destruct (updateLastMessage_stored
                  (ChatStore.fullContent st +:+ deltaText chunk) now c)
        as (c1 & Hu & Hs).
      rewrite Hu.
      set (st1 := ChatStore.mkStreaming _ _).
      destruct (done chunk).
      * simpl. rewrite append_nil_r.
        split; [reflexivity|]. split; [tauto|].
        intros _. exists c1. split; [reflexivity | exact Hs].
      * destruct (IH st1 c1 eq_refl) as (Hf & Hz & Hn). cbv zeta in *.
        split; [rewrite Hf; simpl; rewrite append_assoc; reflexivity|].
        split; [intros H; apply append_empty in H; tauto|].
        intros _. destruct (string_dec (deltas rest) EmptyString) as [Hd|Hd].
        -- rewrite (Hz Hd). exists c1. split; [reflexivity | exact Hs].
        -- apply Hn; exact Hd.
Qed.

Lemma Role_eqb_assistant (r : Role) :
  Role_eqb r assistant = true <-> r = assistant.
Proof. destruct r; simpl; split; congruence. Qed.

(** A last message of role assistant is replaced, and keeps its time. *)
Lemma replaceLast_assistant (content : string) (now : Z)
      (before : list Message) (m : Message) :
  role m = assistant ->
  ChatStore.replaceLast content now (before ++ [m])
  = before ++ [mkMessage assistant content (timestamp m)].
Proof.
  intros Hr. unfold ChatStore.replaceLast. rewrite rev_unit, Hr.
  cbn [Role_eqb]. rewrite rev_involutive. reflexivity.
Qed.

(** Otherwise one assistant message is pushed. *)
Lemma replaceLast_push (content : string) (now : Z)
      (messages : list Message) :
  messages = []
  \/ (exists before m, messages = before ++ [m] /\ role m <> assistant) ->
  ChatStore.replaceLast content now messages
  = messages ++ [mkMessage assistant content now].
Proof.
  intros [->|(before & m & -> & Hr)]; [reflexivity|].
  unfold ChatStore.replaceLast. rewrite rev_unit.
  destruct (Role_eqb (role m) assistant) eqn:E; [|reflexivity].
  apply Role_eqb_assistant in E. contradiction.
Qed.

(** From a chat that ends with an assistant message on, the loop keeps
    rewriting that one message. *)
Lemma chatMode_streamLoop_last (stream : Stream) :
  forall st c before m,
    ChatStore.currentChat st = Some c ->
    chatMessages c = before ++ [m] -> role m = assistant ->
    deltas stream <> EmptyString ->
    exists c',
      ChatStore.currentChat (ChatStore.streamLoop st stream) = Some c'
      /\ chatMessages c'
         = before ++ [mkMessage assistant
                                (ChatStore.fullContent st +:+ deltas stream)
                                (timestamp m)].
Proof.
  induction stream as [|[chunk now] rest IH]; intros st c before m Hc Hm Hr Hd.
  - exfalso. apply Hd. reflexivity.
  - cbn [ChatStore.streamLoop]. rewrite deltas_cons in *.
    destruct (String.eqb_spec (deltaText chunk) EmptyString) as [E|E].
    + rewrite E in *. simpl negb. cbv iota. rewrite append_nil_l in *.
      destruct (done chunk); [exfalso; apply Hd; reflexivity|].
      apply (IH st c before m Hc Hm Hr Hd).
    + simpl negb. cbv iota. rewrite Hc. cbn [ChatStore.updateLastMessage].
      rewrite Hm, (replaceLast_assistant _ _ _ _ Hr).
      set (m1 := mkMessage assistant
                           (ChatStore.fullContent st +:+ deltaText chunk)
                           (timestamp m)).
      set (c1 := mkChat _ _ _ _ _ _ _ _).
      set (st1 := ChatStore.mkStreaming _ _).
      destruct (done chunk).
      * rewrite append_nil_r. exists c1. split; reflexivity.
      * destruct (string_dec (deltas rest) EmptyString) as [Hz|Hn].
        -- destruct (chatMode_streamLoop_spec rest st1 c1 eq_refl)
             as (_ & Hsame & _).
           cbv zeta in Hsame. rewrite (Hsame Hz), Hz, append_nil_r.
           exists c1. split; reflexivity.
        -- destruct (IH st1 c1 before m1 eq_refl eq_refl eq_refl Hn)
             as (c' & Hc' & Hm').
           exists c'. split; [exact Hc'|]. rewrite Hm'.
           subst st1. cbn [ChatStore.fullContent timestamp m1].
           rewrite append_assoc. reflexivity.
Qed.

(** From a chat that does not end with an assistant message on, the first
    delta with content pushes one, and the loop keeps rewriting it. *)
Lemma chatMode_streamLoop_first (stream : Stream) :
  forall st c,
    ChatStore.currentChat st = Some c ->
    chatMessages c = []
    \/ (exists before m, chatMessages c = before ++ [m]
                         /\ role m <> assistant) ->
    deltas stream <> EmptyString ->
    exists c' now,
      ChatStore.currentChat (ChatStore.streamLoop st stream) = Some c'
      /\ chatMessages c'
         = chatMessages c
           ++ [mkMessage assistant
                         (ChatStore.fullContent st +:+ deltas stream) now].
Proof.
  induction stream as [|[chunk now] rest IH]; intros st c Hc Hm Hd.
  - exfalso. apply Hd. reflexivity.
  - cbn [ChatStore.streamLoop]. rewrite deltas_cons in *.
    destruct (String.eqb_spec (deltaText chunk) EmptyString) as [E|E].
    + rewrite E in *. simpl negb. cbv iota. rewrite append_nil_l in *.
      destruct (done chunk); [exfalso; apply Hd; reflexivity|].
      apply (IH st c Hc Hm Hd).
    + simpl negb. cbv iota. rewrite Hc. cbn [ChatStore.updateLastMessage].
      rewrite (replaceLast_push _ _ _ Hm).
      set (m1 := mkMessage assistant
                           (ChatStore.fullContent st +:+ deltaText chunk)
                           now).
      set (c1 := mkChat _ _ _ _ _ _ _ _).
      set (st1 := ChatStore.mkStreaming _ _).
      destruct (done chunk).
      * rewrite append_nil_r. exists c1, now. split; reflexivity.
      * destruct (string_dec (deltas rest) EmptyString) as [Hz|Hn].
        -- destruct (chatMode_streamLoop_spec rest st1 c1 eq_refl)
             as (_ & Hsame & _).
           cbv zeta in Hsame. rewrite (Hsame Hz), Hz, append_nil_r.
           exists c1, now. split; reflexivity.
        -- destruct (chatMode_streamLoop_last
                       rest st1 c1 (chatMessages c) m1
                       eq_refl eq_refl eq_refl Hn)
             as (c' & Hc' & Hm').
           exists c', now. split; [exact Hc'|]. rewrite Hm'.
           subst st1. cbn [ChatStore.fullContent timestamp m1].
           rewrite append_assoc. reflexivity.
Qed.

(** C2, as the code has it: the caller concatenates the deltas into
    [fullContent], and after each delta the stored assistant message is
    replaced wholesale by that running total, in the canvas chat node as
    in the chat mode.  [updateLastMessage] stores the content it is
    given: it rewrites the last message when that is an assistant message
    (which keeps its place and its time) and pushes one assistant message
    otherwise, so that a whole stream leaves one assistant message behind
    however many deltas it had. *)
Theorem stored_answer_accumulates
        (updated : list Message) (chat : ChatData) (stream : Stream) :
  deltas stream <> EmptyString ->
  (exists now,
      ChatNode.shown (ChatNode.streamAnswer updated stream)
      = updated ++ [mkMessage assistant (deltas stream) now])
  /\ ChatStore.storedAnswer
       (ChatNode.shown (ChatNode.streamAnswer updated stream))
     = Some (deltas stream)
  /\ (exists c',
         ChatStore.currentChat (ChatStore.streamAnswer (Some chat) stream)
         = Some c'
         /\ ChatStore.storedAnswer (chatMessages c') = Some (deltas stream)
         /\ (forall before m,
               chatMessages chat = before ++ [m] -> role m = assistant ->
               chatMessages c'
               = before ++ [mkMessage assistant (deltas stream)
                                      (timestamp m)])
         /\ (chatMessages chat = []
             \/ (exists before m, chatMessages chat = before ++ [m]
                                  /\ role m <> assistant) ->
             exists now,
               chatMessages c'
               = chatMessages chat
                 ++ [mkMessage assistant (deltas stream) now]))
  /\ (forall content now,
         exists c',
           ChatStore.updateLastMessage content now (Some chat) = Some c'
           /\ ChatStore.storedAnswer (chatMessages c') = Some content
           /\ (forall before m,
                 chatMessages chat = before ++ [m] -> role m = assistant ->
                 chatMessages c'
                 = before ++ [mkMessage assistant content (timestamp m)])
           /\ (chatMessages chat = []
               \/ (exists before m, chatMessages chat = before ++ [m]
                                    /\ role m <> assistant) ->
               chatMessages c'
               = chatMessages chat ++ [mkMessage assistant content now])
           /\ chatId c' = chatId chat /\ chatTitle c' = chatTitle chat
           /\ chatCreatedAt c' = chatCreatedAt chat).
Proof.
  intros Hd.
  destruct (chatNode_streamLoop_spec
              updated stream (ChatNode.mkStreaming EmptyString updated))
    as (Hf & _ & Hn).
  cbv zeta in *. simpl in Hf. destruct (Hn Hd) as [now Hs].
  fold (ChatNode.streamAnswer updated stream) in *. rewrite Hf in Hs.
  split; [exists now; exact Hs|].
  split; [rewrite Hs; apply storedAnswer_snoc|].
  split.
  - destruct (chatMode_streamLoop_spec
                stream (ChatStore.mkStreaming EmptyString (Some chat)) chat eq_refl)
      as (Hf' & _ & Hn').
    cbv zeta in *. simpl in Hf'. destruct (Hn' Hd) as (c' & Hc & Hs').
    fold (ChatStore.streamAnswer (Some chat) stream) in *.
    rewrite Hf' in Hs'. exists c'. split; [exact Hc|].
    split; [exact Hs'|]. split.
    + intros before m Hm Hr.
      destruct (chatMode_streamLoop_last
                  stream (ChatStore.mkStreaming EmptyString (Some chat)) chat
                  before m eq_refl Hm Hr Hd) as (c2 & Hc2 & Hm2).
      fold (ChatStore.streamAnswer (Some chat) stream) in Hc2.
      rewrite Hc in Hc2. injection Hc2 as <-. exact Hm2.
    + intros Hm.
      destruct (chatMode_streamLoop_first
                  stream (ChatStore.mkStreaming EmptyString (Some chat)) chat
                  eq_refl Hm Hd) as (c2 & now' & Hc2 & Hm2).
      fold (ChatStore.streamAnswer (Some chat) stream) in Hc2.
      rewrite Hc in Hc2. injection Hc2 as <-. exists now'. exact Hm2.
  - intros content now'.
    destruct (updateLastMessage_stored content now' chat) as (c' & Hu & Hs').
    exists c'. split; [exact Hu|]. split; [exact Hs'|].
    cbn [ChatStore.updateLastMessage] in Hu. injection Hu as <-.
    cbn [chatMessages chatId chatTitle chatCreatedAt].
    split; [|split; [|auto]].
    + intros before m Hm Hr. rewrite Hm.
      apply replaceLast_assistant. exact Hr.
    + intros Hm. apply replaceLast_push. exact Hm.
Qed.

Lemma stored_answer_accumulates_witness :
  deltas Example.stream2 <> EmptyString
  /\ ChatStore.storedAnswer
       (ChatNode.shown (ChatNode.streamAnswer [Example.own] Example.stream2))
     = Some (deltas Example.stream2)
  /\ exists c' now,
      ChatStore.currentChat
        (ChatStore.streamAnswer (Some Example.chat) Example.stream2)
      = Some c'
      /\ chatMessages c'
         = [Example.own; mkMessage assistant (deltas Example.stream2) now].
Proof.
  assert (H : deltas Example.stream2 <> EmptyString) by discriminate.
  split; [exact H|].
  destruct (stored_answer_accumulates
              [Example.own] Example.chat Example.stream2 H)
    as (_ & Hshown & (c' & Hc & _ & _ & Hpush) & _).
  split; [exact Hshown|].
  destruct Hpush as [now Hm].
  { right. exists [], Example.own. split; [reflexivity | discriminate]. }
  exists c', now. split; [exact Hc | exact Hm].
Defined.

(** C2 as stated fails: after the second delta the stored content is the
    concatenation of both deltas, not the content of that delta. *)
Lemma stored_answer_is_not_last_delta :
  lastDelta Example.stream2 = "llo"
  /\ ChatStore.storedAnswer
       (ChatNode.shown (ChatNode.streamAnswer [Example.own] Example.stream2))
     = Some "Hello"
  /\ option_map
       (fun c => ChatStore.storedAnswer (chatMessages c))
       (ChatStore.currentChat
          (ChatStore.streamAnswer (Some Example.chat) Example.stream2))
     = Some (Some "Hello")
  /\ "Hello" <> lastDelta Example.stream2.
Proof. repeat split; discriminate. Qed.

End StreamingFacts.

Section CanvasStoreFacts.
Import CanvasStore.

Lemma saveCanvas_loading (now : Z) (s : State) (db : Storage) :
  isLoadingSession s = true -> saveCanvas now (s, db) = (s, db).
Proof. intros H. unfold saveCanvas. rewrite H. reflexivity. Qed.

Lemma saveCanvas_empty (now : Z) (s : State) (db : Storage) :
  nodes s = [] -> edges s = [] -> saveCanvas now (s, db) = (s, db).
Proof.
  intros Hn He. unfold saveCanvas. rewrite Hn, He. simpl.
  destruct (isLoadingSession s); reflexivity.
Qed.

(** [saveCanvas] writes the session list and the session id only. *)
Lemma saveCanvas_frame (now : Z) (w : World) :
  nodes (fst (saveCanvas now w)) = nodes (fst w)
  /\ edges (fst (saveCanvas now w)) = edges (fst w)
  /\ isLoadingSession (fst (saveCanvas now w)) = isLoadingSession (fst w).
Proof.
  destruct w as [s db]. unfold saveCanvas.
  destruct (isLoadingSession s) eqn:El; [simpl; auto|].
  destruct ((length (nodes s) =? 0)%nat && (length (edges s) =? 0)%nat);
    [simpl; auto|].
  destruct (negb (truthy (currentSessionId s))); simpl; auto.
Qed.

Lemma mutate_loading (now : Z) (m : Mutation) (w : World) :
  isLoadingSession (fst w) = true ->
  snd (mutate now m w) = snd w
  /\ isLoadingSession (fst (mutate now m w)) = true.
Proof.
  destruct w as [s db]. simpl. intros H.
  destruct m;
    unfold mutate, setNodes, setEdges, updateNode, deleteNode, deleteEdge,
      setViewport;
    rewrite saveCanvas_loading by exact H; simpl; auto.
Qed.

Lemma run_loading (ms : list (Mutation * Z)) :
  forall w, isLoadingSession (fst w) = true ->
    snd (run ms w) = snd w /\ isLoadingSession (fst (run ms w)) = true.
Proof.
  induction ms as [|[m now] ms IH]; intros w H; [simpl; auto|].
  unfold run in *. simpl.
  destruct (mutate_loading now m w H) as [Hdb Hl].
  destruct (IH _ Hl) as [Hdb' Hl']. split; [congruence | exact Hl'].
Qed.

Lemma loadSession_storage (id : string) (w : World) :
  snd (loadSession id w) = snd w.
Proof.
  destruct w as [s db]. unfold loadSession.
  destruct (getCanvasSession id db); reflexivity.
Qed.

Lemma loadSession_found (id : string) (s : State) (db : Storage) session :
  getCanvasSession id db = Some session ->
  isLoadingSession (fst (loadSession id (s, db))) = true
  /\ currentSessionId (fst (loadSession id (s, db))) = Some id
  /\ edges (fst (loadSession id (s, db)))
     = map (toFlowEdge (csNodes (sessionState session)))
           (csEdges (sessionState session)).
Proof. intros H. unfold loadSession. rewrite H. simpl. auto. Qed.

(** Outside the three skips [saveCanvas] does write: the record of the
    current session gets the canvas and the time of the save. *)
Lemma saveCanvas_writes (now : Z) (s : State) (db : Storage) (id : string) :
  isLoadingSession s = false ->
  nodes s <> [] ->
  currentSessionId s = Some id -> id <> EmptyString ->
  exists session,
    getCanvasSession id (snd (saveCanvas now (s, db))) = Some session
    /\ updatedAt session = now
    /\ sessionState session = snapshot s.
Proof.
  intros Hl Hn Hc Hid. unfold saveCanvas. rewrite Hl, Hc.
  destruct (nodes s) as [|n ns] eqn:En; [contradiction|].
  simpl length. simpl andb. cbv iota.
  simpl truthy. simpl orElse.
  destruct (String.eqb_spec id EmptyString); [contradiction|]. simpl negb. cbv iota.
  eexists. split; [|split].
  - unfold getCanvasSession, saveCanvasSession. simpl.
    apply lookup_insert_eq.
  - reflexivity.
  - unfold snapshot. rewrite En. reflexivity.
Qed.

Lemma loadSessionTimeout_resumes (now : Z) (w : World) (id : string) :
  nodes (fst w) <> [] ->
  currentSessionId (fst w) = Some id -> id <> EmptyString ->
  exists session,
    getCanvasSession id (snd (saveCanvas now (loadSessionTimeout w)))
    = Some session
    /\ updatedAt session = now.
Proof.
  destruct w as [s db]. simpl. intros Hn Hc Hid.
  destruct (saveCanvas_writes now (setLoading false s) db id eq_refl Hn Hc Hid)
    as (session & H1 & H2 & _).
  exists session. split; assumption.
Qed.

(** C8: while the store is loading a session, [saveCanvas] writes nothing
    and changes nothing, and so does every mutation that ends in a save;
    [loadSession] itself writes nothing and leaves the store loading, so
    the record of the restored session, its [updatedAt] included, stays
    as it was. *)
Theorem saves_suppressed_while_loading
        (now : Z) (s : State) (db : Storage) :
  isLoadingSession s = true ->
  saveCanvas now (s, db) = (s, db)
  /\ (forall ms,
        snd (run ms (s, db)) = db
        /\ isLoadingSession (fst (run ms (s, db))) = true)
  /\ (forall id s0 session,
        getCanvasSession id db = Some session ->
        let w := loadSession id (s0, db) in
        snd w = db
        /\ isLoadingSession (fst w) = true
        /\ saveCanvas now w = w
        /\ forall ms, getCanvasSession id (snd (run ms w)) = Some session).
Proof.
  intros H.
  split; [apply saveCanvas_loading; exact H|].
  split; [intros ms; apply (run_loading ms (s, db)); exact H|].
  intros id s0 session Hs w.
  pose proof (loadSession_storage id (s0, db)) as Hdb. fold w in Hdb.
  destruct (loadSession_found id s0 db session Hs) as (Hl & _). fold w in Hl.
  simpl in Hdb.
  split; [exact Hdb|]. split; [exact Hl|].
  split.
  - destruct w as [s1 db1]. apply saveCanvas_loading. exact Hl.
  - intros ms. destruct (run_loading ms w Hl) as [Hr _].
    rewrite Hr, Hdb. exact Hs.
Qed.

Lemma deleteNode_last (now : Z) (id : string) (s : State) (db : Storage) n :
  nodes s = [n] -> nodeId n = id ->
  (forall e, In e (edges s) -> source e = id \/ target e = id) ->
  let w := deleteNode now id (s, db) in
  nodes (fst w) = [] /\ edges (fst w) = [] /\ snd w = db.
Proof.
  intros Hn Hid He w.
  assert (En : List.filter (fun node => negb (String.eqb (nodeId node) id))
                           (nodes s) = []).
  { rewrite Hn. simpl. rewrite Hid, String.eqb_refl. reflexivity. }
  assert (Ee : List.filter
                 (fun edge => negb (String.eqb (source edge) id)
                              && negb (String.eqb (target edge) id))
                 (edges s) = []).
  { induction (edges s) as [|e es IH]; [reflexivity|]. simpl.
    destruct (He e (or_introl eq_refl)) as [-> | ->];
      rewrite String.eqb_refl; simpl; rewrite ?andb_false_r;
      apply IH; intros e' Hin; apply He; right; exact Hin. }
  subst w. unfold deleteNode. rewrite En, Ee.
  rewrite saveCanvas_empty by reflexivity. simpl. auto.
Qed.

(** C9: [saveCanvas] returns without writing when the canvas has no node
    and no edge; so the [deleteNode] that removes the last node writes
    nothing, and the stored session keeps the nodes and edges it had. *)
Theorem empty_canvas_is_never_saved (now : Z) (s : State) (db : Storage) :
  (nodes s = [] -> edges s = [] -> saveCanvas now (s, db) = (s, db))
  /\ (forall id n,
        nodes s = [n] -> nodeId n = id ->
        (forall e, In e (edges s) -> source e = id \/ target e = id) ->
        let w := deleteNode now id (s, db) in
        nodes (fst w) = [] /\ edges (fst w) = [] /\ snd w = db
        /\ forall sid, getCanvasSession sid (snd w) = getCanvasSession sid db).
Proof.
  split; [apply saveCanvas_empty|].
  intros id n Hn Hid He w.
  destruct (deleteNode_last now id s db n Hn Hid He) as (H1 & H2 & H3).
  fold w in H1, H2, H3. repeat split; try assumption.
  intros sid. rewrite H3. reflexivity.
Qed.


Lemma saves_suppressed_while_loading_witness :
  isLoadingSession (setLoading true (fst Example.world1)) = true
  /\ saveCanvas 300 (setLoading true (fst Example.world1),
                     snd Example.world1)
     = (setLoading true (fst Example.world1), snd Example.world1).
Proof.
  split; [reflexivity|].
  exact (proj1 (saves_suppressed_while_loading
                  300 (setLoading true (fst Example.world1))
                  (snd Example.world1) eq_refl)).
Defined.

Lemma empty_canvas_is_never_saved_witness :
  let w := deleteNode 200 "chat-node-1"
                      (fst Example.world1, snd Example.world1) in
  nodes (fst Example.world1) = [Example.receiver]
  /\ nodes (fst w) = []
  /\ snd w = snd Example.world1
  /\ option_map (fun x => map cnId (csNodes (sessionState x)))
                (getCanvasSession "canvas-100" (snd w))
     = Some ["chat-node-1"].
Proof.
  intros w.
  destruct (proj2 (empty_canvas_is_never_saved
                     200 (fst Example.world1) (snd Example.world1))
                  "chat-node-1" Example.receiver eq_refl eq_refl)
    as (H1 & _ & H3 & H4).
  { intros e []. }
  fold w in H1, H3, H4.
  split; [reflexivity|]. split; [exact H1|]. split; [exact H3|].
  rewrite H4. reflexivity.
Defined.

End CanvasStoreFacts.

Section EdgeKindFacts.
Import CanvasStore CanvasMode.

Lemma updateNode_edges now id updates (w : World) :
  edges (fst (updateNode now id updates w)) = edges (fst w).
Proof.
  destruct w as [s db]. unfold updateNode.
  destruct (saveCanvas_frame now
              (setNodesField
                 (map (fun node => if String.eqb (nodeId node) id
                                   then applyUpdates updates node else node)
                      (nodes s)) s, db)) as (_ & He & _).
  rewrite He. reflexivity.
Qed.

Lemma setEdges_edges now es (w : World) :
  edges (fst (setEdges now es w)) = es.
Proof.
  destruct w as [s db]. unfold setEdges.
  destruct (saveCanvas_frame now (setEdgesField es s, db)) as (_ & He & _).
  rewrite He. reflexivity.
Qed.

Lemma edgeTypeFor_rag (sourceNode targetNode : Node) :
  edgeTypeFor sourceNode targetNode = "rag"
  <-> nodeType sourceNode = Some "memory" /\ nodeType targetNode = Some "chat".
Proof.
  unfold edgeTypeFor. rewrite <- !isType_eq.
  destruct (isType (nodeType sourceNode) "memory"),
           (isType (nodeType targetNode) "chat"); simpl;
    split; try discriminate; try tauto; intros [? ?]; discriminate.
Qed.

Lemma edgeTypeFor_cases (sourceNode targetNode : Node) :
  edgeTypeFor sourceNode targetNode = "rag"
  \/ edgeTypeFor sourceNode targetNode = "context".
Proof.
  unfold edgeTypeFor.
  destruct (isType (nodeType sourceNode) "memory"
            && isType (nodeType targetNode) "chat"); auto.
Qed.

Lemma truthy_Some (t : string) : t <> EmptyString -> truthy (Some t) = true.
Proof.
  intros H. simpl. destruct (String.eqb_spec t EmptyString); [contradiction|reflexivity].
Qed.

Lemma orElse_Some (t d : string) : t <> EmptyString -> orElse (Some t) d = t.
Proof.
  intros H. simpl. destruct (String.eqb_spec t EmptyString); [contradiction|reflexivity].
Qed.

Lemma handleConnect_edge now (c : Connection) (w : World)
      src tgt sourceNode targetNode :
  connSource c = Some src -> connTarget c = Some tgt ->
  src <> EmptyString -> tgt <> EmptyString ->
  findNode (nodes (fst w)) src = Some sourceNode ->
  findNode (nodes (fst w)) tgt = Some targetNode ->
  exists e,
    edges (fst (handleConnect now c w)) = edges (fst w) ++ [e]
    /\ source e = src /\ target e = tgt
    /\ edgeType e = Some (edgeTypeFor sourceNode targetNode).
Proof.
  intros Hs Ht Hsn Htn Hfs Hft. unfold handleConnect.
  rewrite Hs, Ht, !truthy_Some, !orElse_Some by assumption.
  simpl negb. simpl orb. cbv iota. rewrite Hfs, Hft.
  exists (mkEdge ("edge-" +:+ src +:+ "-" +:+ tgt +:+ "-" +:+ showZ now)
                 src tgt (Some (edgeTypeFor sourceNode targetNode))).
  split; [|repeat split].
  destruct (String.eqb (edgeTypeFor sourceNode targetNode) "rag").
  - destruct (negb _).
    + rewrite updateNode_edges, setEdges_edges. reflexivity.
    + rewrite setEdges_edges. reflexivity.
  - rewrite setEdges_edges. reflexivity.
Qed.

Lemma memoryToChat_spec ns edge :
  memoryToChat ns edge = true <-> endpointsMemoryToChat ns edge.
Proof.
  unfold memoryToChat, endpointsMemoryToChat. split.
  - destruct (findCanvasNode ns (ceSource edge)) as [sn|]; [|discriminate].
    destruct (findCanvasNode ns (ceTarget edge)) as [tn|]; [|discriminate].
    intros H. apply andb_true_iff in H as [H1 H2].
    apply String.eqb_eq in H1, H2. eauto 6.
  - intros (sn & tn & -> & -> & -> & ->). reflexivity.
Qed.

Lemma stale_spec (edge : CanvasEdge) :
  negb (truthy (ceType edge)) || isType (ceType edge) "context" = true
  <-> kindMissing edge \/ ceType edge = Some "context".
Proof.
  unfold kindMissing. destruct (ceType edge) as [t|]; simpl.
  - destruct (String.eqb_spec t EmptyString); simpl.
    + subst. split; auto.
    + rewrite String.eqb_eq. split.
      * intros ->; auto.
      * intros [[H|H]|H]; congruence.
  - split; auto.
Qed.

(** What the claim says of one stored edge and its loaded counterpart. *)
Lemma toFlowEdge_spec ns (stored : CanvasEdge) :
  let loaded := toFlowEdge ns stored in
  let stale := kindMissing stored \/ ceType stored = Some "context" in
  edgeId loaded = ceId stored
  /\ source loaded = ceSource stored
  /\ target loaded = ceTarget stored
  /\ (stale /\ endpointsMemoryToChat ns stored ->
      edgeType loaded = Some "rag")
  /\ (~ (stale /\ endpointsMemoryToChat ns stored) ->
      edgeType loaded = Some (orElse (ceType stored) "context"))
  /\ (forall k, ceType stored = Some k -> k <> EmptyString -> k <> "context" ->
                edgeType loaded = Some k).
Proof.
  intros loaded stale. subst loaded stale. unfold toFlowEdge.
  rewrite <- stale_spec, <- memoryToChat_spec.
  destruct (negb (truthy (ceType stored)) || isType (ceType stored) "context")
    eqn:E1; destruct (memoryToChat ns stored) eqn:E2; simpl;
    repeat split; try reflexivity; try tauto;
    try (intros [? ?]; discriminate).
  all: intros k Hk Hne Hnc; rewrite Hk in *.
  all: try (rewrite orElse_Some by assumption; reflexivity).
  all: exfalso; simpl in E1;
    destruct (String.eqb_spec k EmptyString); [contradiction|]; simpl in E1;
    apply String.eqb_eq in E1; contradiction.
Qed.

(** C6, as the code has it: an edge drawn between two existing nodes is a
    RAG edge exactly when it runs from a memory node to a chat node, and a
    context edge otherwise; on load a stored edge without kind or of kind
    context whose endpoints are Memory -> Chat becomes a RAG edge; every
    other edge that has a kind keeps it, and every other edge without
    kind is loaded as a context edge. *)
Theorem edge_kind_inferred_and_reconciled :
  (forall now (c : Connection) (w : World) src tgt sourceNode targetNode,
      connSource c = Some src -> connTarget c = Some tgt ->
      src <> EmptyString -> tgt <> EmptyString ->
      findNode (nodes (fst w)) src = Some sourceNode ->
      findNode (nodes (fst w)) tgt = Some targetNode ->
      exists e,
        edges (fst (handleConnect now c w)) = edges (fst w) ++ [e]
        /\ source e = src /\ target e = tgt
        /\ (edgeType e = Some "rag" \/ edgeType e = Some "context")
        /\ (edgeType e = Some "rag"
            <-> nodeType sourceNode = Some "memory"
                /\ nodeType targetNode = Some "chat"))
  /\ (forall id (s : State) (db : Storage) session,
        getCanvasSession id db = Some session ->
        let ns := csNodes (sessionState session) in
        Forall2
          (fun stored loaded =>
             let stale :=
               kindMissing stored \/ ceType stored = Some "context" in
             edgeId loaded = ceId stored
             /\ source loaded = ceSource stored
             /\ target loaded = ceTarget stored
             /\ (stale /\ endpointsMemoryToChat ns stored ->
                 edgeType loaded = Some "rag")
             /\ (~ (stale /\ endpointsMemoryToChat ns stored) ->
                 edgeType loaded = Some (orElse (ceType stored) "context"))
             /\ (forall k, ceType stored = Some k -> k <> EmptyString ->
                           k <> "context" -> edgeType loaded = Some k))
          (csEdges (sessionState session))
          (edges (fst (loadSession id (s, db))))).
Proof.
  split.
  - intros now c w src tgt sn tn Hs Ht Hsn Htn Hfs Hft.
    destruct (handleConnect_edge now c w src tgt sn tn Hs Ht Hsn Htn Hfs Hft)
      as (e & He & H1 & H2 & H3).
    exists e. split; [exact He|]. split; [exact H1|]. split; [exact H2|].
    rewrite H3. split.
    + destruct (edgeTypeFor_cases sn tn) as [-> | ->]; auto.
    + split.
      * intros H. apply edgeTypeFor_rag. congruence.
      * intros H. f_equal. apply edgeTypeFor_rag. exact H.
  - intros id s db session Hs ns.
    destruct (loadSession_found id s db session Hs) as (_ & _ & ->).
    fold ns. induction (csEdges (sessionState session)) as [|e es IH];
      simpl; constructor; [apply toFlowEdge_spec | exact IH].
Qed.


Lemma edge_kind_inferred_and_reconciled_witness :
  (exists e,
      edges (fst (handleConnect
                    150 (mkConnection (Some "memory-node-1")
                                      (Some "chat-node-1"))
                    Example.world2))
      = edges (fst Example.world2) ++ [e]
      /\ edgeType e = Some "rag")
  /\ map edgeType
         (edges (fst (loadSession "canvas-7"
                                  (initialState, Example.legacyStorage))))
     = [Some "rag"; Some "rag"; Some "context"; Some "context"].
Proof.
  split; [|reflexivity].
  destruct (proj1 edge_kind_inferred_and_reconciled
                  150 (mkConnection (Some "memory-node-1")
                                    (Some "chat-node-1"))
                  Example.world2 "memory-node-1" "chat-node-1"
                  Example.memoryNode Example.receiver
                  eq_refl eq_refl ltac:(discriminate) ltac:(discriminate)
                  eq_refl eq_refl)
    as (e & He & _ & _ & _ & Hr).
  exists e. split; [exact He|]. apply Hr. split; reflexivity.
Defined.

(** C6 as stated fails for a stored edge without kind whose endpoints are
    not Memory -> Chat: it does not come back as it was stored, it is
    loaded as a context edge ([edge.type || 'context']). *)
Lemma missing_kind_loads_as_context :
  getCanvasSession "canvas-7" Example.legacyStorage
  = Some Example.legacySession
  /\ nth_error (csEdges (sessionState Example.legacySession)) 3
     = Some (mkCanvasEdge "e4" "chat-node-1" "memory-node-1" None)
  /\ ~ endpointsMemoryToChat
       (csNodes (sessionState Example.legacySession))
       (mkCanvasEdge "e4" "chat-node-1" "memory-node-1" None)
  /\ nth_error
       (edges (fst (loadSession "canvas-7"
                                (initialState, Example.legacyStorage)))) 3
     = Some (mkEdge "e4" "chat-node-1" "memory-node-1" (Some "context"))
  /\ Some "context"
     <> ceType (mkCanvasEdge "e4" "chat-node-1" "memory-node-1" None).
Proof.
  split; [reflexivity|]. split; [reflexivity|]. split.
  - intros (sn & tn & Hs & Ht & Hm & Hc).
    vm_compute in Hs. injection Hs as <-. discriminate Hm.
  - split; [reflexivity | discriminate].
Qed.

End EdgeKindFacts.

Section RagFacts.
Import ChatNode.

Lemma sort_map {A B} (f : A -> B) (after : A -> A -> bool)
      (after' : B -> B -> bool) (l : list A) :
  (forall a b, after a b = after' (f a) (f b)) ->
  map f (sort after l) = sort after' (map f l).
Proof.
  intros H. induction l as [|a l IH]; simpl; [reflexivity|].
  rewrite <- IH. generalize (sort after l) as s.
  induction s as [|b s IHs]; simpl; [reflexivity|].
  rewrite <- H. destruct (after a b); simpl; [rewrite IHs|]; reflexivity.
Qed.

Lemma pushResults_spec (sd : VectorStoreData) (id : string)
      (results : list VectorStore.VectorSearchResult) :
  forall acc,
    fold_left (fun acc result => acc ++ [toRag sd id result]) results acc
    = acc ++ map (toRag sd id) results.
Proof.
  induction results as [|r rs IH]; intros acc; simpl.
  - rewrite app_nil_r; reflexivity.
  - rewrite IH, <- app_assoc. reflexivity.
Qed.

Lemma queryStep_spec db q acc id :
  queryStep db q acc id = acc ++ perIndex db q id.
Proof.
  unfold queryStep, perIndex.
  destruct (getVectorStore id db) as [sd|]; [|rewrite app_nil_r; reflexivity].
  destruct (VectorStore.search _ q 3) as [rs|m];
    [apply pushResults_spec | rewrite app_nil_r; reflexivity].
Qed.

Lemma queryMemoryNodes_spec db q attached :
  queryMemoryNodes db q attached = flat_map (perIndex db q) attached.
Proof.
  unfold queryMemoryNodes.
  assert (H : forall acc,
             fold_left (queryStep db q) attached acc
             = acc ++ flat_map (perIndex db q) attached).
  { induction attached as [|id ids IH]; intros acc; simpl.
    - rewrite app_nil_r; reflexivity.
    - rewrite IH, queryStep_spec, <- app_assoc. reflexivity. }
  apply H.
Qed.

Lemma perIndex_top3 db q id :
  (length (perIndex db q id) <= 3)%nat.
Proof.
  unfold perIndex.
  destruct (getVectorStore id db) as [sd|]; [|simpl; lia].
  destruct (VectorStore.search _ q 3) as [rs|m] eqn:E; [|simpl; lia].
  rewrite length_map.
  pose proof (search_length _ _ _ _ E) as H. unfold relIndex in H.
  destruct (Z.ltb_spec 3 0); lia.
Qed.

Lemma byRagScore_true a b :
  byRagScore a b = true -> (ragScore a <= ragScore b)%R.
Proof.
  unfold byRagScore, positive.
  destruct (Rlt_dec 0 (ragScore b - ragScore a)); [lra|discriminate].
Qed.

Lemma byRagScore_false a b :
  byRagScore a b = false -> (ragScore b <= ragScore a)%R.
Proof.
  unfold byRagScore, positive.
  destruct (Rlt_dec 0 (ragScore b - ragScore a)); [discriminate|lra].
Qed.

Lemma sort_byRagScore_sorted (l : list RagResult) :
  StronglySorted (fun a b => (ragScore b <= ragScore a)%R)
                 (sort byRagScore l).
Proof.
  apply (sort_sorted byRagScore (fun a b => (ragScore b <= ragScore a)%R)).
  - intros a b c H1 H2. lra.
  - apply byRagScore_true.
  - apply byRagScore_false.
Qed.

Lemma StronglySorted_split {A} (le : A -> A -> Prop) (n : nat) (l : list A) :
  StronglySorted le l ->
  forall a b, In a (firstn n l) -> In b (skipn n l) -> le a b.
Proof.
  intros H. revert n. induction H as [|x l Hs IH Hx]; intros n a b Ha Hb.
  - rewrite firstn_nil in Ha. destruct Ha.
  - destruct n as [|n]; [destruct Ha|]. simpl in Ha, Hb.
    destruct Ha as [<- | Ha].
    + rewrite List.Forall_forall in Hx. apply Hx.
      rewrite <- (firstn_skipn n l). apply in_or_app. right. exact Hb.
    + apply (IH n); assumption.
Qed.

Lemma topResults_spec db q attached :
  topResults db q attached
  = firstn 5 (sort byRagScore (queryMemoryNodes db q attached)).
Proof.
  unfold topResults. rewrite slice_from_0.
  set (l := sort byRagScore (queryMemoryNodes db q attached)).
  unfold relIndex. destruct (Z.ltb_spec 5 0) as [?|_]; [lia|].
  destruct (Z.le_ge_cases 5 (Z.of_nat (length l))) as [H|H].
  - rewrite Z.min_l by exact H. reflexivity.
  - rewrite Z.min_r by exact H. rewrite Nat2Z.id.
    rewrite !firstn_all2 by lia. reflexivity.
Qed.


(** Deciding the comparisons of a sort of explicit scores. *)
Ltac decide_scores :=
  repeat (cbn [sort insert];
          unfold scoreAfter, VectorStore.byScore, positive;
          cbn [VectorStore.score];
          match goal with
          | |- context [Rlt_dec ?a ?b] =>
              destruct (Rlt_dec a b); try (exfalso; lra)
          end).

Lemma merge_example :
  sort scoreAfter [9 / 10; 4 / 10; 2 / 10; 8 / 10; 3 / 10]%R
  = [9 / 10; 8 / 10; 4 / 10; 3 / 10; 2 / 10]%R.
Proof.
  decide_scores. reflexivity.
Qed.

(** C4: every attached memory node is searched with [topK = 3] and the one
    query embedding; the per-index results are concatenated in the order
    of the attached nodes, sorted by descending score, and the first five
    are kept: they are the five best overall.  Two indices whose results
    score [0.9; 0.4; 0.2] and [0.8; 0.3] merge to
    [0.9; 0.8; 0.4; 0.3; 0.2]. *)
Theorem rag_results_merged (db : Storage) (q : list R)
        (attached : list string) :
  let all := queryMemoryNodes db q attached in
  let top := topResults db q attached in
  all = flat_map (perIndex db q) attached
  /\ Forall (fun id => (length (perIndex db q id) <= 3)%nat) attached
  /\ Z.of_nat (length top) = Z.min 5 (Z.of_nat (length all))
  /\ VectorStore.nonIncreasing (map ragScore top)
  /\ (exists rest,
        Permutation (top ++ rest) all
        /\ forall t r, In t top -> In r rest ->
                       (ragScore r <= ragScore t)%R)
  /\ (forall id1 id2 sd1 sd2 rs1 rs2,
        attached = [id1; id2] ->
        getVectorStore id1 db = Some sd1 ->
        getVectorStore id2 db = Some sd2 ->
        VectorStore.search (VectorStore.create id1 (Some sd1)) q 3 = Ok rs1 ->
        VectorStore.search (VectorStore.create id2 (Some sd2)) q 3 = Ok rs2 ->
        map VectorStore.score rs1 = [9 / 10; 4 / 10; 2 / 10]%R ->
        map VectorStore.score rs2 = [8 / 10; 3 / 10]%R ->
        map ragScore top = [9 / 10; 8 / 10; 4 / 10; 3 / 10; 2 / 10]%R).
Proof.
  intros all top. subst all top.
  split; [apply queryMemoryNodes_spec|].
  split; [apply List.Forall_forall; intros id _; apply perIndex_top3|].
  rewrite topResults_spec.
  set (all := queryMemoryNodes db q attached).
  split.
  { rewrite length_firstn, sort_length. lia. }
  split.
  { apply StronglySorted_map, StronglySorted_firstn.
    apply sort_byRagScore_sorted. }
  split.
  { exists (skipn 5 (sort byRagScore all)). split.
    - rewrite firstn_skipn. apply sort_perm.
    - intros t r Ht Hr.
      apply (StronglySorted_split _ 5 _ (sort_byRagScore_sorted all) t r);
        assumption. }
  intros id1 id2 sd1 sd2 rs1 rs2 Ha H1 H2 Hs1 Hs2 Hm1 Hm2.
  rewrite <- firstn_map.
  rewrite (sort_map ragScore byRagScore scoreAfter) by reflexivity.
  assert (E : map ragScore all
              = [9 / 10; 4 / 10; 2 / 10; 8 / 10; 3 / 10]%R).
  { unfold all. rewrite queryMemoryNodes_spec, Ha. simpl flat_map.
    unfold perIndex. rewrite H1, H2, Hs1, Hs2.
    rewrite app_nil_r, map_app, !map_map.
    change (fun x => ragScore (toRag sd1 id1 x)) with VectorStore.score.
    change (fun x => ragScore (toRag sd2 id2 x)) with VectorStore.score.
    rewrite Hm1, Hm2. reflexivity. }
  rewrite E, merge_example. reflexivity.
Qed.


Lemma cosine_unit (c : R) :
  (-1 <= c <= 1)%R ->
  VectorStore.cosineSimilarity Example.query (Example.unit c) = Ok c.
Proof.
  intros Hc. rewrite cosine_value by reflexivity.
  assert (Hs : (sqrt (1 - c * c) * sqrt (1 - c * c) = 1 - c * c)%R)
    by (apply sqrt_sqrt; nra).
  assert (Nq : VectorStore.norm Example.query = 1%R).
  { unfold VectorStore.norm, Example.query; simpl.
    replace (1 * 1 + (0 * 0 + 0))%R with 1%R by lra. apply sqrt_1. }
  assert (Nu : VectorStore.norm (Example.unit c) = 1%R).
  { unfold VectorStore.norm, Example.unit; simpl.
    replace (c * c + (sqrt (1 - c * c) * sqrt (1 - c * c) + 0))%R with 1%R
      by (rewrite Hs; lra).
    apply sqrt_1. }
  rewrite Nq, Nu.
  destruct (Req_dec_T (1 * 1) 0) as [H|_]; [lra|].
  f_equal. unfold Example.query, Example.unit; simpl. field.
Qed.

Lemma search_store1 :
  VectorStore.search
    (VectorStore.create "memory-node-1" (Some Example.storeData1))
    Example.query 3
  = Ok [VectorStore.mkResult (Example.doc "notes.txt-0" (9 / 10)) (9 / 10);
        VectorStore.mkResult (Example.doc "notes.txt-1" (4 / 10)) (4 / 10);
        VectorStore.mkResult (Example.doc "notes.txt-2" (2 / 10)) (2 / 10)]%R.
Proof.
  unfold VectorStore.search. simpl VectorStore.chunks.
  change (length _ =? 0)%nat with false. cbv iota.
  cbn [VectorStore.searchLoop Example.doc embedding Example.unit].
  fold (Example.unit (9 / 10)) (Example.unit (4 / 10))
       (Example.unit (2 / 10)).
  rewrite !cosine_unit by lra. cbn [bind app].
  decide_scores. reflexivity.
Qed.

Lemma search_store2 :
  VectorStore.search
    (VectorStore.create "memory-node-2" (Some Example.storeData2))
    Example.query 3
  = Ok [VectorStore.mkResult (Example.doc "paper.pdf-0" (8 / 10)) (8 / 10);
        VectorStore.mkResult (Example.doc "paper.pdf-1" (3 / 10)) (3 / 10)]%R.
Proof.
  unfold VectorStore.search. simpl VectorStore.chunks.
  change (length _ =? 0)%nat with false. cbv iota.
  cbn [VectorStore.searchLoop Example.doc embedding Example.unit].
  fold (Example.unit (8 / 10)) (Example.unit (3 / 10)).
  rewrite !cosine_unit by lra. cbn [bind app].
  decide_scores. reflexivity.
Qed.

Lemma rag_results_merged_witness :
  map ragScore
      (topResults Example.ragStorage Example.query
                  ["memory-node-1"; "memory-node-2"])
  = [9 / 10; 8 / 10; 4 / 10; 3 / 10; 2 / 10]%R.
Proof.
  destruct (rag_results_merged Example.ragStorage Example.query
                               ["memory-node-1"; "memory-node-2"])
    as (_ & _ & _ & _ & _ & H).
  exact (H "memory-node-1" "memory-node-2"
           Example.storeData1 Example.storeData2 _ _
           eq_refl eq_refl eq_refl search_store1 search_store2
           eq_refl eq_refl).
Defined.

End RagFacts.

Section VectorStoreUpdateFacts.
Import VectorStore.


Lemma mapSet_keyed c m : keyed m -> keyed (mapSet (chunkId c) c m).
Proof.
  unfold keyed. induction 1 as [|[k v] m Hk Hm IH]; simpl.
  - repeat constructor.
  - destruct (String.eqb k (chunkId c)); constructor; auto.
Qed.

Lemma mapSet_keys_in k v m k' :
  In k' (map fst (mapSet k v m)) <-> k' = k \/ In k' (map fst m).
Proof.
  induction m as [|[k0 v0] m IH]; simpl.
  - intuition.
  - destruct (String.eqb_spec k0 k); simpl; [subst|rewrite IH]; intuition.
Qed.

Lemma mapSet_keys_present k v m :
  In k (map fst m) -> map fst (mapSet k v m) = map fst m.
Proof.
  induction m as [|[k0 v0] m IH]; simpl; [tauto|].
  intros H. destruct (String.eqb_spec k0 k); simpl; [congruence|].
  f_equal. apply IH. destruct H; [contradiction|assumption].
Qed.

Lemma mapSet_app_fresh k v m m' :
  ~ In k (map fst m) -> mapSet k v (m ++ m') = m ++ mapSet k v m'.
Proof.
  induction m as [|[k0 v0] m IH]; simpl; [reflexivity|].
  intros H. destruct (String.eqb_spec k0 k); [tauto|].
  rewrite IH by tauto. reflexivity.
Qed.

Lemma mapSet_NoDup k v m :
  List.NoDup (map fst m) -> List.NoDup (map fst (mapSet k v m)).
Proof.
  induction m as [|[k0 v0] m IH]; simpl; intros H.
  - constructor; [intros []|constructor].
  - apply List.NoDup_cons_iff in H as [Hn Hd].
    destruct (String.eqb_spec k0 k); simpl.
    + subst. constructor; assumption.
    + constructor; [|apply IH; exact Hd].
      rewrite mapSet_keys_in. intros [?|?]; [congruence|contradiction].
Qed.

Lemma findChunk_mapSet id c m :
  keyed m ->
  findChunk id (map snd (mapSet (chunkId c) c m))
  = if String.eqb (chunkId c) id then Some c
    else findChunk id (map snd m).
Proof.
  unfold keyed, findChunk. induction 1 as [|[k v] m Hk Hm IH]; simpl in *.
  - destruct (String.eqb (chunkId c) id); reflexivity.
  - subst k. destruct (String.eqb_spec (chunkId v) (chunkId c)) as [E|E]; simpl.
    + rewrite E. destruct (String.eqb (chunkId c) id); reflexivity.
    + rewrite IH. destruct (String.eqb_spec (chunkId v) id) as [E1|E1];
        [|reflexivity].
      destruct (String.eqb_spec (chunkId c) id); [congruence|reflexivity].
Qed.

Lemma find_app {A} (f : A -> bool) (l1 l2 : list A) :
  List.find f (l1 ++ l2)
  = match List.find f l1 with
    | Some x => Some x
    | None => List.find f l2
    end.
Proof.
  induction l1 as [|a l1 IH]; simpl; [reflexivity|].
  destruct (f a); [reflexivity | exact IH].
Qed.

Lemma lastWith_cons id c cs :
  lastWith id (c :: cs)
  = match lastWith id cs with
    | Some x => Some x
    | None => if String.eqb (chunkId c) id then Some c else None
    end.
Proof.
  unfold lastWith, findChunk. simpl. rewrite find_app.
  destruct (List.find _ (rev cs)); reflexivity.
Qed.

Lemma lastWith_app id cs1 cs2 :
  lastWith id (cs1 ++ cs2)
  = match lastWith id cs2 with
    | Some x => Some x
    | None => lastWith id cs1
    end.
Proof. unfold lastWith, findChunk. rewrite rev_app_distr, find_app. reflexivity. Qed.

Lemma setAll_spec cs :
  forall m, keyed m ->
    keyed (setAll cs m)
    /\ (List.NoDup (map fst m) -> List.NoDup (map fst (setAll cs m)))
    /\ (forall k, In k (map fst (setAll cs m))
                  <-> In k (map fst m) \/ In k (ids cs))
    /\ (forall id,
           findChunk id (map snd (setAll cs m))
           = match lastWith id cs with
             | Some x => Some x
             | None => findChunk id (map snd m)
             end).
Proof.
  induction cs as [|c cs IH]; intros m Hm.
  - simpl. repeat split; auto; simpl; tauto.
  - change (setAll (c :: cs) m) with (setAll cs (mapSet (chunkId c) c m)).
    destruct (IH _ (mapSet_keyed c m Hm)) as (H1 & H2 & H3 & H4).
    split; [exact H1|]. split; [intros Hd; apply H2, mapSet_NoDup, Hd|].
    split.
    + intros k. rewrite H3, mapSet_keys_in. simpl. intuition.
    + intros id. rewrite H4, lastWith_cons, findChunk_mapSet by assumption.
      destruct (lastWith id cs); [reflexivity|].
      destruct (String.eqb (chunkId c) id); reflexivity.
Qed.

Lemma keyed_ids m : keyed m -> ids (map snd m) = map fst m.
Proof.
  unfold keyed, ids. induction 1 as [|[k v] m Hk Hm IH]; simpl in *;
    [reflexivity | congruence].
Qed.

Lemma setAll_app_fresh cs :
  forall m m',
    (forall c, In c cs -> ~ In (chunkId c) (map fst m)) ->
    setAll cs (m ++ m') = m ++ setAll cs m'.
Proof.
  induction cs as [|c cs IH]; intros m m' H; [reflexivity|].
  change (setAll (c :: cs) (m ++ m'))
    with (setAll cs (mapSet (chunkId c) c (m ++ m'))).
  rewrite mapSet_app_fresh by (apply H; left; reflexivity).
  apply IH. intros c' Hc'. apply H. right. exact Hc'.
Qed.

Lemma setAll_distinct cs :
  forall m,
    List.NoDup (map fst m ++ ids cs) -> setAll cs m = m ++ map entry cs.
Proof.
  induction cs as [|c cs IH]; intros m H; simpl.
  - rewrite app_nil_r; reflexivity.
  - assert (Hc : ~ In (chunkId c) (map fst m)).
    { intros Hin. apply List.NoDup_remove_2 in H. apply H.
      apply in_or_app. left. exact Hin. }
    pose proof (mapSet_app_fresh (chunkId c) c m [] Hc) as E.
    rewrite app_nil_r in E. simpl in E.
    change (setAll (c :: cs) m) with (setAll cs (mapSet (chunkId c) c m)).
    rewrite E, IH.
    + rewrite <- app_assoc. reflexivity.
    + rewrite map_app. simpl. rewrite <- app_assoc. exact H.
Qed.

Lemma setAll_present cs :
  forall m, (forall c, In c cs -> In (chunkId c) (map fst m)) ->
            map fst (setAll cs m) = map fst m.
Proof.
  induction cs as [|c cs IH]; intros m H; [reflexivity|].
  change (setAll (c :: cs) m) with (setAll cs (mapSet (chunkId c) c m)).
  rewrite IH.
  - apply mapSet_keys_present. apply H. left; reflexivity.
  - intros c' Hc'. rewrite mapSet_keys_present by (apply H; left; reflexivity).
    apply H. right. exact Hc'.
Qed.

Lemma map_snd_entry cs : map snd (map entry cs) = cs.
Proof. rewrite map_map. simpl. apply map_id. Qed.

Lemma map_fst_entry cs : map fst (map entry cs) = ids cs.
Proof. rewrite map_map. reflexivity. Qed.

Lemma keyed_nil : keyed [].
Proof. constructor. Qed.

Lemma findChunk_not_in id cs : ~ In id (ids cs) -> findChunk id cs = None.
Proof.
  unfold findChunk, ids. induction cs as [|c cs IH]; simpl; [reflexivity|].
  intros H. destruct (String.eqb_spec (chunkId c) id); [tauto|].
  apply IH. tauto.
Qed.

Lemma lastWith_NoDup id cs :
  List.NoDup (ids cs) -> lastWith id cs = findChunk id cs.
Proof.
  induction cs as [|c cs IH]; intros Hd; [reflexivity|].
  simpl in Hd. apply List.NoDup_cons_iff in Hd as [Hn Hd].
  rewrite lastWith_cons, IH by exact Hd. unfold findChunk at 2. simpl.
  fold (findChunk id cs).
  destruct (String.eqb_spec (chunkId c) id) as [E|E].
  - rewrite findChunk_not_in; [reflexivity | rewrite <- E; exact Hn].
  - destruct (findChunk id cs); reflexivity.
Qed.

Lemma chunks_ext (l1 : list DocumentChunk) :
  forall l2,
    ids l1 = ids l2 -> List.NoDup (ids l1) ->
    (forall id, findChunk id l1 = findChunk id l2) -> l1 = l2.
Proof.
  induction l1 as [|c1 l1 IH]; intros [|c2 l2] Hi Hd Hf;
    try discriminate; [reflexivity|].
  simpl in Hi. injection Hi as Hc Hi.
  simpl in Hd. apply List.NoDup_cons_iff in Hd as [Hn Hd].
  assert (E : c1 = c2).
  { specialize (Hf (chunkId c1)). unfold findChunk in Hf. simpl in Hf.
    rewrite <- Hc, String.eqb_refl in Hf. congruence. }
  subst c2. f_equal. apply IH; [exact Hi | exact Hd|].
  intros id. specialize (Hf id).
  destruct (String.eqb_spec (chunkId c1) id) as [E|E].
  - rewrite !findChunk_not_in; [reflexivity | | ]; rewrite <- E;
      [rewrite <- Hi|]; exact Hn.
  - unfold findChunk in *. simpl in Hf.
    destruct (String.eqb_spec (chunkId c1) id); [contradiction | exact Hf].
Qed.

(** The chunk list of [addChunks], by its lookups. *)
Lemma addChunks_lookup new vs :
  List.NoDup (ids (chunks (addChunks new vs)))
  /\ (forall k, In k (ids (chunks (addChunks new vs)))
                <-> In k (ids (chunks vs ++ new)))
  /\ (forall id, findChunk id (chunks (addChunks new vs))
                 = lastWith id (chunks vs ++ new)).
Proof.
  unfold addChunks. simpl chunks.
  destruct (setAll_spec (chunks vs) [] keyed_nil) as (K1 & D1 & I1 & F1).
  destruct (setAll_spec new _ K1) as (K2 & D2 & I2 & F2).
  rewrite (keyed_ids _ K2).
  split; [apply D2, D1; constructor|]. split.
  - intros k. rewrite I2, I1. unfold ids. rewrite map_app, in_app_iff.
    simpl. tauto.
  - intros id. rewrite F2, F1, lastWith_app. simpl.
    destruct (lastWith id new); [reflexivity|].
    destruct (lastWith id (chunks vs)); reflexivity.
Qed.

Lemma addChunks_members (new : list DocumentChunk) (vs : t) :
  List.NoDup (ids (chunks (addChunks new vs)))
  /\ (forall id, findChunk id (chunks (addChunks new vs))
                 = lastWith id (chunks vs ++ new))
  /\ (forall c, In c new -> In (chunkId c) (ids (chunks (addChunks new vs))))
  /\ (forall c, In c (chunks (addChunks new vs)) -> In c (chunks vs ++ new)).
Proof.
  destruct (addChunks_lookup new vs) as (Hd & Hi & Hf).
  split; [exact Hd|]. split; [exact Hf|]. split.
  - intros c Hc. apply Hi. unfold ids. rewrite map_app, in_app_iff. right.
    apply in_map. exact Hc.
  - intros c Hc.
    assert (E : findChunk (chunkId c) (chunks (addChunks new vs)) = Some c).
    { revert Hd Hc. generalize (chunks (addChunks new vs)) as l.
      unfold findChunk, ids. induction l as [|x l IH]; simpl; [tauto|].
      intros Hd [->|Hc]; [rewrite String.eqb_refl; reflexivity|].
      apply List.NoDup_cons_iff in Hd as [Hn Hd].
      destruct (String.eqb_spec (chunkId x) (chunkId c)) as [E|_].
      - exfalso. apply Hn. rewrite E. apply in_map. exact Hc.
      - apply IH; assumption. }
    rewrite Hf in E. unfold lastWith, findChunk in E.
    apply find_some in E as [E _]. apply in_rev in E. exact E.
Qed.

Lemma addChunks_known (new : list DocumentChunk) (vs : t) :
  List.NoDup (ids (chunks vs)) ->
  ((forall c, In c new -> In (chunkId c) (ids (chunks vs))) ->
   ids (chunks (addChunks new vs)) = ids (chunks vs)
   /\ getChunkCount (addChunks new vs) = getChunkCount vs)
  /\ (List.NoDup (ids new) ->
      (forall c, In c new -> ~ In (chunkId c) (ids (chunks vs))) ->
      chunks (addChunks new vs) = chunks vs ++ new).
Proof.
  intros Hd.
  assert (E0 : setAll (chunks vs) [] = map entry (chunks vs)).
  { apply (setAll_distinct (chunks vs) []). exact Hd. }
  unfold addChunks, getChunkCount. simpl chunks. rewrite E0. split.
  - intros Hin.
    assert (K : keyed (setAll new (map entry (chunks vs)))).
    { rewrite <- E0. apply setAll_spec, setAll_spec, keyed_nil. }
    assert (E : ids (map snd (setAll new (map entry (chunks vs))))
                = ids (chunks vs)).
    { rewrite (keyed_ids _ K), setAll_present; [apply map_fst_entry|].
      intros c Hc. rewrite map_fst_entry. apply Hin, Hc. }
    split; [exact E|]. unfold ids in E.
    apply (f_equal (@length string)) in E. rewrite !length_map in E.
    rewrite length_map. congruence.
  - intros Hn Hf. rewrite setAll_distinct.
    + rewrite map_app, !map_snd_entry. reflexivity.
    + rewrite map_fst_entry. apply List.NoDup_app; [exact Hd | exact Hn|].
      intros x Hx Hx'.
      unfold ids in Hx'. apply in_map_iff in Hx' as (c & <- & Hc).
      exact (Hf c Hc Hx).
Qed.

Lemma addChunks_twice (new : list DocumentChunk) (vs : t) :
  addChunks new (addChunks new vs) = addChunks new vs.
Proof.
  destruct (addChunks_lookup new vs) as (Hd1 & Hi1 & Hf1).
  destruct (addChunks_lookup new (addChunks new vs)) as (Hd2 & Hi2 & Hf2).
  assert (E : chunks (addChunks new (addChunks new vs))
              = chunks (addChunks new vs)).
  { apply chunks_ext.
    - destruct (addChunks_known new (addChunks new vs) Hd1) as [H _].
      apply H. intros c Hc. apply Hi1. unfold ids.
      rewrite map_app, in_app_iff. right. apply in_map, Hc.
    - exact Hd2.
    - intros id.
      rewrite Hf2, lastWith_app, (lastWith_NoDup _ _ Hd1), Hf1, lastWith_app.
      destruct (lastWith id new); reflexivity. }
  unfold addChunks in *. simpl in *. f_equal. exact E.
Qed.

Lemma excluded_spec (c : DocumentChunk) (chunkIds : list string) :
  existsb (String.eqb (chunkId c)) chunkIds = true <-> In (chunkId c) chunkIds.
Proof.
  rewrite existsb_exists. split.
  - intros (x & Hx & E). apply String.eqb_eq in E. congruence.
  - intros H. exists (chunkId c). split; [exact H | apply String.eqb_refl].
Qed.

(** X1: [addChunks] is an upsert by chunk id.  After it no two chunks of
    the store share an id; looking an id up gives the last chunk with
    that id among the old chunks followed by the new ones, so a new chunk
    replaces the stored chunk of its id and, of two new chunks with one
    id, the later wins; every new id is in the store and every chunk of
    the store is an old or a new one. *)
Theorem addChunks_upsert (new : list DocumentChunk) (vs : t) :
  List.NoDup (ids (chunks (addChunks new vs)))
  /\ (forall id, findChunk id (chunks (addChunks new vs))
                 = lastWith id (chunks vs ++ new))
  /\ (forall c, In c new -> In (chunkId c) (ids (chunks (addChunks new vs))))
  /\ (forall c, In c (chunks (addChunks new vs)) -> In c (chunks vs ++ new)).
Proof. exact (addChunks_members new vs). Qed.

(** X2: On a store without repeated ids, [addChunks] of chunks whose ids
    are all stored replaces in place: the ids keep their order and the
    count does not change; [addChunks] of chunks with fresh, distinct ids
    appends them in order. *)
Theorem addChunks_in_place (new : list DocumentChunk) (vs : t) :
  List.NoDup (ids (chunks vs)) ->
  ((forall c, In c new -> In (chunkId c) (ids (chunks vs))) ->
   ids (chunks (addChunks new vs)) = ids (chunks vs)
   /\ getChunkCount (addChunks new vs) = getChunkCount vs)
  /\ (List.NoDup (ids new) ->
      (forall c, In c new -> ~ In (chunkId c) (ids (chunks vs))) ->
      chunks (addChunks new vs) = chunks vs ++ new).
Proof. exact (addChunks_known new vs). Qed.

Lemma addChunks_in_place_witness :
  getChunkCount
    (addChunks [mkChunk "d-1" "second, again" (Some [2%R]) []] twoChunks)
  = getChunkCount twoChunks.
Proof.
  assert (Hd : List.NoDup (ids (chunks twoChunks))).
  { repeat constructor; simpl; intuition discriminate. }
  refine (proj2 (proj1 (addChunks_in_place
                          [mkChunk "d-1" "second, again" (Some [2%R]) []]
                          twoChunks Hd) _)).
  intros c [<-|[]]. simpl. auto.
Defined.

(** X3: Adding the same chunks a second time changes nothing. *)
Theorem addChunks_idempotent (new : list DocumentChunk) (vs : t) :
  addChunks new (addChunks new vs) = addChunks new vs.
Proof. exact (addChunks_twice new vs). Qed.

(** X4: [removeChunks] keeps exactly the chunks whose id is not listed,
    and undoes an [addChunks] of chunks with fresh ids on a store without
    repeated ids. *)
Theorem removeChunks_spec (chunkIds : list string) (vs : t) :
  (forall c, In c (chunks (removeChunks chunkIds vs))
             <-> In c (chunks vs) /\ ~ In (chunkId c) chunkIds)
  /\ (forall new,
        List.NoDup (ids (chunks vs)) ->
        (forall c, In c new -> ~ In (chunkId c) (ids (chunks vs))) ->
        removeChunks (ids new) (addChunks new vs) = vs).
Proof.
  split.
  - intros c. unfold removeChunks. simpl. rewrite filter_In.
    rewrite negb_true_iff, <- not_true_iff_false, excluded_spec. tauto.
  - intros new Hd Hf. destruct vs as [sid cs]. simpl in *.
    unfold removeChunks, addChunks. simpl. f_equal.
    rewrite (setAll_distinct cs []) by exact Hd. simpl.
    pose proof (setAll_app_fresh new (map entry cs) []) as E.
    rewrite app_nil_r in E. rewrite E.
    2:{ intros c Hc. rewrite map_fst_entry. apply Hf, Hc. }
    rewrite map_app, map_snd_entry, List.filter_app.
    assert (F1 : List.filter
                   (fun c => negb (existsb (String.eqb (chunkId c)) (ids new)))
                   cs = cs).
    { apply List.forallb_filter_id. apply List.forallb_forall. intros c Hc. 
      rewrite negb_true_iff, <- not_true_iff_false, excluded_spec.
      intros Hin. unfold ids in Hin. apply in_map_iff in Hin as (c' & Ec & Hc').
      apply (Hf c' Hc'). rewrite Ec. apply in_map, Hc. }
    assert (F2 : List.filter
                   (fun c => negb (existsb (String.eqb (chunkId c)) (ids new)))
                   (map snd (setAll new [])) = []).
    { destruct (setAll_spec new [] keyed_nil) as (K & _ & I & _).
      rewrite <- (keyed_ids _ K) in I.
      assert (Hall : Forall (fun c => In (chunkId c) (ids new))
                            (map snd (setAll new []))).
      { apply List.Forall_forall. intros c Hc.
        destruct (I (chunkId c)) as [H _].
        destruct H as [[]|H]; [apply in_map; exact Hc | exact H]. }
      clear I K. induction Hall as [|c l Hc Hl IH]; [reflexivity|]. simpl.
      apply excluded_spec in Hc. rewrite Hc. simpl. exact IH. }
    rewrite F1, F2, app_nil_r. reflexivity.
Qed.

End VectorStoreUpdateFacts.
Section CosineFacts.
Import VectorStore.

(** The arithmetic of the model is an instance of the open one. *)
Lemma cosineSimilarityIn_real (a b : list R) :
  cosineSimilarityIn R 0%R Rplus Rmult Rdiv sqrt isZeroR a b
  = cosineSimilarity a b.
Proof.
  unfold cosineSimilarityIn, cosineSimilarity.
  destruct (negb (length a =? length b)%nat); [reflexivity|].
  assert (H : forall l acc acc',
             dotProductIn R acc' = dotProduct acc ->
             normAIn R acc' = normA acc -> normBIn R acc' = normB acc ->
             let r := fold_left (cosineStep a b) l acc in
             let r' := fold_left (cosineStepIn R 0%R Rplus Rmult a b) l acc' in
             dotProductIn R r' = dotProduct r
             /\ normAIn R r' = normA r /\ normBIn R r' = normB r).
  { induction l as [|i l IH]; intros acc acc' Hd Ha Hb; [cbn; auto|].
    cbn [fold_left]. apply IH; cbn; congruence. }
  destruct (H (seq 0 (length a)) (mkAcc 0 0 0) (mkAccIn R 0%R 0%R 0%R)
              eq_refl eq_refl eq_refl) as (Hd & Ha & Hb).
  cbv zeta in *. rewrite Hd, Ha, Hb. unfold isZeroR.
  destruct (Req_dec_T _ 0); reflexivity.
Qed.

Section Symmetry.
Variable num : Type.
Variable zero : num.
Variables add mul div : num -> num -> num.
Variable squareRoot : num -> num.
Variable isZero : num -> bool.
Hypothesis mul_comm : forall x y, mul x y = mul y x.

(** Swapping the vectors swaps the two norms and keeps the dot product,
    run by run of the loop. *)
Lemma cosineStepIn_swap (a b : list num) (l : list nat) :
  forall acc acc',
    dotProductIn num acc' = dotProductIn num acc ->
    normAIn num acc' = normBIn num acc ->
    normBIn num acc' = normAIn num acc ->
    let r := fold_left (cosineStepIn num zero add mul a b) l acc in
    let r' := fold_left (cosineStepIn num zero add mul b a) l acc' in
    dotProductIn num r' = dotProductIn num r
    /\ normAIn num r' = normBIn num r
    /\ normBIn num r' = normAIn num r.
Proof.
  induction l as [|i l IH]; intros acc acc' Hd Ha Hb; [cbn; auto|].
  cbn [fold_left]. apply IH; cbn.
  - rewrite Hd, (mul_comm (nth i b zero) (nth i a zero)). reflexivity.
  - rewrite Ha. reflexivity.
  - rewrite Hb. reflexivity.
Qed.

Lemma cosineSimilarityIn_swap (a b : list num) :
  cosineSimilarityIn num zero add mul div squareRoot isZero a b
  = cosineSimilarityIn num zero add mul div squareRoot isZero b a.
Proof.
  unfold cosineSimilarityIn. rewrite (Nat.eqb_sym (length b) (length a)).
  destruct (Nat.eqb_spec (length a) (length b)) as [E|E]; [|reflexivity].
  cbn [negb]. rewrite <- E.
  destruct (cosineStepIn_swap
              a b (seq 0 (length a))
              (mkAccIn num zero zero zero) (mkAccIn num zero zero zero)
              eq_refl eq_refl eq_refl) as (Hd & Ha & Hb).
  cbv zeta in *. rewrite Hd, Ha, Hb.
  rewrite (mul_comm (squareRoot (normBIn num _))
                    (squareRoot (normAIn num _))).
  reflexivity.
Qed.
End Symmetry.

(** X5: The similarity of two vectors does not depend on their order, also
    where it throws.  This needs one law of the arithmetic only, that
    [x * y] and [y * x] are the same number, so it holds of the loop of
    the source over every type of numbers with such a multiplication
    (the rounded multiplication of IEEE doubles is one), and of
    [cosineSimilarity] over the real numbers in particular. *)
Theorem cosineSimilarity_symmetric :
  (forall (num : Type) (zero : num) (add mul div : num -> num -> num)
          (squareRoot : num -> num) (isZero : num -> bool)
          (a b : list num),
      (forall x y, mul x y = mul y x) ->
      cosineSimilarityIn num zero add mul div squareRoot isZero a b
      = cosineSimilarityIn num zero add mul div squareRoot isZero b a)
  /\ (forall a b : list R, cosineSimilarity a b = cosineSimilarity b a).
Proof.
  split.
  - intros num zero add mul div squareRoot isZero a b Hc.
    apply cosineSimilarityIn_swap. exact Hc.
  - intros a b. rewrite <- !cosineSimilarityIn_real.
    apply cosineSimilarityIn_swap. exact Rmult_comm.
Qed.

Lemma cosineSimilarity_symmetric_witness :
  (forall x y : R, (x * y = y * x)%R)
  /\ cosineSimilarityIn R 0%R Rplus Rmult Rdiv sqrt isZeroR
                        [3; 4]%R [4; 3]%R
     = cosineSimilarityIn R 0%R Rplus Rmult Rdiv sqrt isZeroR
                          [4; 3]%R [3; 4]%R
  /\ cosineSimilarity [3; 4]%R [4]%R = cosineSimilarity [4]%R [3; 4]%R.
Proof.
  split; [exact Rmult_comm|]. split.
  - exact (proj1 cosineSimilarity_symmetric
                 R 0%R Rplus Rmult Rdiv sqrt isZeroR [3; 4]%R [4; 3]%R
                 Rmult_comm).
  - exact (proj2 cosineSimilarity_symmetric [3; 4]%R [4]%R).
Defined.

End CosineFacts.

Section SearchFacts.
Import VectorStore.

(** X7: [search] keeps the best: the results and the scored chunks it leaves
    out are together the chunks with an embedding, no chunk left out
    scores higher than a result, and nothing is left out when [topK] is
    at least the number of chunks with an embedding. *)
Theorem search_keeps_best (vs : t) (q : list R) (topK : Z)
        (rs : list VectorSearchResult) :
  0 <= topK ->
  search vs q topK = Ok rs ->
  exists dropped,
    Permutation (map chunk (rs ++ dropped)) (embedded vs)
    /\ Forall (scored q) dropped
    /\ (forall r d, In r rs -> In d dropped -> (score d <= score r)%R)
    /\ (Z.of_nat (length (embedded vs)) <= topK -> dropped = []).
Proof.
  intros Hk. unfold search, embedded.
  destruct (Nat.eqb_spec (length (chunks vs)) 0) as [E|_].
  - intros H; injection H as <-. exists [].
    destruct (chunks vs); [|discriminate].
    simpl. split; [constructor|]. split; [constructor|]. split; [intros ? ? []|reflexivity].
  - destruct (searchLoop q (chunks vs) []) as [res|m] eqn:El;
      simpl; [|discriminate].
    intros H; injection H as <-.
    destruct (searchLoop_ok _ _ _ _ El) as (new & -> & Hm & Hs).
    simpl app. rewrite slice_from_0.
    set (k := Z.to_nat (relIndex (Z.of_nat (length (sort byScore new))) topK)).
    exists (skipn k (sort byScore new)).
    split; [|split; [|split]].
    + rewrite firstn_skipn, <- Hm. apply Permutation_map, sort_perm.
    + apply Forall_drop.
      eapply Permutation_Forall; [symmetry; apply sort_perm | exact Hs].
    + intros r d Hr Hd.
      assert (Hss : StronglySorted (fun a b => (score b <= score a)%R)
                                   (sort byScore new)).
      { apply (sort_sorted byScore (fun a b => (score b <= score a)%R)).
        - intros a b c H1 H2. lra.
        - apply byScore_true.
        - apply byScore_false. }
      exact (StronglySorted_split _ k _ Hss r d Hr Hd).
    + intros Hn. apply skipn_all2. subst k.
      rewrite sort_length in *. rewrite <- Hm, length_map in Hn.
      unfold relIndex. destruct (Z.ltb_spec topK 0); lia.
Qed.

Lemma search_keeps_best_witness :
  0 <= 3
  /\ exists rs dropped,
      search (create "memory-node-1" (Some Example.storeData1))
             Example.query 3 = Ok rs
      /\ Permutation
           (map chunk (rs ++ dropped))
           (embedded (create "memory-node-1" (Some Example.storeData1))).
Proof.
  split; [lia|].
  destruct (search_keeps_best _ _ 3 _ ltac:(lia) search_store1)
    as (dropped & Hp & _).
  eexists. exists dropped. split; [exact search_store1 | exact Hp].
Defined.

End SearchFacts.

Section ChunkerMoreFacts.
Import Chunker Parser.

Lemma body_chunks text cs ov st :
  chunks (flowState (body text cs ov st)) = chunks st
  \/ exists s e,
      nonEmpty (trim (slice text s e)) = true
      /\ chunks (flowState (body text cs ov st))
         = chunks st ++ [trim (slice text s e)].
Proof.
  unfold body. destruct (iterations st + 1 >? MAX_CHUNKS * 2); [left; reflexivity|].
  set (e := Z.min (start st + cs) (textLength text)).
  destruct (0 <? Z.of_nat (length (trim (slice text (start st) e)))) eqn:E.
  - right. exists (start st), e. split; [exact E|].
    match goal with |- context [?a >=? ?b] => destruct (a >=? b) end;
      reflexivity.
  - left.
    match goal with |- context [?a >=? ?b] => destruct (a >=? b) end;
      reflexivity.
Qed.

(** What holds of every trimmed, non-empty window holds of every chunk. *)
Lemma while_Forall (P : str -> Prop) text cs ov :
  (forall s e, nonEmpty (trim (slice text s e)) = true ->
               P (trim (slice text s e))) ->
  forall n st st',
    while n text cs ov st = Some st' ->
    Forall P (chunks st) -> Forall P (chunks st').
Proof.
  intros HP. induction n as [|n IH]; intros st st' H Hf; simpl in H.
  - destruct (test text st); [discriminate|]. injection H as <-. exact Hf.
  - destruct (test text st); [|injection H as <-; exact Hf].
    assert (Hb : Forall P (chunks (flowState (body text cs ov st)))).
    { destruct (body_chunks text cs ov st) as [-> | (s & e & Hne & ->)];
        [exact Hf|].
      apply Forall_app; split; [exact Hf|].
      constructor; [apply HP; exact Hne | constructor]. }
    destruct (body text cs ov st) as [st1|st1]; simpl in Hb.
    + apply (IH st1); assumption.
    + injection H as <-. exact Hb.
Qed.

Lemma chunkText_total text chunkSize overlap :
  exists st',
    while fuel text (fst (validate chunkSize overlap))
          (snd (validate chunkSize overlap)) (mkLoop 0 [] 0) = Some st'
    /\ chunkText text chunkSize overlap = Some (chunks st').
Proof.
  pose proof (validate_bounds chunkSize overlap) as [Hcs Hov].
  destruct (while_total text _ _ Hcs Hov fuel (mkLoop 0 [] 0))
    as (st' & Hw & _).
  { constructor; simpl; try (unfold MAX_CHUNKS; lia). constructor. }
  { unfold fuel. simpl iterations.
    rewrite Nat2Z.inj_succ, Z2Nat.id; unfold MAX_CHUNKS; lia. }
  exists st'. split; [exact Hw|].
  unfold chunkText.
  rewrite (surjective_pairing (validate chunkSize overlap)).
  rewrite Hw. reflexivity.
Qed.

Lemma chunkText_Forall (P : str -> Prop) text chunkSize overlap :
  (forall s e, nonEmpty (trim (slice text s e)) = true ->
               P (trim (slice text s e))) ->
  exists chunks,
    chunkText text chunkSize overlap = Some chunks /\ Forall P chunks.
Proof.
  intros HP. destruct (chunkText_total text chunkSize overlap)
    as (st' & Hw & Hc).
  exists (chunks st'). split; [exact Hc|].
  apply (while_Forall P text _ _ HP _ _ _ Hw). constructor.
Qed.

Lemma dropWhile_all {A} (p : A -> bool) (l : list A) :
  Forall (fun x => p x = true) l -> dropWhile p l = [].
Proof. induction 1 as [|x l Hx Hl IH]; simpl; [|rewrite Hx]; auto. Qed.

Lemma dropWhile_suffix {A} (p : A -> bool) (l : list A) :
  exists pre, l = pre ++ dropWhile p l.
Proof.
  induction l as [|x l [pre IH]]; [exists []; reflexivity|]. simpl.
  destruct (p x); [exists (x :: pre); simpl; congruence | exists []; reflexivity].
Qed.

Lemma dropWhile_head_false {A} (p : A -> bool) (l : list A) x rest :
  dropWhile p l = x :: rest -> p x = false.
Proof.
  induction l as [|y l IH]; simpl; [discriminate|].
  destruct (p y) eqn:E; [exact IH|]. intros H; injection H as -> _. exact E.
Qed.

Lemma trim_infix (s : str) : exists pre post, s = pre ++ trim s ++ post.
Proof.
  unfold trim, trimEnd, trimStart.
  destruct (dropWhile_suffix isWhiteSpace s) as [pre E1].
  destruct (dropWhile_suffix isWhiteSpace (rev (dropWhile isWhiteSpace s)))
    as [post' E2].
  exists pre, (rev post'). rewrite <- rev_app_distr, <- E2, rev_involutive.
  exact E1.
Qed.

Lemma trim_ends (s : str) x rest :
  trim s = x :: rest ->
  isWhiteSpace x = false
  /\ exists y, hd_error (rev (trim s)) = Some y /\ isWhiteSpace y = false.
Proof.
  unfold trim, trimEnd, trimStart. set (t := dropWhile isWhiteSpace s).
  intros H. split.
  - destruct (dropWhile_suffix isWhiteSpace (rev t)) as [post' E2].
    apply (f_equal (@rev N)) in E2.
    rewrite rev_involutive, rev_app_distr, H in E2.
    subst t. simpl in E2. eapply dropWhile_head_false. exact E2.
  - rewrite rev_involutive.
    destruct (dropWhile isWhiteSpace (rev t)) as [|y r] eqn:E;
      [discriminate|].
    exists y. split; [reflexivity|]. eapply dropWhile_head_false. exact E.
Qed.

Lemma slice_infix {A} (l : list A) s e :
  exists pre post, l = pre ++ slice l s e ++ post.
Proof.
  unfold slice.
  set (k := Z.to_nat (relIndex (Z.of_nat (length l)) s)).
  set (n := Z.to_nat _).
  exists (firstn k l), (skipn n (skipn k l)).
  rewrite (firstn_skipn n), (firstn_skipn k). reflexivity.
Qed.

Lemma chunkText_pieces (text : str) (chunkSize overlap : Z) :
  exists chunks,
    chunkText text chunkSize overlap = Some chunks
    /\ Forall (fun c => infix c text /\ trimmed c) chunks.
Proof.
  apply chunkText_Forall. intros s e Hne.
  destruct (trim (slice text s e)) as [|x rest] eqn:E; [discriminate|].
  rewrite <- E. split.
  - destruct (slice_infix text s e) as (pre & post & Ht).
    destruct (trim_infix (slice text s e)) as (pre' & post' & Hs).
    exists (pre ++ pre'), (post' ++ post).
    rewrite Ht at 1. rewrite Hs at 1. rewrite <- !app_assoc. reflexivity.
  - destruct (trim_ends _ _ _ E) as [Hx Hy]. split; [|exact Hy].
    exists x. rewrite E. auto.
Qed.

(** A text of white space only, the empty text included, gives no
    chunk. *)
Lemma chunkText_blank (text : str) (chunkSize overlap : Z) :
  Forall (fun c => isWhiteSpace c = true) text ->
  chunkText text chunkSize overlap = Some [].
Proof.
  intros Hws.
  destruct (chunkText_Forall (fun _ => False) text chunkSize overlap)
    as (cks & -> & Hf).
  - intros s e. unfold trim, trimStart.
    rewrite dropWhile_all by (apply Forall_slice; exact Hws).
    discriminate.
  - destruct Hf as [|c l []]. reflexivity.
Qed.

(** X8: [chunkText] copies and never rewrites.  For every text and all
    parameters, every chunk stands in the text as it is and neither
    starts nor ends with white space; a text of white space only, the
    empty text included, gives no chunk. *)
Theorem chunkText_verbatim (text : str) (chunkSize overlap : Z) :
  exists chunks,
    chunkText text chunkSize overlap = Some chunks
    /\ Forall (fun c => infix c text /\ trimmed c) chunks
    /\ (Forall (fun c => isWhiteSpace c = true) text -> chunks = []).
Proof.
  destruct (chunkText_pieces text chunkSize overlap) as (chunks & Hc & Hf).
  exists chunks. split; [exact Hc|]. split; [exact Hf|].
  intros Hws. rewrite (chunkText_blank text chunkSize overlap Hws) in Hc.
  congruence.
Qed.

End ChunkerMoreFacts.

Section ShortTextFacts.
Import Chunker.

Lemma slice_all {A} (l : list A) :
  slice l 0 (Z.of_nat (length l)) = l.
Proof.
  rewrite slice_from_0. unfold relIndex.
  destruct (Z.ltb_spec (Z.of_nat (length l)) 0); [lia|].
  rewrite Z.min_id, Nat2Z.id. apply firstn_all.
Qed.

Lemma fuel_ge_2 : (2 <= fuel)%nat.
Proof. pose proof fuel_ge_4. lia. Qed.

(** X9: A text that fits into one window comes back whole, as one chunk, when
    it is not longer than the overlap or the overlap is 0; when it is
    longer than a positive overlap, it is followed by a second chunk that
    repeats its last [overlap] characters. *)
Theorem chunkText_short (text : str) (chunkSize overlap : Z) :
  let cs := fst (validate chunkSize overlap) in
  let ov := snd (validate chunkSize overlap) in
  0 < textLength text <= cs ->
  (ov = 0 \/ textLength text <= ov ->
   chunkText text chunkSize overlap = Some (keep (trim text) []))
  /\ (0 < ov < textLength text ->
      chunkText text chunkSize overlap
      = Some (keep (trim (slice text (textLength text - ov)
                                (textLength text)))
                   (keep (trim text) []))).
Proof.
  intros cs ov Hlen.
  pose proof (validate_bounds chunkSize overlap) as [Hcs Hov].
  fold cs ov in Hcs, Hov.
  assert (Hrun : forall st',
             while 2 text cs ov (mkLoop 0 [] 0) = Some st' ->
             chunkText text chunkSize overlap = Some (chunks st')).
  { intros st' Hw. unfold chunkText.
    rewrite (surjective_pairing (validate chunkSize overlap)). fold cs ov.
    rewrite (while_mono text cs ov 2 fuel _ _ fuel_ge_2 Hw). reflexivity. }
  assert (Hfirst : trim (slice text 0 (textLength text)) = trim text)
    by (unfold textLength; rewrite slice_all; reflexivity).
  split.
  - intros Hcase.
    rewrite (Hrun (mkLoop (textLength text) (keep (trim text) []) 1));
      [reflexivity|].
    rewrite (while_break _ _ _ _ _
               (mkLoop (textLength text) (keep (trim text) []) 1));
      [reflexivity | apply test_true; simpl; unfold MAX_CHUNKS; lia |].
    rewrite <- Hfirst.
    apply body_break with (e := textLength text);
      [reflexivity | unfold MAX_CHUNKS; lia | lia | | lia].
    destruct (Z.leb_spec (textLength text - ov) 0); lia.
  - intros Hcase.
    rewrite (Hrun (mkLoop (textLength text)
                    (keep (trim (slice text (textLength text - ov)
                                       (textLength text)))
                          (keep (trim text) [])) 2));
      [reflexivity|].
    pose proof (length_keep (trim text) []) as L1. simpl in L1.
    rewrite (while_next _ _ _ _ _
               (mkLoop (textLength text - ov) (keep (trim text) []) 1));
      [| apply test_true; simpl; unfold MAX_CHUNKS; lia |].
    + rewrite (while_break _ _ _ _ _
                 (mkLoop (textLength text)
                    (keep (trim (slice text (textLength text - ov)
                                       (textLength text)))
                          (keep (trim text) [])) 2));
        [reflexivity | apply test_true; unfold MAX_CHUNKS; lia |].
      apply body_break with (e := textLength text);
        [reflexivity | unfold MAX_CHUNKS; lia | lia | | lia].
      destruct (Z.leb_spec (textLength text - ov) (textLength text - ov));
        lia.
    + rewrite <- Hfirst.
      apply body_next with (e := textLength text);
        [reflexivity | unfold MAX_CHUNKS; lia | lia | | lia].
      destruct (Z.leb_spec (textLength text - ov) 0); lia.
Qed.

Lemma chunkText_short_witness :
  0 < textLength (repeat 97%N 500) <= 1000
  /\ chunkTextDefault (repeat 97%N 500)
     = Some [repeat 97%N 500; repeat 97%N 200].
Proof.
  assert (H : 0 < textLength (repeat 97%N 500) <= 1000)
    by (unfold textLength; simpl; lia).
  split; [exact H|].
  destruct (chunkText_short (repeat 97%N 500) 1000 200 H) as [_ H2].
  unfold chunkTextDefault. rewrite H2 by (unfold textLength; simpl; lia).
  vm_compute. reflexivity.
Defined.

End ShortTextFacts.

Section ParserFacts.
Import Chunker Parser.

Lemma showIndex_read (k : nat) :
  NilZero.uint_of_string (showIndex k) = Some (Nat.to_uint k)
  \/ (k = 0%nat
      /\ NilZero.uint_of_string (showIndex k) = Some Decimal.zero).
Proof.
  unfold showIndex. destruct (Nat.to_uint k) eqn:E;
    try (left; apply NilZero.usu; discriminate).
  right. split; [|reflexivity].
  rewrite <- (DecimalNat.Unsigned.of_to k), E. reflexivity.
Qed.

Lemma showIndex_inj (n m : nat) : showIndex n = showIndex m -> n = m.
Proof.
  intros H. apply (f_equal NilZero.uint_of_string) in H.
  assert (Hz : forall k, Nat.to_uint k = Decimal.zero -> k = 0%nat).
  { intros k E. rewrite <- (DecimalNat.Unsigned.of_to k), E. reflexivity. }
  destruct (showIndex_read n) as [En | [En1 En2]];
    destruct (showIndex_read m) as [Em | [Em1 Em2]].
  - rewrite En, Em in H. injection H as H.
    apply DecimalNat.Unsigned.to_uint_inj. exact H.
  - rewrite En, Em2 in H. injection H as H. rewrite (Hz n H). auto.
  - rewrite En2, Em in H. injection H as H. rewrite (Hz m (eq_sym H)). auto.
  - congruence.
Qed.

Lemma append_inj_l (p s t : string) : p +:+ s = p +:+ t -> s = t.
Proof.
  induction p as [|a p IH]; [auto|].
  rewrite !append_cons. intros H. injection H as H. auto.
Qed.

Lemma textId_inj (name : string) (n m : nat) :
  name +:+ "-" +:+ showIndex n = name +:+ "-" +:+ showIndex m -> n = m.
Proof.
  intros H. apply append_inj_l in H. apply append_inj_l in H.
  apply showIndex_inj. exact H.
Qed.

Lemma mapIndexed_nth {A B} (f : A -> nat -> B) (l : list A) :
  forall i k b,
    nth_error (mapIndexed f i l) k = Some b ->
    exists a, nth_error l k = Some a /\ b = f a (i + k)%nat.
Proof.
  induction l as [|a l IH]; intros i k b H; destruct k; simpl in *;
    try discriminate.
  - injection H as <-. exists a. rewrite Nat.add_0_r. auto.
  - destruct (IH _ _ _ H) as (a' & Ha & ->). exists a'.
    split; [exact Ha | f_equal; lia].
Qed.

Lemma mapIndexed_map {A B C} (f : A -> nat -> B) (g : B -> C)
      (h : nat -> C) (l : list A) :
  (forall a k, g (f a k) = h k) ->
  forall i, map g (mapIndexed f i l) = map h (seq i (length l)).
Proof.
  intros H. induction l as [|a l IH]; intros i; simpl; [reflexivity|].
  rewrite H, IH. reflexivity.
Qed.

Lemma mapIndexed_content {A B C} (f : A -> nat -> B) (g : B -> C)
      (h : A -> C) (l : list A) :
  (forall a k, g (f a k) = h a) ->
  forall i, map g (mapIndexed f i l) = map h l.
Proof.
  intros H. induction l as [|a l IH]; intros i; simpl; [reflexivity|].
  rewrite H, IH. reflexivity.
Qed.

Lemma NoDup_map_injective {A B} (f : A -> B) (l : list A) :
  (forall a b, f a = f b -> a = b) ->
  List.NoDup l -> List.NoDup (map f l).
Proof.
  intros Hf. induction 1 as [|a l Hn Hd IH]; simpl; constructor; [|exact IH].
  intros Hin. apply in_map_iff in Hin as (b & E & Hb).
  apply Hf in E. subst b. contradiction.
Qed.

(** X10: [parseTextFile] turns the chunks of the text, in their order, into
    parsed chunks whose ids [name-index] are pairwise different, whose
    source is the file name and whose line is the index plus one. *)
Theorem parseTextFile_chunks (name : string) (text : str) :
  exists chunks parsed,
    chunkTextDefault text = Some chunks
    /\ parseTextFile name text = Some parsed
    /\ map parsedContent parsed = chunks
    /\ List.NoDup (map parsedId parsed)
    /\ (forall k p,
          nth_error parsed k = Some p ->
          parsedId p = name +:+ "-" +:+ showIndex k
          /\ parsedSource p = Some name
          /\ parsedType p = Some "text"
          /\ parsedLine p = Some (Z.of_nat k + 1)).
Proof.
  destruct (chunkText_total text 1000 200) as (st' & _ & Hc).
  exists (chunks st'). eexists.
  unfold parseTextFile, chunkTextDefault. rewrite Hc. simpl option_map.
  split; [reflexivity|]. split; [reflexivity|]. split; [|split].
  - rewrite (mapIndexed_content _ parsedContent (fun c => c)) by reflexivity.
    apply map_id.
  - rewrite (mapIndexed_map _ parsedId
               (fun k => name +:+ "-" +:+ showIndex k)) by reflexivity.
    apply NoDup_map_injective; [|apply List.seq_NoDup].
    intros n m. apply textId_inj.
  - intros k p H. apply mapIndexed_nth in H as (a & _ & ->). simpl.
    repeat split.
Qed.

End ParserFacts.

Section MarkdownFacts.
Import Chunker Parser.

(** *** Ids *)

Lemma digits_noDash (d : Decimal.uint) :
  hasDash (NilEmpty.string_of_uint d) = false.
Proof. induction d; simpl; auto. Qed.

Lemma showIndex_noDash (n : nat) : hasDash (showIndex n) = false.
Proof.
  unfold showIndex, NilZero.string_of_uint.
  destruct (Nat.to_uint n) eqn:E; try (rewrite <- E; apply digits_noDash);
    try reflexivity; apply digits_noDash.
Qed.

Lemma dash_inj (a a' b b' : string) :
  hasDash a = false -> hasDash a' = false ->
  a +:+ "-" +:+ b = a' +:+ "-" +:+ b' -> a = a' /\ b = b'.
Proof.
  revert a'. induction a as [|x a IH]; intros [|x' a'] Ha Ha' H.
  - rewrite !append_nil_l in H. rewrite !append_cons in H.
    injection H as H. rewrite !append_nil_l in H. auto.
  - exfalso. rewrite append_nil_l, !append_cons in H. injection H as Hx _.
    subst x'. simpl in Ha'. discriminate Ha'.
  - exfalso. rewrite append_nil_l, !append_cons in H. injection H as Hx _.
    subst x. simpl in Ha. discriminate Ha.
  - rewrite !append_cons in H. injection H as Hx H. subst x'.
    simpl in Ha, Ha'. apply orb_false_iff in Ha as [_ Ha].
    apply orb_false_iff in Ha' as [_ Ha'].
    destruct (IH a' Ha Ha' H) as [-> ->]. auto.
Qed.

Lemma markdownId_inj (name : string) (i j i' j' : nat) :
  name +:+ "-" +:+ showIndex i +:+ "-" +:+ showIndex j
  = name +:+ "-" +:+ showIndex i' +:+ "-" +:+ showIndex j' ->
  i = i' /\ j = j'.
Proof.
  intros H. apply append_inj_l in H. apply append_inj_l in H.
  apply dash_inj in H as [Hi Hj]; try apply showIndex_noDash.
  split; apply showIndex_inj; assumption.
Qed.

(** *** The sections *)

Lemma splitSections_cons (prev : option N) (s : str) :
  exists piece rest, splitSections prev s = piece :: rest.
Proof.
  destruct s as [|c s]; [exists [], []; reflexivity|].
  cbn [splitSections].
  assert (H : exists piece rest,
             consHead c (splitSections (Some c) s) = piece :: rest).
  { destruct (splitSections (Some c) s) as [|q qs];
      [exists [c], [] | exists (c :: q), qs]; reflexivity. }
  destruct H as (piece & rest & ->).
  destruct prev; [|eauto]. destruct (sectionStart _ _); eauto.
Qed.

Lemma splitSections_concat (s : str) :
  forall prev, concat (splitSections prev s) = s.
Proof.
  induction s as [|c s IH]; intros prev; [reflexivity|].
  cbn [splitSections].
  assert (H : concat (consHead c (splitSections (Some c) s)) = c :: s).
  { specialize (IH (Some c)).
    destruct (splitSections_cons (Some c) s) as (q & qs & E).
    rewrite E in *. cbn [consHead concat app] in *. congruence. }
  destruct prev; [|exact H]. destruct (sectionStart _ _); exact H.
Qed.

(** After a [#] the piece goes on at least to the white space that ends
    the run of [#]. *)
Lemma header_in_first_piece (rest : str) :
  forall d tail,
    dropWhile (N.eqb 35) rest = d :: tail -> isWhiteSpace d = true ->
    exists piece pieces tail',
      splitSections (Some 35%N) rest = piece :: pieces
      /\ dropWhile (N.eqb 35) piece = d :: tail'.
Proof.
  induction rest as [|r rest IH]; intros d tail Hd Hw; [discriminate Hd|].
  cbn [splitSections]. cbn [sectionStart isLineTerminator].
  change (isLineTerminator 35 && headerAhead (r :: rest)) with false.
  cbv iota. cbn [dropWhile] in Hd.
  destruct (N.eqb_spec 35 r) as [<-|Hne].
  - destruct (IH d tail Hd Hw) as (q & qs & tail' & E & Hq).
    rewrite E. exists (35%N :: q), qs, tail'. split; [reflexivity|].
    cbn [dropWhile]. rewrite N.eqb_refl. exact Hq.
  - injection Hd as <- <-.
    destruct (splitSections_cons (Some r) rest) as (q & qs & E).
    rewrite E. exists (r :: q), qs, q. split; [reflexivity|].
    cbn [dropWhile]. destruct (N.eqb_spec 35 r); [contradiction|].
    reflexivity.
Qed.

Lemma splitSections_headers (s : str) :
  forall prev, Forall (fun piece => headerAhead piece = true)
                      (tl (splitSections prev s)).
Proof.
  induction s as [|c s IH]; intros prev; [constructor|].
  cbn [splitSections].
  destruct (splitSections_cons (Some c) s) as (q & qs & E).
  specialize (IH (Some c)). rewrite E in *. cbn [consHead tl] in *.
  destruct prev as [p|]; [|exact IH].
  destruct (sectionStart (Some p) (c :: s)) eqn:Hcut; [|exact IH].
  cbn [tl]. constructor; [|exact IH].
  unfold sectionStart in Hcut. apply andb_true_iff in Hcut as [_ Hh].
  cbn [headerAhead] in Hh. apply andb_true_iff in Hh as [Hc Hh].
  apply N.eqb_eq in Hc. subst c.
  destruct (dropWhile (N.eqb 35) s) as [|d tail] eqn:Hd; [discriminate|].
  destruct (header_in_first_piece s d tail Hd Hh)
    as (q' & qs' & tail' & E' & Hq).
  rewrite E in E'. injection E' as <- <-.
  cbn [headerAhead]. rewrite N.eqb_refl, Hq. exact Hh.
Qed.

Lemma splitSections_plain (s : str) :
  ~ In 35%N s -> forall prev, splitSections prev s = [s].
Proof.
  induction s as [|c s IH]; intros Hn prev; [reflexivity|].
  cbn [splitSections]. rewrite IH by (intros H; apply Hn; right; exact H).
  cbn [consHead].
  destruct prev as [p|]; [|reflexivity].
  unfold sectionStart. cbn [headerAhead].
  destruct (N.eqb_spec c 35) as [->|_].
  - exfalso. apply Hn. left. reflexivity.
  - rewrite andb_false_r. reflexivity.
Qed.

(** *** Where the text is cut *)

Lemma headerAhead_nonempty (s : str) : headerAhead s = true -> s <> [].
Proof. destruct s; [discriminate | discriminate]. Qed.

(** A run of [#] followed by white space is a header. *)
Lemma headerAhead_run (n : nat) (d : N) (tail : str) :
  isWhiteSpace d = true ->
  headerAhead (repeat 35%N (S n) ++ d :: tail) = true.
Proof.
  intros Hd. cbn [repeat app headerAhead]. rewrite N.eqb_refl. cbn [andb].
  assert (H : dropWhile (N.eqb 35) (repeat 35%N n ++ d :: tail) = d :: tail).
  { induction n as [|n IH].
    - cbn [repeat app dropWhile].
      destruct (N.eqb_spec 35 d) as [<-|_]; [discriminate Hd | reflexivity].
    - cbn [repeat app dropWhile]. rewrite N.eqb_refl. exact IH. }
  rewrite H. exact Hd.
Qed.

Lemma consHead_firstn (c : N) (q : str) (qs : list str) (k : nat) :
  concat (firstn (S k) (consHead c (q :: qs)))
  = c :: concat (firstn (S k) (q :: qs)).
Proof. reflexivity. Qed.

(** Every line that starts with a header starts a piece. *)
Lemma splitSections_cuts (pre : str) :
  forall prev c rest,
    isLineTerminator c = true -> headerAhead rest = true ->
    exists k,
      concat (firstn k (splitSections prev (pre ++ c :: rest)))
      = pre ++ [c].
Proof.
  induction pre as [|x pre IH]; intros prev c rest Hc Hh.
  - cbn [app]. cbn [splitSections].
    assert (H : exists more,
               consHead c (splitSections (Some c) rest) = [c] :: more).
    { destruct rest as [|r rest']; [discriminate Hh|].
      cbn [splitSections]. unfold sectionStart. rewrite Hc, Hh.
      cbn [andb]. eexists. reflexivity. }
    destruct H as [more ->].
    destruct prev as [p|]; [|exists 1%nat; reflexivity].
    destruct (sectionStart _ _); [exists 2%nat | exists 1%nat]; reflexivity.
  - cbn [app]. cbn [splitSections].
    destruct (IH (Some x) c rest Hc Hh) as [k Hk].
    destruct (splitSections_cons (Some x) (pre ++ c :: rest))
      as (q & qs & E).
    rewrite E in *.
    destruct k as [|k].
    { exfalso. cbn in Hk. destruct pre; discriminate Hk. }
    assert (H : concat (firstn (S k) (consHead x (q :: qs)))
                = x :: pre ++ [c]).
    { rewrite consHead_firstn, Hk. reflexivity. }
    destruct prev as [p|]; [|exists (S k); exact H].
    destruct (sectionStart _ _); [exists (S (S k)) | exists (S k)]; exact H.
Qed.

(** A piece that is followed by another one ends with a line
    terminator; the piece that [s] continues can end before [s]. *)
Lemma splitSections_ends (s : str) :
  forall prev l1 piece next l2,
    splitSections prev s = l1 ++ piece :: next :: l2 ->
    exists c,
      isLineTerminator c = true
      /\ ((exists u, piece = u ++ [c])
          \/ (piece = [] /\ l1 = [] /\ prev = Some c)).
Proof.
  induction s as [|x s IH]; intros prev l1 piece next l2 E.
  - cbn [splitSections] in E. destruct l1 as [|a [|b l1]]; discriminate E.
  - cbn [splitSections] in E.
    destruct (splitSections_cons (Some x) s) as (q & qs & Eq).
    assert (H : forall l1,
               consHead x (splitSections (Some x) s)
               = l1 ++ piece :: next :: l2 ->
               exists c, isLineTerminator c = true
                         /\ exists u, piece = u ++ [c]).
    { intros k1 Ek. rewrite Eq in Ek. cbn [consHead] in Ek.
      destruct k1 as [|a k1]; cbn [app] in Ek.
      - injection Ek as <- Eqs.
        destruct (IH (Some x) [] q next l2) as (c & Hc & [[u ->]|(-> & _ & Hp)]).
        { rewrite Eq, Eqs. reflexivity. }
        + exists c. split; [exact Hc|]. exists (x :: u). reflexivity.
        + injection Hp as <-. exists x. split; [exact Hc|].
          exists []. reflexivity.
      - injection Ek as _ Eqs.
        destruct (IH (Some x) (q :: k1) piece next l2)
          as (c & Hc & [[u ->]|(_ & Hnil & _)]).
        { rewrite Eq, Eqs. reflexivity. }
        + exists c. split; [exact Hc|]. exists u. reflexivity.
        + discriminate Hnil. }
    destruct prev as [p|].
    + destruct (sectionStart (Some p) (x :: s)) eqn:Hcut.
      * destruct l1 as [|a l1]; cbn [app] in E.
        -- injection E as <- _. exists p.
           unfold sectionStart in Hcut.
           apply andb_true_iff in Hcut as [Hp _].
           split; [exact Hp|]. right. auto.
        -- injection E as _ E.
           destruct (H l1 E) as (c & Hc & Hu). exists c. auto.
      * destruct (H l1 E) as (c & Hc & Hu). exists c. auto.
    + destruct (H l1 E) as (c & Hc & Hu). exists c. auto.
Qed.

(** The text is not cut at its very start. *)
Lemma splitSections_first (s : str) :
  s <> [] -> exists c q qs, splitSections None s = (c :: q) :: qs.
Proof.
  destruct s as [|c s]; [contradiction|]. intros _.
  cbn [splitSections].
  destruct (splitSections_cons (Some c) s) as (q & qs & ->).
  exists c, q, qs. reflexivity.
Qed.

(** *** The chunks of the sections *)

Lemma infix_trans (a b c : str) : infix a b -> infix b c -> infix a c.
Proof.
  intros (p1 & q1 & ->) (p2 & q2 & ->).
  exists (p2 ++ p1), (q1 ++ q2). rewrite <- !app_assoc. reflexivity.
Qed.

Lemma trim_is_infix (s : str) : infix (trim s) s.
Proof. destruct (trim_infix s) as (pre & post & H). exists pre, post. exact H. Qed.

Lemma mapIndexed_In {A B} (f : A -> nat -> B) (l : list A) (i : nat) (b : B) :
  In b (mapIndexed f i l) ->
  exists a k, In a l /\ b = f a (i + k)%nat.
Proof.
  intros H. apply In_nth_error in H as [k H].
  apply mapIndexed_nth in H as (a & Ha & ->).
  exists a, k. split; [eapply nth_error_In; exact Ha | reflexivity].
Qed.

(** What [markdownSections] gives, section by section. *)
Lemma markdownSections_spec (name : string) (sections : list str) :
  forall index,
  exists chunks,
    markdownSections name index sections = Some chunks
    /\ List.NoDup (map parsedId chunks)
    /\ forall chunk,
        In chunk chunks ->
        exists k section j,
          nth_error sections k = Some section
          /\ parsedId chunk
             = name +:+ "-" +:+ showIndex (index + k)
               +:+ "-" +:+ showIndex j
          /\ parsedPage chunk = Some (Z.of_nat (index + k) + 1)
          /\ parsedLine chunk = None
          /\ parsedSource chunk = Some name
          /\ parsedType chunk = Some "markdown"
          /\ infix (parsedContent chunk) section
          /\ trimmed (parsedContent chunk).
Proof.
  induction sections as [|section rest IH]; intros index.
  - exists []. split; [reflexivity|]. split; [constructor|]. intros c [].
  - destruct (IH (S index)) as (more & Hmore & Hnd & Hin).
    destruct (chunkText_pieces (trim section) 1000 200) as (sub & Hsub & Hf).
    cbn [markdownSections]. unfold chunkTextDefault. rewrite Hsub, Hmore.
    eexists. split; [reflexivity|].
    assert (Hfirst : forall chunk,
               In chunk (mapIndexed (markdownChunk name index) 0 sub) ->
               exists j content,
                 In content sub
                 /\ chunk = markdownChunk name index content j).
    { intros chunk Hc. apply mapIndexed_In in Hc as (content & j & Hc & ->).
      exists (0 + j)%nat, content. auto. }
    split.
    + rewrite map_app. apply List.NoDup_app.
      * rewrite (mapIndexed_map
                   _ parsedId
                   (fun j => name +:+ "-" +:+ showIndex index
                             +:+ "-" +:+ showIndex j)) by reflexivity.
        apply NoDup_map_injective; [|apply List.seq_NoDup].
        intros a b E. apply markdownId_inj in E. tauto.
      * exact Hnd.
      * intros id H1 H2.
        apply in_map_iff in H1 as (c1 & E1 & H1).
        apply in_map_iff in H2 as (c2 & E2 & H2).
        destruct (Hfirst c1 H1) as (j & content & _ & ->).
        destruct (Hin c2 H2) as (k & s2 & j2 & _ & Hid2 & _).
        cbn [markdownChunk parsedId] in E1. rewrite <- E2, Hid2 in E1.
        apply markdownId_inj in E1 as [E1 _]. lia.
    + intros chunk Hc. apply in_app_iff in Hc as [Hc|Hc].
      * destruct (Hfirst chunk Hc) as (j & content & Hcontent & ->).
        exists 0%nat, section, j. rewrite Nat.add_0_r.
        cbn [nth_error markdownChunk parsedId parsedPage parsedLine
             parsedSource parsedType parsedContent].
        pose proof (proj1 (List.Forall_forall _ _) Hf content Hcontent)
          as [Hi Ht].
        repeat split; try assumption.
        -- exact (infix_trans _ _ _ Hi (trim_is_infix section)).
        -- apply Ht.
        -- apply Ht.
      * destruct (Hin chunk Hc)
          as (k & s2 & j & Hk & Hid & Hp & Hl & Hs & Hty & Hi & Ht).
        exists (S k), s2, j. cbn [nth_error].
        replace (index + S k)%nat with (S index + k)%nat by lia.
        repeat split; try assumption; apply Ht.
Qed.

(** X11: [parseMarkdownFile] chunks a markdown file section by section.
    The text is cut exactly before the lines that start with a run of [#]
    followed by white space, and never at its very start: the pieces make
    up the text, none of them is empty unless the text is, every piece but
    the first starts with such a header, every piece but the last ends
    with a line terminator, and wherever a header follows a line
    terminator in the text a piece ends and the next one starts.  Every
    chunk lies inside one of the pieces that are not blank, as it stands
    there and without white space at its ends, and carries the number of
    that piece as its page; the ids of the chunks are pairwise different.
    A text without any [#] is chunked like its trimmed text as a whole. *)
Theorem parseMarkdownFile_sections (name : string) (text : str) :
  let pieces := splitSections None text in
  let sections := List.filter (fun s => nonEmpty (trim s)) pieces in
  exists chunks,
    parseMarkdownFile name text = Some chunks
    /\ concat pieces = text
    /\ Forall (fun piece => headerAhead piece = true) (tl pieces)
    /\ List.NoDup (map parsedId chunks)
    /\ (forall chunk,
           In chunk chunks ->
           exists k section,
             nth_error sections k = Some section
             /\ parsedPage chunk = Some (Z.of_nat k + 1)
             /\ parsedSource chunk = Some name
             /\ parsedType chunk = Some "markdown"
             /\ infix (parsedContent chunk) section
             /\ infix (parsedContent chunk) text
             /\ trimmed (parsedContent chunk))
    /\ (~ In 35%N text ->
        Some (map parsedContent chunks) = chunkTextDefault (trim text))
    /\ (forall pre c n d tail,
           text = pre ++ c :: repeat 35%N (S n) ++ d :: tail ->
           isLineTerminator c = true -> isWhiteSpace d = true ->
           exists k,
             concat (firstn k pieces) = pre ++ [c]
             /\ concat (skipn k pieces) = repeat 35%N (S n) ++ d :: tail)
    /\ (forall l1 piece next l2,
           pieces = l1 ++ piece :: next :: l2 ->
           exists u c, piece = u ++ [c] /\ isLineTerminator c = true)
    /\ (text <> [] -> Forall (fun piece => piece <> []) pieces).
Proof.
  intros pieces sections.
  destruct (markdownSections_spec name sections 0%nat)
    as (chunks & Hc & Hnd & Hin).
  exists chunks. split; [exact Hc|].
  split; [apply splitSections_concat|].
  split; [apply splitSections_headers|].
  split; [exact Hnd|]. split; [|split; [|split; [|split]]].
  - intros chunk Hchunk.
    destruct (Hin chunk Hchunk)
      as (k & section & j & Hk & _ & Hp & _ & Hs & Hty & Hi & Ht).
    exists k, section. repeat split; try assumption; try apply Ht.
    apply (infix_trans _ _ _ Hi).
    apply nth_error_In in Hk. apply filter_In in Hk as [Hk _].
    apply in_split in Hk as (l1 & l2 & Hk).
    exists (concat l1), (concat l2).
    rewrite <- (splitSections_concat text None). fold pieces.
    rewrite Hk, concat_app. reflexivity.
  - intros Hplain. unfold parseMarkdownFile in Hc. fold pieces in Hc.
    fold sections in Hc.
    assert (Hp : pieces = [text]) by (apply splitSections_plain, Hplain).
    unfold sections in Hc. rewrite Hp in Hc. cbn [List.filter] in Hc.
    destruct (nonEmpty (trim text)) eqn:Hne.
    + cbn [markdownSections] in Hc.
      destruct (chunkTextDefault (trim text)) as [sub|]; [|discriminate].
      injection Hc as <-. rewrite app_nil_r.
      rewrite (mapIndexed_content _ parsedContent (fun c => c))
        by reflexivity.
      rewrite map_id. reflexivity.
    + cbn [markdownSections] in Hc. injection Hc as <-.
      destruct (trim text) as [|x l]; [|discriminate Hne].
      reflexivity.
  - intros pre c n d tail Htext Hlt Hws.
    destruct (splitSections_cuts
                pre None c (repeat 35%N (S n) ++ d :: tail) Hlt
                (headerAhead_run n d tail Hws)) as [k Hk].
    rewrite <- Htext in Hk. fold pieces in Hk.
    exists k. split; [exact Hk|].
    pose proof (splitSections_concat text None) as Hall. fold pieces in Hall.
    rewrite <- (firstn_skipn k pieces), concat_app, Hk, Htext in Hall.
    rewrite <- app_assoc in Hall. apply app_inv_head in Hall.
    injection Hall as Hall. exact Hall.
  - intros l1 piece next l2 Hp.
    destruct (splitSections_ends text None l1 piece next l2 Hp)
      as (c & Hlt & [[u ->]|(_ & _ & Hnone)]); [|discriminate Hnone].
    exists u, c. auto.
  - intros Hne.
    destruct (splitSections_first text Hne) as (c & q & qs & E).
    pose proof (splitSections_headers text None) as Hh.
    fold pieces in Hh. unfold pieces in *. rewrite E in *.
    constructor; [discriminate|]. cbn [tl] in Hh.
    eapply List.Forall_impl; [|exact Hh].
    intros piece. apply headerAhead_nonempty.
Qed.

(** The text [intro], line feed, [# A], line feed, [## B]: the header
    after the first line feed starts a piece. *)
Lemma parseMarkdownFile_sections_witness :
  isLineTerminator 10 = true /\ isWhiteSpace 32 = true
  /\ exists k,
      concat (firstn k (splitSections
                          None
                          [105; 110; 116; 114; 111; 10;
                           35; 32; 65; 10; 35; 35; 32; 66]%N))
      = [105; 110; 116; 114; 111; 10]%N
      /\ concat (skipn k (splitSections
                            None
                            [105; 110; 116; 114; 111; 10;
                             35; 32; 65; 10; 35; 35; 32; 66]%N))
         = [35; 32; 65; 10; 35; 35; 32; 66]%N.
Proof.
  split; [reflexivity|]. split; [reflexivity|].
  destruct (parseMarkdownFile_sections
              "notes.md"
              [105; 110; 116; 114; 111; 10;
               35; 32; 65; 10; 35; 35; 32; 66]%N)
    as (chunks & _ & _ & _ & _ & _ & _ & Hcut & _).
  exact (Hcut [105; 110; 116; 114; 111]%N 10%N 0%nat 32%N
              [65; 10; 35; 35; 32; 66]%N eq_refl eq_refl eq_refl).
Defined.

End MarkdownFacts.

Section CSVFacts.
Import Chunker Parser.

Lemma splitOn_cons (sep : N) (s : str) :
  exists piece rest, splitOn sep s = piece :: rest.
Proof.
  induction s as [|c s (q & qs & IH)]; [exists [], []; reflexivity|].
  cbn [splitOn]. destruct (c =? sep)%N; [eauto|].
  rewrite IH. cbn [consHead]. eauto.
Qed.

Lemma splitOn_plain (sep : N) (s : str) :
  ~ In sep s -> splitOn sep s = [s].
Proof.
  induction s as [|c s IH]; intros Hn; [reflexivity|].
  cbn [splitOn]. destruct (N.eqb_spec c sep) as [->|_].
  - exfalso. apply Hn. left. reflexivity.
  - rewrite IH by (intros H; apply Hn; right; exact H). reflexivity.
Qed.

Lemma splitOn_app (sep : N) (a : str) (s : str) :
  ~ In sep a ->
  splitOn sep (a ++ sep :: s) = a :: splitOn sep s.
Proof.
  induction a as [|c a IH]; intros Hn.
  - cbn [app splitOn]. rewrite N.eqb_refl. reflexivity.
  - cbn [app splitOn]. destruct (N.eqb_spec c sep) as [->|_].
    + exfalso. apply Hn. left. reflexivity.
    + rewrite IH by (intros H; apply Hn; right; exact H). reflexivity.
Qed.

(** Splitting what was joined gives the parts back. *)
Lemma splitOn_join (sep : N) (parts : list str) :
  parts <> [] -> Forall (fun a => ~ In sep a) parts ->
  splitOn sep (join [sep] parts) = parts.
Proof.
  induction parts as [|a parts IH]; intros Hne Hf; [contradiction|].
  apply List.Forall_cons_iff in Hf as [Ha Hf].
  destruct parts as [|b parts].
  - cbn [join]. apply splitOn_plain, Ha.
  - change (join [sep] (a :: b :: parts))
      with (a ++ sep :: join [sep] (b :: parts)).
    rewrite splitOn_app by exact Ha.
    rewrite IH by (try discriminate; exact Hf). reflexivity.
Qed.

Lemma join_In (sep : str) (parts : list str) (x : N) :
  In x (join sep parts) -> In x sep \/ exists a, In a parts /\ In x a.
Proof.
  induction parts as [|a parts IH]; [intros []|].
  destruct parts as [|b parts].
  - cbn [join]. intros H. right. exists a. split; [left; reflexivity|exact H].
  - change (join sep (a :: b :: parts))
      with (a ++ sep ++ join sep (b :: parts)).
    rewrite !in_app_iff. intros [H|[H|H]].
    + right. exists a. split; [left; reflexivity | exact H].
    + left. exact H.
    + destruct (IH H) as [H'|(c & Hc & Hx)]; [left; exact H'|].
      right. exists c. split; [right; exact Hc | exact Hx].
Qed.

Lemma In_join (sep : str) (parts : list str) (a : str) (x : N) :
  In a parts -> In x a -> In x (join sep parts).
Proof.
  induction parts as [|b parts IH]; [intros []|].
  intros Ha Hx. destruct parts as [|c parts].
  - destruct Ha as [->|[]]. exact Hx.
  - change (join sep (b :: c :: parts))
      with (b ++ sep ++ join sep (c :: parts)).
    rewrite !in_app_iff. destruct Ha as [->|Ha]; [left; exact Hx|].
    right. right. apply IH; assumption.
Qed.

Lemma dropWhile_dropped {A} (p : A -> bool) (l : list A) :
  exists pre, l = pre ++ dropWhile p l /\ Forall (fun x => p x = true) pre.
Proof.
  induction l as [|x l (pre & IH & Hf)]; [exists []; split; [reflexivity|constructor]|].
  cbn [dropWhile]. destruct (p x) eqn:E.
  - exists (x :: pre). split; [cbn; congruence|]. constructor; assumption.
  - exists []. split; [reflexivity | constructor].
Qed.

(** A string with a code unit that is not white space is not blank. *)
Lemma trim_nonEmpty (s : str) (x : N) :
  In x s -> isWhiteSpace x = false -> nonEmpty (trim s) = true.
Proof.
  intros Hx Hw. destruct (trim s) as [|y l] eqn:E; [|reflexivity].
  exfalso. unfold trim, trimEnd, trimStart in E.
  apply (f_equal (@rev N)) in E. rewrite rev_involutive in E. cbn in E.
  destruct (dropWhile_dropped isWhiteSpace s) as (pre & Hs & Hpre).
  destruct (dropWhile_dropped isWhiteSpace (rev (dropWhile isWhiteSpace s)))
    as (pre' & Hs' & Hpre').
  rewrite E, app_nil_r in Hs'.
  assert (Hall : Forall (fun c => isWhiteSpace c = true) s).
  { rewrite Hs. apply Forall_app. split; [exact Hpre|].
    apply List.Forall_forall. intros c Hc. apply in_rev in Hc.
    rewrite Hs' in Hc.
    exact (proj1 (List.Forall_forall _ _) Hpre' c Hc). }
  pose proof (proj1 (List.Forall_forall _ _) Hall x Hx). congruence.
Qed.

Lemma plainCell_head (c : str) :
  plainCell c -> c <> [] -> exists x, In x c /\ isWhiteSpace x = false.
Proof.
  intros (_ & _ & Ht) Hne. destruct c as [|x l]; [contradiction|].
  destruct (trim_ends (x :: l) x l Ht) as [Hx _].
  exists x. split; [left; reflexivity | exact Hx].
Qed.

(** A line of plain cells: it has no line feed, is not blank when one of
    the cells is not empty, and splits into its cells. *)
Lemma line_of_cells (cells : list str) :
  cells <> [] -> Forall plainCell cells ->
  ~ In newlineUnit (join [commaUnit] cells)
  /\ map trim (splitOn commaUnit (join [commaUnit] cells)) = cells
  /\ ((exists c, In c cells /\ c <> []) ->
      nonEmpty (trim (join [commaUnit] cells)) = true).
Proof.
  intros Hne Hf. split; [|split].
  - intros H. apply join_In in H as [H|(c & Hc & H)].
    + destruct H as [H|[]]. discriminate H.
    + apply (proj1 (List.Forall_forall _ _) Hf c Hc). exact H.
  - rewrite splitOn_join; [|exact Hne|].
    + clear Hne. induction Hf as [|c l Hc Hl IH]; [reflexivity|].
      cbn [map]. rewrite IH. f_equal. apply Hc.
    + eapply List.Forall_impl; [|exact Hf]. intros c Hc. apply Hc.
  - intros (c & Hc & Hcne).
    destruct (plainCell_head c (proj1 (List.Forall_forall _ _) Hf c Hc) Hcne)
      as (x & Hx & Hw).
    apply (trim_nonEmpty _ x); [|exact Hw].
    apply (In_join _ _ c); assumption.
Qed.

Lemma rowData_labelled (headers : list str) :
  forall (values pre : list str),
    length values = length headers ->
    mapIndexed (fun header i => header ++ colonSpace
                                ++ nth i (pre ++ values) [])
               (length pre) headers
    = map (fun hv => fst hv ++ colonSpace ++ snd hv)
          (combine headers values).
Proof.
  induction headers as [|h headers IH]; intros values pre Hl;
    [reflexivity|].
  destruct values as [|v values]; [discriminate Hl|].
  cbn [mapIndexed combine map fst snd].
  rewrite app_nth2 by lia. rewrite Nat.sub_diag. cbn [nth].
  f_equal.
  specialize (IH values (pre ++ [v])).
  rewrite length_app, <- app_assoc in IH. cbn [length app] in IH.
  rewrite Nat.add_1_r in IH. apply IH. simpl in Hl. lia.
Qed.

Lemma csvId_inj (name : string) (n m : nat) :
  name +:+ "-row-" +:+ showIndex n = name +:+ "-row-" +:+ showIndex m ->
  n = m.
Proof.
  intros H. apply append_inj_l in H. apply append_inj_l in H.
  apply showIndex_inj. exact H.
Qed.

Lemma mapIndexed_ext_in {A B} (f g : A -> nat -> B) (l : list A) :
  (forall a k, In a l -> f a k = g a k) ->
  forall i, mapIndexed f i l = mapIndexed g i l.
Proof.
  induction l as [|a l IH]; intros H i; [reflexivity|].
  cbn [mapIndexed]. rewrite H by (left; reflexivity).
  rewrite IH; [reflexivity|]. intros b k Hb. apply H. right. exact Hb.
Qed.

Lemma filter_all {A} (p : A -> bool) (l : list A) :
  Forall (fun a => p a = true) l -> List.filter p l = l.
Proof.
  induction 1 as [|a l Ha Hl IH]; [reflexivity|].
  cbn [List.filter]. rewrite Ha, IH. reflexivity.
Qed.

(** X12: [parseCSVFile] reads a table back.  For a table whose first line
    holds the headers and whose cells hold no comma, no line feed and no
    white space at their ends (every line with a cell that is not empty,
    every row as long as the header line), written with commas between
    the cells and line feeds between the lines, [parseCSVFile] gives one
    chunk per row, in order: its content lists the cells of the row, each
    after its header, its line is the number of the line in the file, its
    id names the file and the row, and the ids are pairwise different. *)
Theorem parseCSVFile_reads_table
        (name : string) (headers : list str) (rows : list (list str)) :
  plainRow (length headers) headers ->
  Forall (plainRow (length headers)) rows ->
  parseCSVFile name (tableText (headers :: rows))
  = mapIndexed
      (fun row index =>
         mkParsed (name +:+ "-row-" +:+ showIndex index)
                  (labelled headers row)
                  (Some name) (Some "csv") None
                  (Some (Z.of_nat index + 2)))
      0 rows
  /\ length (parseCSVFile name (tableText (headers :: rows))) = length rows
  /\ List.NoDup
       (map parsedId (parseCSVFile name (tableText (headers :: rows)))).
Proof.
  intros Hh Hrows.
  assert (Hall : Forall (plainRow (length headers)) (headers :: rows))
    by (constructor; assumption).
  assert (Hcells : forall row,
             plainRow (length headers) row ->
             ~ In newlineUnit (join [commaUnit] row)
             /\ map trim (splitOn commaUnit (join [commaUnit] row)) = row
             /\ nonEmpty (trim (join [commaUnit] row)) = true).
  { intros row (Hlen & Hplain & Hsome).
    assert (Hne : row <> []).
    { destruct Hsome as (c & Hc & _). intros ->. destruct Hc. }
    destruct (line_of_cells row Hne Hplain) as (H1 & H2 & H3). auto. }
  assert (Hlines : List.filter
                     (fun line => nonEmpty (trim line))
                     (splitOn newlineUnit (tableText (headers :: rows)))
                   = map (join [commaUnit]) (headers :: rows)).
  { unfold tableText. rewrite splitOn_join.
    - apply filter_all, List.Forall_forall. intros line Hline.
      apply in_map_iff in Hline as (row & <- & Hrow).
      apply Hcells, (proj1 (List.Forall_forall _ _) Hall row Hrow).
    - discriminate.
    - apply List.Forall_forall. intros line Hline.
      apply in_map_iff in Hline as (row & <- & Hrow).
      apply Hcells, (proj1 (List.Forall_forall _ _) Hall row Hrow). }
  assert (Hgen : forall l,
             Forall (plainRow (length headers)) l ->
             forall i,
               mapIndexed (csvChunk name headers) i
                          (map (join [commaUnit]) l)
               = mapIndexed
                   (fun row index =>
                      mkParsed (name +:+ "-row-" +:+ showIndex index)
                               (labelled headers row)
                               (Some name) (Some "csv") None
                               (Some (Z.of_nat index + 2)))
                   i l).
  { induction 1 as [|row l Hrow Hl IH]; intros i; [reflexivity|].
    cbn [map mapIndexed]. rewrite IH. f_equal. unfold csvChunk.
    rewrite (proj1 (proj2 (Hcells row Hrow))).
    unfold rowData, labelled.
    rewrite <- (rowData_labelled headers row []) by apply Hrow.
    reflexivity. }
  assert (Heq : parseCSVFile name (tableText (headers :: rows))
                = mapIndexed
                    (fun row index =>
                       mkParsed (name +:+ "-row-" +:+ showIndex index)
                                (labelled headers row)
                                (Some name) (Some "csv") None
                                (Some (Z.of_nat index + 2)))
                    0 rows).
  { unfold parseCSVFile. rewrite Hlines. cbn [map tl].
    rewrite (proj1 (proj2 (Hcells headers Hh))).
    apply Hgen, Hrows. }
  split; [exact Heq|]. rewrite Heq. split.
  - rewrite <- (length_map parsedId).
    rewrite (mapIndexed_map
               _ parsedId (fun k => name +:+ "-row-" +:+ showIndex k))
      by reflexivity.
    rewrite length_map, length_seq. reflexivity.
  - rewrite (mapIndexed_map
               _ parsedId (fun k => name +:+ "-row-" +:+ showIndex k))
      by reflexivity.
    apply NoDup_map_injective; [|apply List.seq_NoDup].
    intros n m. apply csvId_inj.
Qed.

Lemma parseCSVFile_reads_table_witness :
  length (parseCSVFile "t.csv"
                       (tableText [[[110; 97]; [110; 98]];
                                   [[49]; [50]];
                                   [[51]; []]]%N))
  = 2%nat.
Proof.
  assert (Hcell : forall c, In c [[110; 97]; [110; 98]; [49]; [50]; [51];
                                  []]%N -> plainCell c).
  { intros c Hc. simpl in Hc.
    repeat (destruct Hc as [<-|Hc];
            [split; [|split; [|reflexivity]]; simpl; intuition discriminate
            |]).
    destruct Hc. }
  assert (Hrow : forall row,
             In row [[[110; 97]; [110; 98]]; [[49]; [50]]; [[51]; []]]%N ->
             plainRow 2 row).
  { intros row Hr. simpl in Hr.
    repeat (destruct Hr as [<-|Hr];
            [split; [reflexivity|];
             split; [apply List.Forall_forall; intros c Hc; apply Hcell;
                     simpl in Hc; simpl; intuition|];
             eexists; split; [left; reflexivity | discriminate]
            |]).
    destruct Hr. }
  refine (proj1 (proj2 (parseCSVFile_reads_table
                          "t.csv" [[110; 97]; [110; 98]]%N
                          [[[49]; [50]]; [[51]; []]]%N _ _))).
  - apply Hrow. simpl. auto.
  - apply List.Forall_forall. intros row Hr. apply Hrow.
    simpl in Hr. simpl. intuition.
Defined.

End CSVFacts.

Section CanvasStoreMoreFacts.
Import CanvasStore.

Lemma saveCanvas_state (now : Z) (s : State) (db : Storage) :
  nodes (fst (saveCanvas now (s, db))) = nodes s
  /\ edges (fst (saveCanvas now (s, db))) = edges s
  /\ viewport (fst (saveCanvas now (s, db))) = viewport s
  /\ isLoadingSession (fst (saveCanvas now (s, db))) = isLoadingSession s
  /\ isCreatingSession (fst (saveCanvas now (s, db))) = isCreatingSession s.
Proof.
  unfold saveCanvas.
  destruct (isLoadingSession s) eqn:El; [simpl; auto|].
  destruct ((length (nodes s) =? 0)%nat && (length (edges s) =? 0)%nat);
    [simpl; auto|].
  destruct (negb (truthy (currentSessionId s))); simpl; auto.
Qed.

Lemma filter_id {A} (f : A -> bool) (l : list A) :
  Forall (fun a => f a = true) l -> List.filter f l = l.
Proof.
  induction 1 as [|a l Ha _ IH]; [reflexivity|].
  cbn [List.filter]. rewrite Ha, IH. reflexivity.
Qed.

(** X13: Deleting a node removes it and every edge that touches it, and
    nothing else: the nodes and the edges that are left are those of
    before without the deleted ones, in the order and the number they had
    (when one node carries the id, the list of nodes closes up around
    it; edges that do not touch the node are all kept).  A canvas whose
    edges all ran between its nodes stays so. *)
Theorem deleteNode_no_dangling (now : Z) (id : string)
        (s : State) (db : Storage) :
  let s' := fst (deleteNode now id (s, db)) in
  ~ In id (map nodeId (nodes s'))
  /\ (forall e, In e (edges s') -> source e <> id /\ target e <> id)
  /\ (forall n, In n (nodes s') <-> In n (nodes s) /\ nodeId n <> id)
  /\ (forall e, In e (edges s')
                <-> In e (edges s) /\ source e <> id /\ target e <> id)
  /\ (wellFormed s -> wellFormed s')
  /\ nodes s'
     = List.filter (fun n => negb (String.eqb (nodeId n) id)) (nodes s)
  /\ edges s'
     = List.filter (fun e => negb (String.eqb (source e) id)
                             && negb (String.eqb (target e) id))
                   (edges s)
  /\ (forall l1 n l2,
        nodes s = l1 ++ n :: l2 -> nodeId n = id ->
        ~ In id (map nodeId (l1 ++ l2)) ->
        nodes s' = l1 ++ l2)
  /\ (forall l1 e l2,
        edges s = l1 ++ e :: l2 -> source e = id \/ target e = id ->
        Forall (fun e' => source e' <> id /\ target e' <> id) (l1 ++ l2) ->
        edges s' = l1 ++ l2)
  /\ (~ In id (map nodeId (nodes s)) ->
      Forall (fun e => source e <> id /\ target e <> id) (edges s) ->
      nodes s' = nodes s /\ edges s' = edges s).
Proof.
  intros s'. subst s'. unfold deleteNode.
  match goal with
  | |- context [saveCanvas now (?x, db)] =>
      destruct (saveCanvas_state now x db) as (Hn & He & _);
      set (w := saveCanvas now (x, db)) in *
  end.
  simpl in Hn, He.
  assert (Nspec : forall n, In n (nodes (fst w))
                            <-> In n (nodes s) /\ nodeId n <> id).
  { intros n. rewrite Hn, filter_In, negb_true_iff, String.eqb_neq. tauto. }
  assert (Espec : forall e, In e (edges (fst w))
                            <-> In e (edges s)
                                /\ source e <> id /\ target e <> id).
  { intros e. rewrite He, filter_In, andb_true_iff, !negb_true_iff,
      !String.eqb_neq. tauto. }
  assert (Nkeep : forall l,
             ~ In id (map nodeId l) ->
             List.filter (fun n => negb (String.eqb (nodeId n) id)) l = l).
  { intros l Hl. apply filter_id, List.Forall_forall. intros n Hin.
    apply negb_true_iff, String.eqb_neq. intros E. apply Hl.
    apply in_map_iff. exists n. auto. }
  assert (Ekeep : forall l,
             Forall (fun e => source e <> id /\ target e <> id) l ->
             List.filter (fun e => negb (String.eqb (source e) id)
                                   && negb (String.eqb (target e) id)) l
             = l).
  { intros l Hl. apply filter_id. eapply List.Forall_impl; [|exact Hl].
    intros e [H1 H2]. apply andb_true_iff.
    split; apply negb_true_iff, String.eqb_neq; assumption. }
  split; [|split; [|split; [|split; [|split; [|split; [|split;
    [|split; [|split]]]]]]]].
  - intros Hin. apply in_map_iff in Hin as (n & E & Hin).
    apply Nspec in Hin. tauto.
  - intros e Hin. apply Espec in Hin. tauto.
  - exact Nspec.
  - exact Espec.
  - intros Hwf e Hin. apply Espec in Hin as (Hin & Hs & Ht).
    destruct (Hwf e Hin) as [H1 H2].
    apply in_map_iff in H1 as (n1 & E1 & Hn1).
    apply in_map_iff in H2 as (n2 & E2 & Hn2).
    split; apply in_map_iff; [exists n1 | exists n2];
      (split; [assumption|]); apply Nspec; split; congruence.
  - exact Hn.
  - exact He.
  - intros l1 n l2 Hs Hid Hothers. rewrite Hn, Hs.
    rewrite map_app, in_app_iff in Hothers.
    rewrite List.filter_app. cbn [List.filter].
    rewrite Hid, String.eqb_refl. cbn [negb].
    rewrite !Nkeep by tauto. reflexivity.
  - intros l1 e l2 Hs Htouch Hothers. rewrite He, Hs.
    apply Forall_app in Hothers as [H1 H2].
    rewrite List.filter_app. cbn [List.filter].
    assert (Hdrop : negb (String.eqb (source e) id)
                    && negb (String.eqb (target e) id) = false).
    { destruct Htouch as [->| ->]; rewrite String.eqb_refl;
        cbn [negb andb]; [reflexivity | apply andb_false_r]. }
    rewrite Hdrop, !Ekeep by assumption. reflexivity.
  - intros Hnone Hfree. rewrite Hn, He.
    split; [apply Nkeep; exact Hnone | apply Ekeep; exact Hfree].
Qed.

Lemma deleteNode_no_dangling_witness :
  wellFormed (fst Example.world4)
  /\ wellFormed (fst (deleteNode 200 "memory-node-1"
                                 (fst Example.world4, snd Example.world4)))
  /\ nodes (fst (deleteNode 200 "memory-node-1"
                            (fst Example.world4, snd Example.world4)))
     = [Example.receiver; Example.donor2]
  /\ edges (fst (deleteNode 200 "memory-node-1"
                            (fst Example.world4, snd Example.world4)))
     = [Example.edge2].
Proof.
  assert (Hn : nodes (fst Example.world4)
               = [Example.receiver; Example.memoryNode; Example.donor2])
    by reflexivity.
  assert (He : edges (fst Example.world4)
               = [Example.ragEdge; Example.edge2; Example.ragEdge2])
    by reflexivity.
  assert (H : wellFormed (fst Example.world4)).
  { intros e Hin. rewrite He in Hin. rewrite Hn.
    destruct Hin as [<-|[<-|[<-|[]]]]; cbn; auto 6. }
  split; [exact H|].
  destruct (deleteNode_no_dangling
              200 "memory-node-1" (fst Example.world4) (snd Example.world4))
    as (_ & _ & _ & _ & Hw & Hns & Hes & _).
  split; [exact (Hw H)|].
  rewrite Hns, Hes, Hn, He. split; reflexivity.
Defined.

Lemma lookup_saveCanvasSession id k r (db : Storage) :
  getCanvasSession k (saveCanvasSession id r db)
  = if String.eqb id k then Some r else getCanvasSession k db.
Proof.
  unfold getCanvasSession, saveCanvasSession. simpl.
  destruct (String.eqb_spec id k) as [->|E].
  - apply lookup_insert_eq.
  - apply lookup_insert_ne. exact E.
Qed.

(** What a save that is not skipped writes and sets. *)
Lemma saveCanvas_written (now : Z) (s : State) (db : Storage) (id : string) :
  isLoadingSession s = false ->
  nodes s <> [] \/ edges s <> [] ->
  currentSessionId s = Some id -> id <> EmptyString ->
  exists r,
    snd (saveCanvas now (s, db)) = saveCanvasSession id r db
    /\ sessionId r = id /\ updatedAt r = now
    /\ sessionState r = snapshot s
    /\ currentSessionId (fst (saveCanvas now (s, db))) = Some id
    /\ sessions (fst (saveCanvas now (s, db)))
       = sort byUpdatedAt
              (getAllCanvasSessions (saveCanvasSession id r db)).
Proof.
  intros Hl Hne Hc Hid. unfold saveCanvas. rewrite Hl, Hc.
  assert (E : (length (nodes s) =? 0)%nat && (length (edges s) =? 0)%nat
              = false).
  { destruct Hne as [H|H]; [destruct (nodes s) | destruct (edges s)];
      try contradiction; simpl; rewrite ?andb_false_r; reflexivity. }
  rewrite E. simpl truthy. simpl orElse.
  destruct (String.eqb_spec id EmptyString); [contradiction|].
  simpl negb. cbv iota.
  eexists. split; [reflexivity|]. simpl. auto 6.
Qed.

Lemma saveCanvas_skipped (now : Z) (s : State) (db : Storage) :
  currentSessionId s = None -> saveCanvas now (s, db) = (s, db).
Proof.
  intros Hc. unfold saveCanvas. rewrite Hc.
  destruct (isLoadingSession s); [reflexivity|].
  destruct (_ && _); reflexivity.
Qed.

Lemma byUpdatedAt_sorted (l : list CanvasSessionData) :
  newestFirst (sort byUpdatedAt l).
Proof.
  apply (sort_sorted byUpdatedAt (fun a b => updatedAt b <= updatedAt a)).
  - intros a b c H1 H2. lia.
  - intros a b H. unfold byUpdatedAt in H. apply Z.ltb_lt in H. lia.
  - intros a b H. unfold byUpdatedAt in H. apply Z.ltb_ge in H. lia.
Qed.

(** X14: After a save that writes, and after a load that finds its session,
    the list of sessions of the store is the list of the stored sessions,
    newest first. *)
Theorem sessions_mirror_storage (now : Z) (s : State) (db : Storage)
        (id : string) :
  (isLoadingSession s = false ->
   nodes s <> [] \/ edges s <> [] ->
   currentSessionId s = Some id -> id <> EmptyString ->
   let w := saveCanvas now (s, db) in
   Permutation (sessions (fst w)) (getAllCanvasSessions (snd w))
   /\ newestFirst (sessions (fst w))
   /\ exists r, In r (sessions (fst w))
                /\ sessionId r = id /\ updatedAt r = now)
  /\ (forall session,
        getCanvasSession id db = Some session ->
        let w := loadSession id (s, db) in
        Permutation (sessions (fst w)) (getAllCanvasSessions db)
        /\ newestFirst (sessions (fst w))
        /\ In session (sessions (fst w))).
Proof.
  split.
  - intros Hl Hne Hc Hid w.
    destruct (saveCanvas_written now s db id Hl Hne Hc Hid)
      as (r & Hdb & Hr1 & Hr2 & _ & _ & Hs).
    fold w in Hdb, Hs. rewrite Hs, Hdb.
    split; [apply sort_perm|]. split; [apply byUpdatedAt_sorted|].
    exists r. split; [|split; assumption].
    eapply Permutation_in; [symmetry; apply sort_perm|].
    unfold getAllCanvasSessions. apply in_map_iff.
    exists (id, r). split; [reflexivity|].
    apply list_elem_of_In, elem_of_map_to_list.
    unfold saveCanvasSession; simpl. apply lookup_insert_eq.
  - intros session Hs w. subst w. unfold loadSession. rewrite Hs. simpl.
    split; [apply sort_perm|]. split; [apply byUpdatedAt_sorted|].
    eapply Permutation_in; [symmetry; apply sort_perm|].
    unfold getAllCanvasSessions. apply in_map_iff.
    exists (id, session). split; [reflexivity|].
    apply list_elem_of_In, elem_of_map_to_list. exact Hs.
Qed.

End CanvasStoreMoreFacts.

Section CanvasSessionFacts.
Import CanvasStore.

Lemma canvasId_nonempty (now : Z) : "canvas-" +:+ showZ now <> EmptyString.
Proof. rewrite append_cons. discriminate. Qed.

Lemma snapshot_saveCanvas (now : Z) (s : State) (db : Storage) :
  snapshot (fst (saveCanvas now (s, db))) = snapshot s.
Proof.
  destruct (saveCanvas_state now s db) as (Hn & He & Hv & _).
  unfold snapshot. rewrite Hn, He, Hv. reflexivity.
Qed.

Lemma add_unfold (now : Z) (a : Addition) (s : State) (db : Storage) :
  add now a (s, db) = ensureSessionAndSave now (added a s, db).
Proof. destruct a; reflexivity. Qed.

Lemma added_nonempty (a : Addition) (s : State) :
  nodes (added a s) <> [] \/ edges (added a s) <> [].
Proof.
  destruct a; [left | right]; simpl; intros H;
    apply app_eq_nil in H as [_ H]; discriminate.
Qed.

Lemma added_fields (a : Addition) (now : Z) (s : State) :
  nodes (added a s) = nodes s ++ addedNodes [(a, now)]
  /\ edges (added a s) = edges s ++ addedEdges [(a, now)]
  /\ currentSessionId (added a s) = currentSessionId s
  /\ isLoadingSession (added a s) = isLoadingSession s
  /\ isCreatingSession (added a s) = isCreatingSession s.
Proof. destruct a; simpl; rewrite ?app_nil_r; auto. Qed.

(** One addition while a session is current. *)
Lemma add_with_session (now : Z) (a : Addition) (s : State) (db : Storage)
      (id : string) :
  currentSessionId s = Some id -> id <> EmptyString ->
  isLoadingSession s = false ->
  let w := add now a (s, db) in
  currentSessionId (fst w) = Some id
  /\ isLoadingSession (fst w) = false
  /\ nodes (fst w) = nodes s ++ addedNodes [(a, now)]
  /\ edges (fst w) = edges s ++ addedEdges [(a, now)]
  /\ (exists r, getCanvasSession id (snd w) = Some r
                /\ sessionId r = id /\ updatedAt r = now
                /\ sessionState r = snapshot (fst w))
  /\ (forall k, k <> id ->
                getCanvasSession k (snd w) = getCanvasSession k db)
  /\ vectorStores (snd w) = vectorStores db.
Proof.
  intros Hc Hid Hl w. subst w. rewrite add_unfold.
  destruct (added_fields a now s) as (Hn & He & Hc' & Hl' & _).
  rewrite Hc in Hc'. rewrite Hl in Hl'.
  unfold ensureSessionAndSave. cbn [fst]. rewrite Hc', (truthy_Some _ Hid).
  destruct (saveCanvas_written now (added a s) db id Hl'
                               (added_nonempty a s) Hc' Hid)
    as (r & Hdb & Hr1 & Hr2 & Hr3 & Hcur & _).
  destruct (saveCanvas_state now (added a s) db) as (Sn & Se & _ & Sl & _).
  rewrite Hcur, Sl, Sn, Se, Hdb, snapshot_saveCanvas.
  repeat split; auto.
  - exists r. rewrite lookup_saveCanvasSession, String.eqb_refl. auto.
  - intros k Hk. rewrite lookup_saveCanvasSession.
    destruct (String.eqb_spec id k); [congruence | reflexivity].
Qed.

(** The first addition, when no session is current. *)
Lemma add_creates_session (now : Z) (a : Addition) (s : State)
      (db : Storage) :
  currentSessionId s = None -> isLoadingSession s = false ->
  isCreatingSession s = false ->
  let id := "canvas-" +:+ showZ now in
  let w := add now a (s, db) in
  currentSessionId (fst w) = Some id
  /\ isLoadingSession (fst w) = false
  /\ nodes (fst w) = nodes s ++ addedNodes [(a, now)]
  /\ edges (fst w) = edges s ++ addedEdges [(a, now)]
  /\ (exists r, getCanvasSession id (snd w) = Some r
                /\ sessionId r = id /\ updatedAt r = now
                /\ sessionState r = snapshot (fst w))
  /\ (forall k, k <> id ->
                getCanvasSession k (snd w) = getCanvasSession k db)
  /\ vectorStores (snd w) = vectorStores db.
Proof.
  intros Hc Hl Hcr id w. subst w. rewrite add_unfold.
  destruct (added_fields a now s) as (Hn & He & Hc' & Hl' & Hcr').
  rewrite Hc in Hc'. rewrite Hl in Hl'. rewrite Hcr in Hcr'.
  pose proof (canvasId_nonempty now) as Hid. fold id in Hid.
  unfold ensureSessionAndSave. cbn [fst]. rewrite Hc'. cbn [truthy].
  unfold createSession. rewrite Hc', Hcr'. cbn [truthy].
  cbn [fst currentSessionId]. fold id. rewrite (truthy_Some _ Hid).
  match goal with
  | |- context [saveCanvas now (?x, ?d)] =>
      set (s1 := x); set (db1 := d)
  end.
  assert (Hl1 : isLoadingSession s1 = false) by exact Hl'.
  assert (Hne1 : nodes s1 <> [] \/ edges s1 <> [])
    by exact (added_nonempty a s).
  destruct (saveCanvas_written now s1 db1 id Hl1 Hne1 eq_refl Hid)
    as (r & Hdb & Hr1 & Hr2 & Hr3 & Hcur & _).
  destruct (saveCanvas_state now s1 db1) as (Sn & Se & _ & Sl & _).
  rewrite Hcur, Sl, Sn, Se, Hdb, snapshot_saveCanvas.
  repeat split; auto.
  - exists r. rewrite lookup_saveCanvasSession, String.eqb_refl. auto.
  - intros k Hk. rewrite lookup_saveCanvasSession.
    destruct (String.eqb_spec id k); [congruence|].
    unfold db1. rewrite lookup_saveCanvasSession.
    destruct (String.eqb_spec id k); [congruence | reflexivity].
Qed.

Lemma added_cons (x : Addition * Z) (l : list (Addition * Z)) :
  addedNodes (x :: l) = addedNodes [x] ++ addedNodes l
  /\ addedEdges (x :: l) = addedEdges [x] ++ addedEdges l.
Proof.
  unfold addedNodes, addedEdges. simpl. rewrite !app_nil_r. auto.
Qed.

Lemma last_cons_default (l : list Z) (t d : Z) :
  List.last (t :: l) d = List.last l t.
Proof.
  revert t d. induction l as [|z l IH]; intros t d; [reflexivity|].
  change (List.last (t :: z :: l) d) with (List.last (z :: l) d).
  rewrite !IH. reflexivity.
Qed.

Lemma addAll_with_session (l : list (Addition * Z)) :
  forall (s : State) (db : Storage) (id : string),
    currentSessionId s = Some id -> id <> EmptyString ->
    isLoadingSession s = false ->
    let w := addAll l (s, db) in
    currentSessionId (fst w) = Some id
    /\ nodes (fst w) = nodes s ++ addedNodes l
    /\ edges (fst w) = edges s ++ addedEdges l
    /\ (forall r0 t0,
          getCanvasSession id db = Some r0 -> sessionId r0 = id ->
          updatedAt r0 = t0 -> sessionState r0 = snapshot s ->
          exists r, getCanvasSession id (snd w) = Some r
                    /\ sessionId r = id
                    /\ updatedAt r = List.last (map snd l) t0
                    /\ sessionState r = snapshot (fst w))
    /\ (forall k, k <> id ->
                  getCanvasSession k (snd w) = getCanvasSession k db)
    /\ vectorStores (snd w) = vectorStores db.
Proof.
  induction l as [|[a t] l IH]; intros s db id Hc Hid Hl w.
  - subst w. simpl. rewrite !app_nil_r. repeat split; auto.
    intros r0 t0 H1 H2 H3 H4. exists r0. auto.
  - subst w. unfold addAll. cbn [fold_left fst snd].
    destruct (add_with_session t a s db id Hc Hid Hl)
      as (Hc1 & Hl1 & Hn1 & He1 & (r1 & Hr1 & Hr1a & Hr1b & Hr1c)
          & Hfr1 & Hvs1).
    destruct (add t a (s, db)) as [s1 db1] eqn:Ew. cbn [fst snd] in *.
    destruct (IH s1 db1 id Hc1 Hid Hl1) as (Hc2 & Hn2 & He2 & Hr2 & Hfr2 & Hvs2).
    fold (addAll l (s1, db1)).
    split; [exact Hc2|]. split.
    { rewrite (proj1 (added_cons (a, t) l)), Hn2, Hn1, <- app_assoc. reflexivity. }
    split.
    { rewrite (proj2 (added_cons (a, t) l)), He2, He1, <- app_assoc. reflexivity. }
    split.
    { intros r0 t0 _ _ _ _.
      destruct (Hr2 r1 t Hr1 Hr1a Hr1b Hr1c) as (r & G1 & G2 & G3 & G4).
      exists r. repeat split; auto.
      rewrite G3. cbn [map snd]. symmetry. apply last_cons_default. }
    split.
    { intros k Hk. rewrite Hfr2, Hfr1 by exact Hk. reflexivity. }
    congruence.
Qed.

(** X15: The session of a canvas is created by the first node or edge added
    while none is current, named after the time of that addition; every
    later addition is saved into that same session.  After any run of
    additions the store holds all added nodes and edges in order, the one
    session record holds exactly that canvas with the time of the last
    addition, and no other record of the persistent store has changed. *)
Theorem session_created_by_first_addition
        (a : Addition) (t : Z) (rest : list (Addition * Z))
        (s : State) (db : Storage) :
  currentSessionId s = None -> isLoadingSession s = false ->
  isCreatingSession s = false ->
  let id := "canvas-" +:+ showZ t in
  let w := addAll ((a, t) :: rest) (s, db) in
  currentSessionId (fst w) = Some id
  /\ nodes (fst w) = nodes s ++ addedNodes ((a, t) :: rest)
  /\ edges (fst w) = edges s ++ addedEdges ((a, t) :: rest)
  /\ (exists r, getCanvasSession id (snd w) = Some r
                /\ sessionId r = id
                /\ updatedAt r = List.last (map snd rest) t
                /\ sessionState r = snapshot (fst w))
  /\ (forall k, k <> id ->
                getCanvasSession k (snd w) = getCanvasSession k db)
  /\ vectorStores (snd w) = vectorStores db.
Proof.
  intros Hc Hl Hcr id w. subst w. unfold addAll. cbn [fold_left fst snd].
  destruct (add_creates_session t a s db Hc Hl Hcr)
    as (Hc1 & Hl1 & Hn1 & He1 & (r1 & Hr1 & Hr1a & Hr1b & Hr1c)
        & Hfr1 & Hvs1).
  fold id in Hc1, Hr1, Hr1a, Hfr1.
  pose proof (canvasId_nonempty t) as Hid. fold id in Hid.
  destruct (add t a (s, db)) as [s1 db1] eqn:Ew. cbn [fst snd] in *.
  destruct (addAll_with_session rest s1 db1 id Hc1 Hid Hl1)
    as (Hc2 & Hn2 & He2 & Hr2 & Hfr2 & Hvs2).
  fold (addAll rest (s1, db1)).
  split; [exact Hc2|]. split.
  { rewrite (proj1 (added_cons (a, t) rest)), Hn2, Hn1, <- app_assoc. reflexivity. }
  split.
  { rewrite (proj2 (added_cons (a, t) rest)), He2, He1, <- app_assoc. reflexivity. }
  split.
  { exact (Hr2 r1 t Hr1 Hr1a Hr1b Hr1c). }
  split.
  { intros k Hk. rewrite Hfr2, Hfr1 by exact Hk. reflexivity. }
  congruence.
Qed.

Lemma session_created_by_first_addition_witness :
  currentSessionId
    (fst (addAll [(AddNode Example.receiver, 100);
                  (AddNode Example.donor1, 105);
                  (AddEdge Example.edge1, 110)]
                 (initialState, Example.emptyStorage)))
  = Some ("canvas-" +:+ showZ 100).
Proof.
  exact (proj1 (session_created_by_first_addition
                  (AddNode Example.receiver) 100
                  [(AddNode Example.donor1, 105);
                   (AddEdge Example.edge1, 110)]
                  initialState Example.emptyStorage
                  eq_refl eq_refl eq_refl)).
Defined.

(** ** Saving and loading again *)

Lemma orElse_nonempty (o : option string) (d : string) :
  d <> EmptyString -> orElse o d <> EmptyString.
Proof.
  intros Hd. destruct o as [t|]; simpl; [|exact Hd].
  destruct (String.eqb_spec t EmptyString); assumption.
Qed.

Lemma numOr_fix (n : option R) (d : R) :
  d <> 0%R -> numOr (Some (numOr n d)) d = numOr n d.
Proof.
  intros Hd. unfold numOr at 1.
  destruct (Req_dec_T (numOr n d) 0) as [E|E]; [|reflexivity].
  exfalso. revert E. unfold numOr. destruct n as [x|]; [|exact Hd].
  destruct (Req_dec_T x 0); assumption.
Qed.

Lemma toCanvasNode_toFlowNode (n : Node) :
  toCanvasNode (toFlowNode (toCanvasNode n)) = toCanvasNode n.
Proof.
  unfold toCanvasNode at 1, toFlowNode.
  cbn [nodeId nodeType position data style styleWidth styleHeight].
  unfold toCanvasNode.
  cbn [cnId cnType cnPosition cnSize cnData width height].
  assert (Hc : "chat" <> EmptyString) by discriminate.
  rewrite !(orElse_Some _ _ (orElse_nonempty _ _ Hc)).
  rewrite !numOr_fix by lra.
  reflexivity.
Qed.

(** X16: What a save writes, a load reads back.  After [saveCanvas] has
    written the current session, [loadSession] of that session restores
    the nodes with their ids, positions, data and types (a missing type
    read as chat), the edges with their ids and endpoints, and the
    viewport; it leaves the persistent store as the save left it, and a
    further save of the restored canvas would store the same nodes. *)
Theorem save_then_load_restores
        (now : Z) (s s0 : State) (db : Storage) (id : string) :
  isLoadingSession s = false ->
  nodes s <> [] \/ edges s <> [] ->
  currentSessionId s = Some id -> id <> EmptyString ->
  let db' := snd (saveCanvas now (s, db)) in
  let w := loadSession id (s0, db') in
  snd w = db'
  /\ currentSessionId (fst w) = Some id
  /\ viewport (fst w) = viewport s
  /\ map nodeId (nodes (fst w)) = map nodeId (nodes s)
  /\ map position (nodes (fst w)) = map position (nodes s)
  /\ map data (nodes (fst w)) = map data (nodes s)
  /\ map nodeType (nodes (fst w))
     = map (fun n => Some (orElse (nodeType n) "chat")) (nodes s)
  /\ map edgeId (edges (fst w)) = map edgeId (edges s)
  /\ map source (edges (fst w)) = map source (edges s)
  /\ map target (edges (fst w)) = map target (edges s)
  /\ csNodes (snapshot (fst w)) = csNodes (snapshot s).
Proof.
  intros Hl Hne Hc Hid db' w.
  destruct (saveCanvas_written now s db id Hl Hne Hc Hid)
    as (r & Hdb & Hr1 & Hr2 & Hr3 & _).
  fold db' in Hdb.
  assert (Hget : getCanvasSession id db' = Some r).
  { rewrite Hdb, lookup_saveCanvasSession, String.eqb_refl. reflexivity. }
  subst w. unfold loadSession. rewrite Hget, Hr3.
  cbn [fst snd nodes edges viewport currentSessionId snapshot
       csNodes csEdges csViewport].
  rewrite !map_map.
  assert (Hedge : forall f : Edge -> string,
             (forall ns e, f (toFlowEdge ns (toCanvasEdge e)) = f e) ->
             map (fun e => f (toFlowEdge (map toCanvasNode (nodes s))
                                         (toCanvasEdge e))) (edges s)
             = map f (edges s)).
  { intros f Hf. apply map_ext. intros e. apply Hf. }
  assert (Hsplit : forall ns e,
             edgeId (toFlowEdge ns (toCanvasEdge e)) = edgeId e
             /\ source (toFlowEdge ns (toCanvasEdge e)) = source e
             /\ target (toFlowEdge ns (toCanvasEdge e)) = target e).
  { intros ns e. unfold toFlowEdge. destruct (_ && _); simpl; auto. }
  repeat split; try reflexivity.
  - apply map_ext. intros n. unfold toFlowNode, toCanvasNode.
    cbn [nodeType cnType].
    rewrite orElse_Some; [reflexivity|].
    apply orElse_nonempty. discriminate.
  - apply Hedge. intros; apply Hsplit.
  - apply Hedge. intros; apply Hsplit.
  - apply Hedge. intros; apply Hsplit.
  - apply map_ext. intros n. apply toCanvasNode_toFlowNode.
Qed.

Lemma save_then_load_restores_witness :
  map nodeId
      (nodes (fst (loadSession
                     "canvas-100"
                     (initialState,
                      snd (saveCanvas 200 (fst Example.world1,
                                           snd Example.world1))))))
  = map nodeId (nodes (fst Example.world1)).
Proof.
  assert (Hn : nodes (fst Example.world1) <> []).
  { change (nodes (fst Example.world1)) with [Example.receiver].
    discriminate. }
  assert (Hid : "canvas-100" <> EmptyString) by discriminate.
  exact (proj1 (proj2 (proj2 (proj2
           (save_then_load_restores
              200 (fst Example.world1) initialState (snd Example.world1)
              "canvas-100" eq_refl (or_introl Hn) eq_refl Hid))))).
Defined.

(** ** Only the current session is written *)

Lemma saveCanvas_frame_others (now : Z) (s : State) (db : Storage) :
  let w := saveCanvas now (s, db) in
  currentSessionId (fst w) = currentSessionId s
  /\ (forall k, Some k <> currentSessionId s ->
                getCanvasSession k (snd w) = getCanvasSession k db)
  /\ vectorStores (snd w) = vectorStores db
  /\ (truthy (currentSessionId s) = false -> snd w = db).
Proof.
  intros w. subst w. unfold saveCanvas.
  destruct (isLoadingSession s); [cbn [fst snd]; auto|].
  destruct (_ && _); [cbn [fst snd]; auto|].
  destruct (truthy (currentSessionId s)) eqn:Et;
    [|cbn [negb fst snd]; auto].
  destruct (currentSessionId s) as [id|] eqn:Ec; [|discriminate Et].
  assert (Hid : id <> EmptyString).
  { intros ->. discriminate Et. }
  cbn [negb]. cbv iota. rewrite (orElse_Some _ _ Hid).
  cbn [fst snd currentSessionId setSession].
  split; [reflexivity|]. split; [|split; [reflexivity | discriminate]].
  intros k Hk. rewrite lookup_saveCanvasSession.
  destruct (String.eqb_spec id k); [congruence | reflexivity].
Qed.

Lemma mutate_frame (now : Z) (m : Mutation) (w : World) :
  currentSessionId (fst (mutate now m w)) = currentSessionId (fst w)
  /\ (forall k, Some k <> currentSessionId (fst w) ->
                getCanvasSession k (snd (mutate now m w))
                = getCanvasSession k (snd w))
  /\ vectorStores (snd (mutate now m w)) = vectorStores (snd w)
  /\ (truthy (currentSessionId (fst w)) = false ->
      snd (mutate now m w) = snd w).
Proof.
  destruct w as [s db].
  destruct m; cbn [mutate setNodes setEdges setViewport updateNode
                     deleteNode deleteEdge fst snd];
    match goal with
    | |- context [saveCanvas now (?x, db)] =>
        exact (saveCanvas_frame_others now x db)
    end.
Qed.

Lemma run_frame
        (ms : list (Mutation * Z)) (s : State) (db : Storage) :
  let w := run ms (s, db) in
  currentSessionId (fst w) = currentSessionId s
  /\ (forall k, Some k <> currentSessionId s ->
                getCanvasSession k (snd w) = getCanvasSession k db)
  /\ vectorStores (snd w) = vectorStores db
  /\ (truthy (currentSessionId s) = false -> snd w = db).
Proof.
  revert s db. induction ms as [|[m t] ms IH]; intros s db w.
  - subst w. simpl. auto.
  - subst w. unfold run. cbn [fold_left fst snd].
    destruct (mutate_frame t m (s, db)) as (F1 & F2 & F3 & F4).
    cbn [fst snd] in *.
    destruct (mutate t m (s, db)) as [s1 db1] eqn:Ew. cbn [fst snd] in *.
    destruct (IH s1 db1) as (G1 & G2 & G3 & G4).
    fold (run ms (s1, db1)).
    split; [congruence|]. split; [|split; [congruence|]].
    + intros k Hk. rewrite G2 by (rewrite F1; exact Hk). apply F2, Hk.
    + intros Ht. rewrite G4 by (rewrite F1; exact Ht). apply F4, Ht.
Qed.

(** X17: Edits of the canvas only ever write the record of the current
    session.  Through any run of mutations (setNodes, setEdges,
    setViewport, updateNode, deleteNode, deleteEdge, saveCanvas) the
    current session stays the same, the record of every other session is
    left as it was, and so are the stored vector indexes; with no current
    session nothing is written at all. *)
Theorem edits_touch_only_current_session
        (ms : list (Mutation * Z)) (s : State) (db : Storage) :
  let w := run ms (s, db) in
  currentSessionId (fst w) = currentSessionId s
  /\ (forall k, Some k <> currentSessionId s ->
                getCanvasSession k (snd w) = getCanvasSession k db)
  /\ vectorStores (snd w) = vectorStores db
  /\ (truthy (currentSessionId s) = false -> snd w = db).
Proof. exact (run_frame ms s db). Qed.


End CanvasSessionFacts.

Section ConnectFacts.
Import CanvasStore CanvasMode.

Lemma setEdges_nodes now es (w : World) :
  nodes (fst (setEdges now es w)) = nodes (fst w).
Proof.
  destruct w as [s db]. unfold setEdges.
  destruct (saveCanvas_state now (setEdgesField es s) db) as (Hn & _).
  rewrite Hn. reflexivity.
Qed.

Lemma updateNode_nodes now id updates (w : World) :
  nodes (fst (updateNode now id updates w))
  = map (fun node => if String.eqb (nodeId node) id
                     then applyUpdates updates node else node)
        (nodes (fst w)).
Proof.
  destruct w as [s db]. unfold updateNode.
  match goal with
  | |- context [saveCanvas now (?x, db)] =>
      destruct (saveCanvas_state now x db) as (Hn & _)
  end.
  rewrite Hn. reflexivity.
Qed.

Lemma findNode_updated (updates : NodeUpdates) (id : string)
      (ns : list Node) :
  findNode (map (fun node => if String.eqb (nodeId node) id
                             then applyUpdates updates node else node) ns)
           id
  = option_map (applyUpdates updates) (findNode ns id).
Proof.
  unfold findNode. induction ns as [|n ns IH]; [reflexivity|].
  cbn [map List.find].
  destruct (String.eqb (nodeId n) id) eqn:E.
  - cbn [applyUpdates nodeId]. rewrite E. reflexivity.
  - rewrite E. exact IH.
Qed.

Lemma updated_ids (updates : NodeUpdates) (id : string) (ns : list Node) :
  map nodeId
      (map (fun node => if String.eqb (nodeId node) id
                        then applyUpdates updates node else node) ns)
  = map nodeId ns.
Proof.
  rewrite map_map. apply map_ext. intros n.
  destruct (String.eqb (nodeId n) id); reflexivity.
Qed.

Lemma updated_others (updates : NodeUpdates) (id : string)
      (ns : list Node) (n : Node) :
  In n ns -> nodeId n <> id ->
  In n (map (fun node => if String.eqb (nodeId node) id
                         then applyUpdates updates node else node) ns).
Proof.
  intros Hin Hne. apply in_map_iff. exists n. split; [|exact Hin].
  destruct (String.eqb_spec (nodeId n) id); [contradiction | reflexivity].
Qed.

Lemma includes_In (l : list string) (id : string) :
  includes l id = true <-> In id l.
Proof.
  unfold includes. rewrite existsb_exists. split.
  - intros (x & Hin & E). apply String.eqb_eq in E. subst. exact Hin.
  - intros Hin. exists id. split; [exact Hin | apply String.eqb_refl].
Qed.

(** X19: Connecting two nodes never adds, removes or renames a node, and
    only the target can change.  A context connection leaves the nodes
    as they are.  A connection from a Memory node to a Chat node makes
    the memory node's id a member of the chat node's attachedMemoryNodes:
    it is appended when it is not yet there and the list is left alone
    when it is, so a list without repetition stays so; title, provider,
    model, messages, system prompt, position and type of the chat node
    are kept. *)
Theorem handleConnect_attaches_memory
        (now : Z) (src tgt : string) (w : World)
        (sourceNode targetNode : Node) :
  src <> EmptyString -> tgt <> EmptyString ->
  findNode (nodes (fst w)) src = Some sourceNode ->
  findNode (nodes (fst w)) tgt = Some targetNode ->
  let w' := handleConnect now (mkConnection (Some src) (Some tgt)) w in
  let old := default [] (attachedMemoryNodes (data targetNode)) in
  map nodeId (nodes (fst w')) = map nodeId (nodes (fst w))
  /\ (forall n, In n (nodes (fst w)) -> nodeId n <> tgt ->
                In n (nodes (fst w')))
  /\ (edgeTypeFor sourceNode targetNode = "context" ->
      nodes (fst w') = nodes (fst w))
  /\ (edgeTypeFor sourceNode targetNode = "rag" ->
      exists n',
        findNode (nodes (fst w')) tgt = Some n'
        /\ default [] (attachedMemoryNodes (data n'))
           = (if includes old src then old else old ++ [src])
        /\ In src (default [] (attachedMemoryNodes (data n')))
        /\ (List.NoDup old ->
            List.NoDup (default [] (attachedMemoryNodes (data n'))))
        /\ title (data n') = title (data targetNode)
        /\ provider (data n') = provider (data targetNode)
        /\ model (data n') = model (data targetNode)
        /\ messages (data n') = messages (data targetNode)
        /\ systemPrompt (data n') = systemPrompt (data targetNode)
        /\ chunkCount (data n') = chunkCount (data targetNode)
        /\ position n' = position targetNode
        /\ nodeType n' = nodeType targetNode).
Proof.
  intros Hsn Htn Hfs Hft w' old. subst w'. unfold handleConnect.
  cbn [connSource connTarget].
  rewrite !truthy_Some, !orElse_Some by assumption.
  cbn [negb orb]. cbv iota. rewrite Hfs, Hft.
  set (es := edges (fst w) ++ _).
  destruct (edgeTypeFor_cases sourceNode targetNode) as [E|E]; rewrite E.
  - (* a RAG connection *)
    change (String.eqb "rag" "rag") with true. cbv iota. fold old.
    destruct (includes old src) eqn:Einc; cbn [negb]; cbv iota.
    + rewrite setEdges_nodes.
      split; [reflexivity|]. split; [auto|]. split; [reflexivity|].
      intros _. exists targetNode. split; [exact Hft|].
      fold old. split; [reflexivity|].
      split; [apply includes_In; exact Einc|].
      split; [auto|]. repeat split.
    + rewrite updateNode_nodes, setEdges_nodes.
      split; [apply updated_ids|].
      split; [intros n Hin Hne; apply updated_others; assumption|].
      split; [discriminate|].
      intros _. rewrite findNode_updated, Hft. cbn [option_map].
      eexists. split; [reflexivity|].
      cbn [applyUpdates updData updPosition updStyle data position
           nodeType mergeData attachedMemoryNodes default].
      split; [reflexivity|].
      split; [apply in_or_app; right; left; reflexivity|].
      split.
      { intros Hnd. apply List.NoDup_app; [exact Hnd| |].
        - repeat constructor. intros [].
        - intros x Hx [<-|[]]. apply includes_In in Hx. congruence. }
      destruct (data targetNode) as [f1 f2 f3 f4 f5 f6 f7].
      cbn [title provider model messages systemPrompt chunkCount].
      destruct f1, f2, f3, f4, f5, f7; repeat split.
  - (* a context connection *)
    change (String.eqb "context" "rag") with false. cbv iota.
    rewrite setEdges_nodes.
    split; [reflexivity|]. split; [auto|]. split; [reflexivity|].
    discriminate.
Qed.

Lemma handleConnect_attaches_memory_witness :
  map nodeId
      (nodes (fst (handleConnect
                     400 (mkConnection (Some "memory-node-1")
                                       (Some "chat-node-1"))
                     (fst Example.world2, snd Example.world2))))
  = map nodeId (nodes (fst Example.world2)).
Proof.
  assert (H1 : "memory-node-1" <> EmptyString) by discriminate.
  assert (H2 : "chat-node-1" <> EmptyString) by discriminate.
  exact (proj1 (handleConnect_attaches_memory
                  400 "memory-node-1" "chat-node-1"
                  (fst Example.world2, snd Example.world2)
                  Example.memoryNode Example.receiver
                  H1 H2 eq_refl eq_refl)).
Defined.

End ConnectFacts.

Section DonorFacts.
Import ChatNode.

Lemma flat_map_length_le {A B} (f : A -> list B) (l : list A) :
  (forall a, length (f a) <= 1)%nat ->
  (length (flat_map f l) <= length l)%nat.
Proof.
  intros Hf. induction l as [|a l IH]; simpl; [lia|].
  rewrite length_app. specialize (Hf a). lia.
Qed.

Lemma filter_length_le {A} (f : A -> bool) (l : list A) :
  (length (List.filter f l) <= length l)%nat.
Proof.
  induction l as [|a l IH]; simpl; [lia|]. destruct (f a); simpl; lia.
Qed.

(** X20: Donor context is taken one hop away and from chat nodes only.
    The donors of a chat node are exactly the chat nodes at the source of
    a context edge that ends in it, each with its own title (Untitled
    when it has none) and its own messages; an edge of another kind, an
    edge into another node, an edge whose source is missing or is not a
    chat node gives no donor, so there are at most as many donors as
    edges and the edges that end elsewhere (the donors' own context among
    them) change nothing. *)
Theorem donors_are_direct_chat_sources
        (edges : list Edge) (nodes : list Node) (id : string) :
  let donors := getContextFromDonorNodes edges nodes id in
  (forall d,
      In d donors
      <-> exists e n,
          In e edges /\ target e = id /\ edgeType e = Some "context"
          /\ findNode nodes (source e) = Some n
          /\ nodeType n = Some "chat"
          /\ nodeId n = source e
          /\ d = mkDonor (nodeId n) (orElse (title (data n)) "Untitled")
                         (default [] (messages (data n))))
  /\ (length donors <= length edges)%nat
  /\ (forall extra,
         (forall e, In e extra ->
                    target e <> id \/ edgeType e <> Some "context"
                    \/ findNode nodes (source e) = None
                    \/ exists n, findNode nodes (source e) = Some n
                                 /\ nodeType n <> Some "chat") ->
         getContextFromDonorNodes (edges ++ extra) nodes id = donors).
Proof.
  intros donors. subst donors. rewrite getContext_spec.
  split; [|split].
  - intros d. rewrite in_flat_map. split.
    + intros (e & He & Hd). apply incomingContextEdges_In in He.
      destruct He as (He & Ht & Hk). unfold donorOf in Hd.
      destruct (findNode nodes (source e)) as [n|] eqn:Hf; [|destruct Hd].
      destruct (isType (nodeType n) "chat") eqn:Hty; [|destruct Hd].
      destruct Hd as [<-|[]]. exists e, n.
      apply isType_eq in Hty.
      assert (Hid : nodeId n = source e).
      { unfold findNode in Hf. apply find_some in Hf as [_ Hf].
        apply String.eqb_eq in Hf. exact Hf. }
      repeat split; assumption.
    + intros (e & n & He & Ht & Hk & Hf & Hty & _ & ->).
      exists e. split; [apply incomingContextEdges_In; auto|].
      unfold donorOf. rewrite Hf.
      apply isType_eq in Hty. rewrite Hty. left. reflexivity.
  - etransitivity; [apply flat_map_length_le, donorOf_length|].
    unfold incomingContextEdges.
    etransitivity; apply filter_length_le.
  - intros extra Hextra. rewrite getContext_spec, incomingContextEdges_app.
    rewrite flat_map_app.
    assert (Hnil : flat_map (donorOf nodes) (incomingContextEdges extra id)
                   = []).
    { apply flat_map_nil. intros e He.
      apply incomingContextEdges_In in He as (He & Ht & Hk).
      unfold donorOf.
      destruct (Hextra e He) as [H|[H|[H|(n & Hf & Hty)]]];
        try contradiction.
      - rewrite H. reflexivity.
      - rewrite Hf. destruct (isType (nodeType n) "chat") eqn:E;
          [|reflexivity].
        apply isType_eq in E. contradiction. }
    rewrite Hnil, app_nil_r. reflexivity.
Qed.

Lemma turn_toLLM (l : list Message) :
  List.filter turn (map toLLM l) = map toLLM (List.filter forwarded l).
Proof.
  induction l as [|m l IH]; [reflexivity|].
  simpl. unfold turn at 1, forwarded at 1. cbn [toLLM llmRole].
  destruct (role m); cbn [Role_eqb negb orb]; rewrite IH; reflexivity.
Qed.

Lemma turn_donorBlock (d : Donor) :
  List.filter turn (donorBlock d)
  = map toLLM (List.filter forwarded (donorMessages d)).
Proof.
  unfold donorBlock. cbn [List.filter turn donorHeader llmRole Role_eqb negb].
  rewrite turn_toLLM. f_equal. apply List.forallb_filter_id.
  apply forallb_forall. intros x Hx.
  apply filter_In in Hx as [_ Hx]. exact Hx.
Qed.

Lemma turn_donorBlocks (donors : list Donor) :
  List.filter turn (donorBlocks donors)
  = map toLLM (List.filter forwarded (flat_map donorMessages donors)).
Proof.
  induction donors as [|d rest IH]; [reflexivity|].
  cbn [flat_map]. rewrite List.filter_app, map_app, <- IH, <- turn_donorBlock.
  destruct rest as [|d' rest'].
  - cbn [donorBlocks List.filter]. rewrite app_nil_r. reflexivity.
  - change (donorBlocks (d :: d' :: rest'))
      with (donorBlock d ++ [donorSeparator] ++ donorBlocks (d' :: rest')).
    rewrite !List.filter_app. reflexivity.
Qed.

(** X21: The context put before a conversation is framing of role system
    only.  Of the messages sent to the model, those of role user or
    assistant are exactly the user and assistant messages of the donors,
    donor after donor, followed by those of the receiving node itself;
    the system prompt, the donor headers and separators, the end marker
    and the retrieved context are all of role system, and the receiving
    node's own messages are always the end of what is sent. *)
Theorem context_is_system_framing
        (sp rag : string) (donors : list Donor) (own : list Message) :
  List.filter turn (buildLLMMessages sp donors rag own)
  = map toLLM (List.filter forwarded (flat_map donorMessages donors))
    ++ map toLLM (List.filter forwarded own)
  /\ exists framing,
      buildLLMMessages sp donors rag own = framing ++ map toLLM own
      /\ (donors = [] ->
          Forall (fun m => llmRole m = system) framing
          /\ (length framing <= 2)%nat).
Proof.
  rewrite buildLLMMessages_spec. split.
  - rewrite !List.filter_app, turn_toLLM.
    assert (Hsp : List.filter turn (systemPart sp) = []).
    { unfold systemPart. destruct (String.eqb sp EmptyString); reflexivity. }
    assert (Hrag : List.filter turn (ragPart rag) = []).
    { unfold ragPart. destruct (String.eqb rag EmptyString); reflexivity. }
    rewrite Hsp, Hrag. cbn [app]. f_equal.
    unfold donorContext. destruct donors as [|d rest]; [reflexivity|].
    rewrite List.filter_app, turn_donorBlocks.
    cbn [List.filter turn endOfDonorContext llmRole Role_eqb negb].
    apply app_nil_r.
  - exists (systemPart sp ++ donorContext donors ++ ragPart rag).
    split; [rewrite <- !app_assoc; reflexivity|].
    intros ->. cbn [donorContext app]. unfold systemPart, ragPart.
    destruct (String.eqb sp EmptyString), (String.eqb rag EmptyString);
      cbn [app length]; split; try lia; repeat constructor.
Qed.

End DonorFacts.

Section ChatModeFacts.
Import ChatMode.









(** ** What is never stored *)

Lemma saveChat_noEmpty (now : Z) (w : World) :
  noEmptyChat (snd w) -> noEmptyChat (snd (saveChat now w)).
Proof.
  destruct w as [s db]. unfold saveChat. cbn [snd]. intros H.
  destruct (currentChat s) as [c|]; [|exact H].
  destruct (length (chatMessages c) =? 0)%nat eqn:E; [exact H|].
  cbn [loadChats snd]. intros id c' Hlook.
  destruct (String.eqb_spec (chatId c) id) as [Eid|Hne].
  - rewrite Eid, lookup_insert_eq in Hlook. injection Hlook as <-.
    cbn [chatMessages]. intros Hnil. rewrite Hnil in E. discriminate E.
  - rewrite lookup_insert_ne in Hlook by exact Hne. exact (H id c' Hlook).
Qed.

Lemma deleteAll_lookup (ids : list string) (k : string) :
  forall db : gmap string ChatData,
    fold_left (fun db chatId => delete chatId db) ids db !! k
    = if existsb (String.eqb k) ids then None else db !! k.
Proof.
  induction ids as [|id ids IH]; intros db; [reflexivity|].
  cbn [fold_left existsb]. rewrite IH.
  destruct (existsb (String.eqb k) ids); [rewrite orb_true_r; reflexivity|].
  rewrite orb_false_r.
  destruct (String.eqb_spec k id) as [->|Hne].
  - apply lookup_delete_eq.
  - apply lookup_delete_ne. congruence.
Qed.

Lemma handleSend_storage
      (llmProvider : option (list LLMMessage -> string -> Stream))
      (t0 t1 t2 : Z) (content : string) (s : State) (db : gmap string ChatData) :
  noEmptyChat db ->
  noEmptyChat (snd (handleSend llmProvider t0 t1 t2 content (s, db))).
Proof.
  intros H. unfold handleSend. cbv beta iota zeta.
  destruct (isLoading s); [exact H|].
  assert (Hw1 : snd (match currentChat s return World with
                     | None => createChat t0 (s, db)
                     | Some _ => (s, db)
                     end) = db)
    by (destruct (currentChat s); reflexivity).
  destruct (match currentChat s return World with
            | None => createChat t0 (s, db)
            | Some _ => (s, db)
            end) as [s1 db1].
  cbn [fst snd] in *. subst db1.
  destruct (currentChat s1); [|exact H].
  destruct llmProvider as [streamChat|]; [|exact H].
  match goal with
  | |- context [match ?x with Some _ => _ | None => _ end] =>
      destruct x; [|exact H]
  end.
  cbn [snd]. apply saveChat_noEmpty. exact H.
Qed.

Lemma act_noEmpty (now : Z) (a : Action) (w : World) :
  noEmptyChat (snd w) -> noEmptyChat (snd (act now a w)).
Proof.
  destruct w as [s db]. cbn [snd]. intros H.
  destruct a as [|cid| | |r c|c|cid|cids|p c u1 u2];
    cbn [act fst snd]; try exact H.
  - unfold loadChat. destruct (db !! cid); exact H.
  - apply (saveChat_noEmpty now (s, db)), H.
  - unfold deleteChat. cbn [loadChats snd]. intros id c Hlook.
    destruct (String.eqb_spec cid id) as [->|Hne].
    + rewrite lookup_delete_eq in Hlook. discriminate Hlook.
    + rewrite lookup_delete_ne in Hlook by exact Hne.
      exact (H id c Hlook).
  - unfold deleteChats. cbn [loadChats snd]. intros id c Hlook.
    rewrite deleteAll_lookup in Hlook.
    destruct (existsb (String.eqb id) cids); [discriminate Hlook|].
    exact (H id c Hlook).
  - apply handleSend_storage, H.
Qed.

(** X23: A chat without messages is never stored.  Creating a chat writes
    nothing, and through any run of the store's actions and of sends in
    chat mode (loadChats, loadChat, createChat, saveChat, addMessage,
    updateLastMessage, deleteChat, deleteChats, handleSend) a persistent
    store that holds no empty chat never comes to hold one. *)
Theorem empty_chat_is_never_stored
        (l : list (Action * Z)) (s : State) (db : gmap string ChatData) :
  noEmptyChat db ->
  noEmptyChat (snd (run l (s, db)))
  /\ (forall now, snd (createChat now (s, db)) = db)
  /\ (forall now, snd (saveChat now (createChat now (s, db))) = db).
Proof.
  intros H. split; [|split; reflexivity].
  assert (G : forall w, noEmptyChat (snd w) -> noEmptyChat (snd (run l w))).
  { induction l as [|[a t] l IH]; intros w Hw; [exact Hw|].
    unfold run. cbn [fold_left fst snd]. apply IH, act_noEmpty, Hw. }
  apply (G (s, db)), H.
Qed.

Lemma empty_chat_is_never_stored_witness :
  noEmptyChat
    (snd (run [(CreateChat, 1); (SaveChat, 2);
               (AddMessage user "Hi", 3); (SaveChat, 4)]
              (initialState, ∅))).
Proof.
  apply (empty_chat_is_never_stored
           [(CreateChat, 1); (SaveChat, 2);
            (AddMessage user "Hi", 3); (SaveChat, 4)]
           initialState ∅).
  intros id c H. rewrite lookup_empty in H. discriminate H.
Defined.

(** ** Deleting *)

Lemma deleteChats_successive (ids : list string) :
  forall (s : State) (db : gmap string ChatData),
    fold_left (fun w id => deleteChat id w) ids (loadChats (s, db))
    = deleteChats ids (s, db).
Proof.
  induction ids as [|id ids IH]; intros s db.
  - unfold deleteChats. cbn [fold_left existsb].
    destruct (currentChat s); reflexivity.
  - cbn [fold_left]. unfold loadChats at 1. unfold deleteChat at 2.
    cbn [currentChat setChats].
    change (fun w id0 => deleteChat id0 w)
      with (fun w id0 => deleteChat id0 w).
    destruct (currentChat s) as [c|] eqn:Ec.
    + destruct (String.eqb (chatId c) id) eqn:E.
      * rewrite IH. unfold deleteChats.
        cbn [currentChat setCurrentChat setChats fold_left existsb].
        rewrite Ec, E. cbn [orb]. reflexivity.
      * rewrite IH. unfold deleteChats.
        cbn [currentChat setCurrentChat setChats fold_left existsb].
        rewrite Ec, E. cbn [orb].
        destruct (existsb (String.eqb (chatId c)) ids); reflexivity.
    + rewrite IH. unfold deleteChats.
      cbn [currentChat setCurrentChat setChats fold_left existsb].
      rewrite Ec. reflexivity.
Qed.

(** X24: Deleting chats.  [deleteChats] removes exactly the records of the
    given ids and leaves every other record as it is; the current chat is
    dropped when it is among them and kept otherwise; the list of chats
    is reloaded from the store.  Deleting in bulk gives the same store
    and state as deleting one chat after the other. *)
Theorem deleteChats_removes (ids : list string) (s : State) (db : gmap string ChatData) :
  let w := deleteChats ids (s, db) in
  (forall k, snd w !! k = if existsb (String.eqb k) ids then None
                          else db !! k)
  /\ chats (fst w) = getAllChats (snd w)
  /\ (forall c, currentChat s = Some c ->
                currentChat (fst w)
                = if existsb (String.eqb (chatId c)) ids then None
                  else Some c)
  /\ (currentChat s = None -> currentChat (fst w) = None)
  /\ fold_left (fun w id => deleteChat id w) ids (loadChats (s, db)) = w
  /\ (forall id, deleteChat id (s, db) = deleteChats [id] (s, db)).
Proof.
  intros w. subst w. split; [|split; [|split; [|split; [|split]]]].
  - intros k. unfold deleteChats. cbn [loadChats snd].
    apply deleteAll_lookup.
  - reflexivity.
  - intros c Hc. unfold deleteChats. rewrite Hc. cbn [loadChats fst].
    destruct (existsb (String.eqb (chatId c)) ids);
      cbn [setChats setCurrentChat currentChat]; [reflexivity | exact Hc].
  - intros Hc. unfold deleteChats. rewrite Hc. cbn [loadChats fst].
    exact Hc.
  - apply deleteChats_successive.
  - intros id. unfold deleteChat, deleteChats. cbn [fold_left existsb].
    destruct (currentChat s) as [c|]; [|reflexivity].
    rewrite orb_false_r. reflexivity.
Qed.

End ChatModeFacts.

Section MemoryNodeFacts.
Import MemoryNode.

Lemma pushParsed_chunks (chunks : list DocumentChunk) :
  forall st,
    allChunks (fold_left pushParsed chunks st)
    = allChunks st
      ++ map (fun chunk => mkChunk (chunkId chunk) (chunkContent chunk) None
                                   (chunkMetadata chunk)) chunks.
Proof.
  induction chunks as [|c chunks IH]; intros st; simpl.
  - rewrite app_nil_r. reflexivity.
  - rewrite IH. simpl. rewrite <- app_assoc. reflexivity.
Qed.

Lemma parse_chunks (files : list File) :
  forall st,
    allChunks (fold_left parseStep files st)
    = allChunks st ++ flat_map fileChunks files.
Proof.
  induction files as [|f files IH]; intros st; simpl.
  - rewrite app_nil_r. reflexivity.
  - rewrite IH. unfold parseStep, fileChunks.
    destruct (parsed f) as [chunks|message].
    + rewrite pushParsed_chunks, <- app_assoc. reflexivity.
    + simpl. rewrite <- app_assoc. reflexivity.
Qed.

Lemma embed_chunks (g : string -> Result (list R))
      (chunks : list DocumentChunk) :
  forall acc,
    fold_left (embedStep g) chunks acc = acc ++ flat_map (embedded g) chunks.
Proof.
  induction chunks as [|c chunks IH]; intros acc; simpl.
  - rewrite app_nil_r. reflexivity.
  - rewrite IH. unfold embedStep, embedded.
    destruct (g (chunkContent c)); simpl;
      [rewrite <- app_assoc|]; reflexivity.
Qed.

Lemma embedded_has_embedding (g : string -> Result (list R))
      (chunks : list DocumentChunk) (c : DocumentChunk) :
  In c (flat_map (embedded g) chunks) ->
  exists c0 e, In c0 chunks /\ g (chunkContent c0) = Ok e
               /\ c = mkChunk (chunkId c0) (chunkContent c0) (Some e)
                              (chunkMetadata c0).
Proof.
  intros H. apply in_flat_map in H as (c0 & Hc0 & H).
  unfold embedded in H. destruct (g (chunkContent c0)) as [e|] eqn:E;
    [|destruct H].
  destruct H as [<-|[]]. exists c0, e. auto.
Qed.

Lemma handleFileUpload_unfold
      (id title provider : string) (embeddingModel : option string)
      (g : string -> Result (list R)) (now : Z)
      (files : list File) (r : Refs) (db : Storage) :
  files <> [] ->
  let vs :=
    VectorStore.addChunks
      (flat_map (embedded g) (flat_map fileChunks files)) (current id r) in
  let up := handleFileUpload id title provider embeddingModel (Some g)
                             now files r db in
  vectorStoreRef (refs up) = Some vs
  /\ storage up
     = saveVectorStore
         id (mkStoreData (VectorStore.storeId vs) title
                         (Some (VectorStore.chunks vs))
                         (if truthy (Some provider) then Some provider
                          else None)
                         (if truthy embeddingModel then embeddingModel
                          else None)
                         now) db
  /\ chunkCount up = Some (VectorStore.getChunkCount vs)
  /\ error up = None.
Proof.
  intros Hf vs up. subst up. unfold handleFileUpload.
  destruct files as [|f files]; [contradiction|].
  change (length (f :: files) =? 0)%nat with false. cbv iota.
  rewrite parse_chunks, embed_chunks. cbn [allChunks app refs storage].
  fold (current id r). fold vs. repeat split.
Qed.

(** X25: What an upload stores is what a chat node reads.  After
    [handleFileUpload] with an embedding service the vector store of the
    memory node holds the old chunks upserted with the chunks of the
    files whose embedding succeeded, each with its embedding (a chunk
    whose embedding fails is skipped, a file that fails to parse counts
    as one error chunk); the record saved under the node's id
    carries the node's title and exactly these chunks, so that the store
    rebuilt from it is the one in memory; the chunk count shown is their
    number, every other vector index and every canvas session is as
    before, and if all old chunks had an embedding so have all stored
    ones. *)
Theorem upload_stores_embedded_chunks
        (id title provider : string) (embeddingModel : option string)
        (g : string -> Result (list R)) (now : Z)
        (files : list File) (r : Refs) (db : Storage) :
  files <> [] ->
  let new := flat_map (embedded g) (flat_map fileChunks files) in
  let up := handleFileUpload id title provider embeddingModel (Some g)
                             now files r db in
  exists vs storeData,
    vectorStoreRef (refs up) = Some vs
    /\ vs = VectorStore.addChunks new (current id r)
    /\ getVectorStore id (storage up) = Some storeData
    /\ documents storeData = Some (VectorStore.chunks vs)
    /\ storeName storeData = title
    /\ storeCreatedAt storeData = now
    /\ chunkCount up = Some (Z.of_nat (length (VectorStore.chunks vs)))
    /\ error up = None
    /\ (forall k, k <> id ->
                  getVectorStore k (storage up) = getVectorStore k db)
    /\ canvasSessions (storage up) = canvasSessions db
    /\ (VectorStore.storeId (current id r) = id ->
        VectorStore.create id (Some storeData) = vs)
    /\ (forall c, In c (VectorStore.chunks vs) ->
                  In c (VectorStore.chunks (current id r))
                  \/ exists c0 e,
                      In c0 (flat_map fileChunks files)
                      /\ g (chunkContent c0) = Ok e
                      /\ c = mkChunk (chunkId c0) (chunkContent c0)
                                     (Some e) (chunkMetadata c0))
    /\ (Forall (fun c => embedding c <> None)
               (VectorStore.chunks (current id r)) ->
        Forall (fun c => embedding c <> None) (VectorStore.chunks vs)).
Proof.
  intros Hf new up.
  destruct (handleFileUpload_unfold id title provider embeddingModel g now
                                    files r db Hf)
    as (Hrefs & Hst & Hcount & Herr).
  fold new in Hrefs, Hst, Hcount. fold up in Hrefs, Hst, Hcount, Herr.
  set (vs := VectorStore.addChunks new (current id r)) in *.
  assert (Hfrom : forall c, In c (VectorStore.chunks vs) ->
                            In c (VectorStore.chunks (current id r))
                            \/ exists c0 e,
                                In c0 (flat_map fileChunks files)
                                /\ g (chunkContent c0) = Ok e
                                /\ c = mkChunk (chunkId c0)
                                               (chunkContent c0)
                                               (Some e) (chunkMetadata c0)).
  { intros c Hc.
    destruct (addChunks_members new (current id r)) as (_ & _ & _ & Hin).
    apply Hin, in_app_iff in Hc as [Hc|Hc]; [left; exact Hc|].
    right. apply embedded_has_embedding, Hc. }
  eexists vs, _. split; [exact Hrefs|]. split; [reflexivity|].
  rewrite Hst. unfold getVectorStore, saveVectorStore.
  cbn [vectorStores canvasSessions].
  split; [apply lookup_insert_eq|].
  cbn [documents storeName storeCreatedAt].
  repeat split; try assumption.
  - intros k Hk. apply lookup_insert_ne. congruence.
  - intros Hid. unfold VectorStore.create. cbn [documents default].
    unfold vs, VectorStore.addChunks. cbn [VectorStore.storeId].
    rewrite Hid. reflexivity.
  - intros Hall. apply List.Forall_forall. intros c Hc.
    destruct (Hfrom c Hc) as [Hold|(c0 & e & _ & _ & ->)].
    + exact (proj1 (List.Forall_forall _ _) Hall c Hold).
    + discriminate.
Qed.

Lemma upload_stores_embedded_chunks_witness :
  error (handleFileUpload
           "memory-node-1" "Notes" "ollama" (Some "nomic-embed-text")
           (Some (fun _ => Ok [1%R]))
           500
           [mkFile "a.txt" (Ok [mkChunk "a.txt-0" "alpha" None []]);
            mkFile "b.pdf" (Throw "no text")]
           (mkRefs None []) Example.emptyStorage)
  = None.
Proof.
  destruct (upload_stores_embedded_chunks
              "memory-node-1" "Notes" "ollama" (Some "nomic-embed-text")
              (fun _ => Ok [1%R]) 500
              [mkFile "a.txt" (Ok [mkChunk "a.txt-0" "alpha" None []]);
               mkFile "b.pdf" (Throw "no text")]
              (mkRefs None []) Example.emptyStorage
              ltac:(discriminate))
    as (vs & sd & _ & _ & _ & _ & _ & _ & _ & H & _).
  exact H.
Defined.

(** ** Uploading again *)

Lemma setAdd_present (x : string) (s : list string) :
  In x s -> setAdd x s = s.
Proof.
  intros H. unfold setAdd.
  replace (existsb (String.eqb x) s) with true; [reflexivity|].
  symmetry. apply existsb_exists. exists x.
  split; [exact H | apply String.eqb_refl].
Qed.

Lemma setAdd_In (x y : string) (s : list string) :
  In y (setAdd x s) <-> y = x \/ In y s.
Proof.
  unfold setAdd. destruct (existsb (String.eqb x) s) eqn:E.
  - split; [auto|]. intros [->|H]; [|exact H].
    apply existsb_exists in E as (z & Hz & E).
    apply String.eqb_eq in E. subst. exact Hz.
  - rewrite in_app_iff. simpl. intuition.
Qed.

Lemma addAll_In (xs : list string) :
  forall s y,
    In y (fold_left (fun s x => setAdd x s) xs s) <-> In y xs \/ In y s.
Proof.
  induction xs as [|x xs IH]; intros s y; simpl; [tauto|].
  rewrite IH, setAdd_In. intuition.
Qed.

Lemma addAll_present (xs : list string) :
  forall s, (forall x, In x xs -> In x s) ->
            fold_left (fun s x => setAdd x s) xs s = s.
Proof.
  induction xs as [|x xs IH]; intros s H; simpl; [reflexivity|].
  rewrite setAdd_present by (apply H; left; reflexivity).
  apply IH. intros y Hy. apply H. right. exact Hy.
Qed.

Lemma setAdd_NoDup (x : string) (s : list string) :
  List.NoDup s -> List.NoDup (setAdd x s).
Proof.
  intros H. unfold setAdd. destruct (existsb (String.eqb x) s) eqn:E;
    [exact H|].
  apply List.NoDup_app; [exact H | repeat constructor; intros [] |].
  intros z Hz [<-|[]].
  assert (existsb (String.eqb x) s = true); [|congruence].
  apply existsb_exists. exists x. split; [exact Hz | apply String.eqb_refl].
Qed.

Lemma addAll_NoDup (xs : list string) :
  forall s, List.NoDup s ->
            List.NoDup (fold_left (fun s x => setAdd x s) xs s).
Proof.
  induction xs as [|x xs IH]; intros s H; simpl; [exact H|].
  apply IH, setAdd_NoDup, H.
Qed.

(** X26: Uploading the same files a second time, with an embedding service
    that answers as before, changes neither the chunks of the vector
    store nor the set of document sources, so the two counts stay as
    they are; the set of document sources never holds a source twice. *)
Theorem upload_again_changes_nothing
        (id title provider : string) (embeddingModel : option string)
        (g : string -> Result (list R)) (t1 t2 : Z)
        (files : list File) (r : Refs) (db : Storage) :
  files <> [] ->
  let up1 := handleFileUpload id title provider embeddingModel (Some g)
                              t1 files r db in
  let up2 := handleFileUpload id title provider embeddingModel (Some g)
                              t2 files (refs up1) (storage up1) in
  refs up2 = refs up1
  /\ chunkCount up2 = chunkCount up1
  /\ documentCount up2 = documentCount up1
  /\ (forall k, option_map documents (getVectorStore k (storage up2))
                = option_map documents (getVectorStore k (storage up1)))
  /\ (List.NoDup (documentSourcesRef r) ->
      List.NoDup (documentSourcesRef (refs up1))).
Proof.
  intros Hf up1 up2.
  assert (Hup : forall now r db,
             handleFileUpload id title provider embeddingModel (Some g)
                              now files r db
             = let st := fold_left parseStep files (mkParsing [] []) in
               let documentSources :=
                 fold_left (fun s source => setAdd source s)
                           (newDocumentSources st) (documentSourcesRef r) in
               let vs :=
                 VectorStore.addChunks
                   (flat_map (embedded g) (flat_map fileChunks files))
                   (current id r) in
               mkUpload
                 (mkRefs (Some vs) documentSources)
                 (saveVectorStore
                    id (mkStoreData (VectorStore.storeId vs) title
                                    (Some (VectorStore.chunks vs))
                                    (if truthy (Some provider)
                                     then Some provider else None)
                                    (if truthy embeddingModel
                                     then embeddingModel else None)
                                    now) db)
                 (Some (VectorStore.getChunkCount vs))
                 (Some (Z.of_nat (length documentSources))) None).
  { intros now r0 db0. unfold handleFileUpload.
    destruct files as [|f fs]; [contradiction|].
    change (length (f :: fs) =? 0)%nat with false. cbv iota.
    rewrite parse_chunks, embed_chunks. reflexivity. }
  subst up2. rewrite (Hup t2 (refs up1) (storage up1)).
  subst up1. rewrite (Hup t1 r db). cbv zeta.
  cbn [refs storage chunkCount documentCount vectorStoreRef
       documentSourcesRef current].
  set (new := flat_map (embedded g) (flat_map fileChunks files)).
  set (srcs := newDocumentSources _).
  rewrite addChunks_twice.
  rewrite (addAll_present srcs (fold_left _ srcs (documentSourcesRef r)))
    by (intros x Hx; apply addAll_In; left; exact Hx).
  repeat split.
  - intros k. unfold getVectorStore, saveVectorStore. cbn [vectorStores].
    destruct (String.eqb_spec id k) as [->|Hne].
    + rewrite !lookup_insert_eq. reflexivity.
    + rewrite !lookup_insert_ne by exact Hne. reflexivity.
  - apply addAll_NoDup.
Qed.

Lemma upload_again_changes_nothing_witness :
  let files := [mkFile "a.txt" (Ok [mkChunk "a.txt-0" "alpha" None []]);
                mkFile "b.pdf" (Throw "no text")] in
  let up1 := handleFileUpload "memory-node-1" "Notes" "ollama" None
                              (Some (fun _ => Ok [1%R])) 500 files
                              (mkRefs None []) Example.emptyStorage in
  chunkCount (handleFileUpload "memory-node-1" "Notes" "ollama" None
                               (Some (fun _ => Ok [1%R])) 600 files
                               (refs up1) (storage up1))
  = chunkCount up1.
Proof.
  intros files up1.
  exact (proj1 (proj2 (upload_again_changes_nothing
                         "memory-node-1" "Notes" "ollama" None
                         (fun _ => Ok [1%R]) 500 600 files
                         (mkRefs None []) Example.emptyStorage
                         ltac:(discriminate)))).
Defined.

(** ** Loading the store again *)

Lemma pushParsed_source (st : Parsing) (c : DocumentChunk) (s : string) :
  In s (newDocumentSources (pushParsed st c))
  <-> In s (newDocumentSources st)
      \/ (s <> EmptyString /\ metadataSource c = Some s).
Proof.
  unfold pushParsed. cbn [newDocumentSources].
  destruct (metadataSource c) as [src|]; cbn [truthy orElse].
  - destruct (String.eqb_spec src EmptyString) as [->|Hne]; cbn [negb].
    + split; [auto|]. intros [H|[Hs E]]; [exact H|]. congruence.
    + rewrite setAdd_In. split.
      * intros [->|H]; auto.
      * intros [H|[_ E]]; [auto|]. left. congruence.
  - split; [auto|]. intros [H|[_ E]]; [exact H | discriminate E].
Qed.

Lemma pushParsed_sources (chunks : list DocumentChunk) :
  forall st s,
    In s (newDocumentSources (fold_left pushParsed chunks st))
    <-> In s (newDocumentSources st)
        \/ (s <> EmptyString
            /\ exists c, In c chunks /\ metadataSource c = Some s).
Proof.
  induction chunks as [|c chunks IH]; intros st s; cbn [fold_left].
  - split; [auto|]. intros [H|(_ & c & [] & _)]. exact H.
  - rewrite IH, pushParsed_source. split.
    + intros [[H|[Hs E]]|(Hs & c' & Hc' & E')]; [auto| |].
      * right. split; [exact Hs|]. exists c. split; [left; reflexivity|].
        exact E.
      * right. split; [exact Hs|]. exists c'. split; [right|]; assumption.
    + intros [H|(Hs & c' & [<-|Hc'] & E')]; [auto| |].
      * left. right. auto.
      * right. split; [exact Hs|]. exists c'. auto.
Qed.

Lemma metadataSource_stripped (c : DocumentChunk) (e : option (list R)) :
  metadataSource (mkChunk (chunkId c) (chunkContent c) e (chunkMetadata c))
  = metadataSource c.
Proof. reflexivity. Qed.

Lemma parse_sources (files : list File) :
  forall st c s,
    In c (flat_map fileChunks files) ->
    metadataSource c = Some s -> s <> EmptyString ->
    In s (newDocumentSources (fold_left parseStep files st)).
Proof.
  assert (Hkeep : forall fs st s,
             In s (newDocumentSources st) ->
             In s (newDocumentSources (fold_left parseStep fs st))).
  { intros fs. induction fs as [|f fs IH]; intros st s H; [exact H|].
    simpl. apply IH. unfold parseStep.
    destruct (parsed f) as [chunks|message].
    - apply pushParsed_sources. left. exact H.
    - cbn [newDocumentSources]. apply setAdd_In. right. exact H. }
  induction files as [|f files IH]; intros st c s Hc Hs Hne; [destruct Hc|].
  cbn [flat_map] in Hc. apply in_app_iff in Hc as [Hc|Hc].
  - cbn [fold_left]. apply Hkeep. unfold parseStep.
    unfold fileChunks in Hc. destruct (parsed f) as [chunks|message].
    + apply in_map_iff in Hc as (c0 & <- & Hc0).
      apply pushParsed_sources. right. split; [exact Hne|].
      exists c0. split; [exact Hc0 | exact Hs].
    + destruct Hc as [<-|[]]. cbn [newDocumentSources].
      apply setAdd_In. left.
      unfold metadataSource, errorChunk in Hs. simpl in Hs. congruence.
  - cbn [fold_left]. apply IH with (c := c); assumption.
Qed.

Lemma newSet_In (xs : list string) (y : string) :
  In y (newSet xs) <-> In y xs.
Proof.
  unfold newSet. rewrite addAll_In. simpl. tauto.
Qed.

(** X27: Loading the store of a memory node after an upload gives back the
    vector store that the upload left in memory, and a set of document
    sources without repetition that holds no source the upload had not
    counted (it can hold fewer: the source of a chunk whose embedding
    failed is counted by the upload and not found again). *)
Theorem load_after_upload
        (id title provider : string) (embeddingModel : option string)
        (g : string -> Result (list R)) (now : Z)
        (files : list File) (r : Refs) (db : Storage) :
  files <> [] ->
  VectorStore.storeId (current id r) = id ->
  let up := handleFileUpload id title provider embeddingModel (Some g)
                             now files r db in
  let r' := loadVectorStore id (storage up) in
  vectorStoreRef r' = vectorStoreRef (refs up)
  /\ List.NoDup (documentSourcesRef r')
  /\ ((forall c s, In c (VectorStore.chunks (current id r)) ->
                   metadataSource c = Some s -> s <> EmptyString ->
                   In s (documentSourcesRef r)) ->
      forall s, In s (documentSourcesRef r') ->
                In s (documentSourcesRef (refs up))).
Proof.
  intros Hf Hid up r'.
  destruct (handleFileUpload_unfold id title provider embeddingModel g now
                                    files r db Hf)
    as (Hrefs & Hst & _ & _).
  fold up in Hrefs, Hst.
  set (vs := VectorStore.addChunks _ (current id r)) in *.
  assert (Hsid : VectorStore.storeId vs = id) by exact Hid.
  subst r'. unfold loadVectorStore. rewrite Hst.
  unfold getVectorStore, saveVectorStore. cbn [vectorStores].
  rewrite lookup_insert_eq. cbn [vectorStoreRef documentSourcesRef
                                 documents default VectorStore.create].
  split; [rewrite Hrefs; destruct vs; simpl in *; congruence|].
  split; [apply addAll_NoDup; constructor|].
  intros Hold s Hs. apply newSet_In, filter_In in Hs as [Hs Hne].
  apply negb_true_iff, String.eqb_neq in Hne.
  apply in_flat_map in Hs as (c & Hc & Hs).
  destruct (metadataSource c) as [s'|] eqn:Esrc; [|destruct Hs].
  destruct Hs as [<-|[]].
  assert (Hdocs : documentSourcesRef (refs up)
                  = fold_left (fun s source => setAdd source s)
                              (newDocumentSources
                                 (fold_left parseStep files
                                            (mkParsing [] [])))
                              (documentSourcesRef r)).
  { unfold up, handleFileUpload. destruct files as [|f fs]; [contradiction|].
    reflexivity. }
  rewrite Hdocs. apply addAll_In.
  destruct (addChunks_members
              (flat_map (embedded g) (flat_map fileChunks files))
              (current id r)) as (_ & _ & _ & Hin).
  apply Hin, in_app_iff in Hc as [Hc|Hc].
  - right. exact (Hold c s' Hc Esrc Hne).
  - left. apply embedded_has_embedding in Hc as (c0 & e & Hc0 & _ & ->).
    rewrite metadataSource_stripped in Esrc.
    exact (parse_sources files _ c0 s' Hc0 Esrc Hne).
Qed.

Lemma load_after_upload_witness :
  let up := handleFileUpload
              "memory-node-1" "Notes" "ollama" None
              (Some (fun _ => Ok [1%R])) 500
              [mkFile "a.txt" (Ok [mkChunk "a.txt-0" "alpha" None []])]
              (mkRefs None []) Example.emptyStorage in
  vectorStoreRef (loadVectorStore "memory-node-1" (storage up))
  = vectorStoreRef (refs up).
Proof.
  intros up.
  exact (proj1 (load_after_upload
                  "memory-node-1" "Notes" "ollama" None
                  (fun _ => Ok [1%R]) 500
                  [mkFile "a.txt" (Ok [mkChunk "a.txt-0" "alpha" None []])]
                  (mkRefs None []) Example.emptyStorage
                  ltac:(discriminate) eq_refl)).
Defined.

End MemoryNodeFacts.

Section BranchFacts.
Import CanvasStore CanvasMode ChatNode.

Lemma createSession_canvas (now : Z) (s : State) (db : Storage) :
  nodes (fst (createSession now (s, db))) = nodes s
  /\ edges (fst (createSession now (s, db))) = edges s.
Proof.
  unfold createSession.
  destruct (truthy (currentSessionId s)); [auto|].
  destruct (isCreatingSession s); auto.
Qed.

Lemma ensureSessionAndSave_canvas (now : Z) (s : State) (db : Storage) :
  nodes (fst (ensureSessionAndSave now (s, db))) = nodes s
  /\ edges (fst (ensureSessionAndSave now (s, db))) = edges s.
Proof.
  unfold ensureSessionAndSave. cbn [fst].
  destruct (truthy (currentSessionId s)).
  - destruct (saveCanvas_state now s db) as (Hn & He & _). auto.
  - destruct (createSession_canvas now s db) as [Hn He].
    destruct (createSession now (s, db)) as [s1 db1]. cbn [fst] in *.
    destruct (truthy (currentSessionId s1)); [|auto].
    destruct (saveCanvas_state now s1 db1) as (Hn1 & He1 & _).
    split; congruence.
Qed.

Lemma addNode_canvas (now : Z) (node : Node) (w : World) :
  nodes (fst (addNode now node w)) = nodes (fst w) ++ [node]
  /\ edges (fst (addNode now node w)) = edges (fst w).
Proof.
  destruct w as [s db]. unfold addNode.
  destruct (ensureSessionAndSave_canvas
              now (setNodesField (nodes s ++ [node]) s) db) as [Hn He].
  rewrite Hn, He. auto.
Qed.

Lemma addEdge_canvas (now : Z) (edge : Edge) (w : World) :
  nodes (fst (addEdge now edge w)) = nodes (fst w)
  /\ edges (fst (addEdge now edge w)) = edges (fst w) ++ [edge].
Proof.
  destruct w as [s db]. unfold addEdge.
  destruct (ensureSessionAndSave_canvas
              now (setEdgesField (edges s ++ [edge]) s) db) as [Hn He].
  rewrite Hn, He. auto.
Qed.

Lemma addEdges_canvas (now : Z) (f : Node -> Edge) (l : list Node) :
  forall w,
    let w' := fold_left (fun w n => addEdge now (f n) w) l w in
    nodes (fst w') = nodes (fst w)
    /\ edges (fst w') = edges (fst w) ++ map f l.
Proof.
  induction l as [|n l IH]; intros w; cbn [fold_left map].
  - rewrite app_nil_r. auto.
  - destruct (IH (addEdge now (f n) w)) as [Hn He].
    destruct (addEdge_canvas now (f n) w) as [Hn1 He1].
    cbv zeta in *. rewrite Hn, He, Hn1, He1, <- app_assoc. auto.
Qed.

Lemma findNode_app_found (ns ms : list Node) (id : string) (n : Node) :
  findNode ns id = Some n -> findNode (ns ++ ms) id = Some n.
Proof.
  unfold findNode. intros H. rewrite find_app, H. reflexivity.
Qed.

Lemma findNode_app_other (ns : list Node) (m : Node) (id : string) :
  id <> nodeId m -> findNode (ns ++ [m]) id = findNode ns id.
Proof.
  unfold findNode. intros H. rewrite find_app. cbn [List.find].
  destruct (String.eqb_spec (nodeId m) id); [congruence|].
  destruct (List.find _ ns); reflexivity.
Qed.

Lemma findNode_member (ns : list Node) (n : Node) :
  List.NoDup (map nodeId ns) -> In n ns -> findNode ns (nodeId n) = Some n.
Proof.
  unfold findNode. induction ns as [|m ns IH]; intros Hd Hin; [destruct Hin|].
  cbn [map] in Hd. apply List.NoDup_cons_iff in Hd as [Hnin Hd].
  cbn [List.find]. destruct Hin as [->|Hin].
  - rewrite String.eqb_refl. reflexivity.
  - destruct (String.eqb_spec (nodeId m) (nodeId n)) as [E|_].
    + exfalso. apply Hnin. rewrite E. apply in_map, Hin.
    + apply IH; assumption.
Qed.

Lemma incoming_none (es : list Edge) (id : string) :
  (forall e, In e es -> target e <> id) -> incomingContextEdges es id = [].
Proof.
  intros H. unfold incomingContextEdges.
  induction es as [|e es IH]; [reflexivity|]. cbn [List.filter].
  destruct (String.eqb_spec (target e) id) as [E|_].
  - exfalso. exact (H e (or_introl eq_refl) E).
  - apply IH. intros e' He'. apply H. right. exact He'.
Qed.

Lemma incoming_all (f : Node -> string) (l : list Node) (id : string) :
  incomingContextEdges (map (fun n => contextEdge (f n) id) l) id
  = map (fun n => contextEdge (f n) id) l.
Proof.
  unfold incomingContextEdges.
  induction l as [|n l IH]; [reflexivity|].
  cbn [map List.filter contextEdge target edgeType isType].
  rewrite String.eqb_refl. cbn [List.filter edgeType isType].
  change (String.eqb "context" "context") with true. cbv iota.
  f_equal. exact IH.
Qed.

(** The donors of the new node, once the edges from the chosen nodes are
    drawn. *)
Lemma donors_of_new_node (s : State) (newNode : Node) (sources : list Node) :
  freshId (nodeId newNode) s ->
  (forall n, In n sources ->
             findNode (nodes s) (nodeId n) = Some n
             /\ nodeType n = Some "chat") ->
  getContextFromDonorNodes
    (edges s ++ map (fun n => contextEdge (nodeId n) (nodeId newNode))
                    sources)
    (nodes s ++ [newNode]) (nodeId newNode)
  = map donorFrom sources.
Proof.
  intros [Hfn Hfe] Hsrc. rewrite getContext_spec, incomingContextEdges_app.
  rewrite incoming_none by (intros e He; apply (Hfe e He)).
  rewrite incoming_all. cbn [app]. rewrite flat_map_concat_map, map_map.
  induction sources as [|n l IH]; [reflexivity|].
  cbn [map concat]. rewrite IH by (intros m Hm; apply Hsrc; right; exact Hm).
  destruct (Hsrc n (or_introl eq_refl)) as [Hf Hty].
  unfold donorOf at 1. cbn [contextEdge source].
  rewrite (findNode_app_found _ _ _ _ Hf).
  apply isType_eq in Hty. rewrite Hty. reflexivity.
Qed.

(** The donors of the other nodes are as before. *)
Lemma donors_of_old_node (s : State) (newNode : Node) (es : list Edge)
      (id : string) :
  freshId (nodeId newNode) s ->
  id <> nodeId newNode ->
  (forall e, In e es -> target e = nodeId newNode) ->
  getContextFromDonorNodes (edges s ++ es) (nodes s ++ [newNode]) id
  = getContextFromDonorNodes (edges s) (nodes s) id.
Proof.
  intros [Hfn Hfe] Hid Hes.
  rewrite !getContext_spec, incomingContextEdges_app.
  rewrite (incoming_none es) by (intros e He; rewrite (Hes e He); congruence).
  rewrite app_nil_r.
  assert (Hin : forall e, In e (incomingContextEdges (edges s) id) ->
                          In e (edges s)).
  { intros e He. apply incomingContextEdges_In in He. tauto. }
  induction (incomingContextEdges (edges s) id) as [|e l IH];
    [reflexivity|].
  cbn [flat_map]. rewrite IH by (intros e' He'; apply Hin; right; exact He').
  f_equal. unfold donorOf.
  rewrite findNode_app_other; [reflexivity|].
  apply (Hfe e). apply Hin. left. reflexivity.
Qed.

Lemma wellFormed_extended (s s' : State) (newNode : Node)
      (sources : list Node) :
  nodes s' = nodes s ++ [newNode] ->
  edges s'
  = edges s ++ map (fun n => contextEdge (nodeId n) (nodeId newNode))
                   sources ->
  (forall n, In n sources -> In n (nodes s)) ->
  wellFormed s -> wellFormed s'.
Proof.
  intros Hn He Hsrc Hwf e Hin. rewrite Hn, map_app, !in_app_iff.
  rewrite He, in_app_iff in Hin. destruct Hin as [Hin|Hin].
  - destruct (Hwf e Hin). auto.
  - apply in_map_iff in Hin as (n & <- & Hin).
    cbn [contextEdge source target]. split.
    + left. apply in_map, Hsrc, Hin.
    + right. left. reflexivity.
Qed.

(** X28: A branch starts empty and sees its parent.  Branching from a chat
    node adds one chat node without messages, named after the time, and
    one context edge from the parent to it.  The donor context of the new
    node is then exactly the parent with its title and messages, the donor
    context of every other node is what it was, and a canvas whose edges
    ran between its nodes stays so. *)
Theorem branch_sees_its_parent
        (now : Z) (selected : string) (w : World) (parent : Node) :
  findNode (nodes (fst w)) selected = Some parent ->
  nodeType parent = Some "chat" ->
  freshId (chatNodeId now) (fst w) ->
  let w' := handleBranch now [selected] w in
  exists newNode,
    nodes (fst w') = nodes (fst w) ++ [newNode]
    /\ nodeId newNode = chatNodeId now
    /\ nodeType newNode = Some "chat"
    /\ messages (data newNode) = Some []
    /\ systemPrompt (data newNode) = systemPrompt (data parent)
    /\ edges (fst w')
       = edges (fst w) ++ [contextEdge (nodeId parent) (chatNodeId now)]
    /\ getContextFromDonorNodes (edges (fst w')) (nodes (fst w'))
                                (chatNodeId now)
       = [donorFrom parent]
    /\ (forall id, id <> chatNodeId now ->
                   getContextFromDonorNodes (edges (fst w'))
                                            (nodes (fst w')) id
                   = getContextFromDonorNodes (edges (fst w))
                                              (nodes (fst w)) id)
    /\ (wellFormed (fst w) -> wellFormed (fst w')).
Proof.
  intros Hf Hty Hfresh w'. subst w'. unfold handleBranch. rewrite Hf.
  pose proof Hty as Hty'. apply isType_eq in Hty'. rewrite Hty'.
  cbn [negb]. cbv iota zeta.
  match goal with
  | |- context [addNode now ?n w] => set (newNode := n)
  end.
  assert (Hpid : nodeId parent = selected).
  { unfold findNode in Hf. apply find_some in Hf as [_ Hf].
    apply String.eqb_eq in Hf. exact Hf. }
  assert (Hpin : In parent (nodes (fst w))).
  { unfold findNode in Hf. apply find_some in Hf as [Hf _]. exact Hf. }
  destruct (addNode_canvas now newNode w) as [Hn1 He1].
  destruct (addEdge_canvas
              now (contextEdge (nodeId parent) (nodeId newNode))
              (addNode now newNode w)) as [Hn2 He2].
  rewrite Hn1 in Hn2. rewrite He1 in He2.
  exists newNode. rewrite Hn2, He2.
  split; [reflexivity|]. split; [reflexivity|]. split; [reflexivity|].
  split; [reflexivity|]. split; [reflexivity|]. split; [reflexivity|].
  split; [|split].
  - apply (donors_of_new_node (fst w) newNode [parent] Hfresh).
    intros n [<-|[]]. rewrite Hpid. auto.
  - intros id Hid.
    apply (donors_of_old_node (fst w) newNode _ id Hfresh Hid).
    intros e [<-|[]]. reflexivity.
  - apply (wellFormed_extended (fst w) _ newNode [parent] Hn2 He2).
    intros n [<-|[]]. exact Hpin.
Qed.

Lemma branch_sees_its_parent_witness :
  getContextFromDonorNodes
    (edges (fst (handleBranch 500 ["chat-node-1"] Example.world2)))
    (nodes (fst (handleBranch 500 ["chat-node-1"] Example.world2)))
    (chatNodeId 500)
  = [donorFrom Example.receiver].
Proof.
  assert (Hfresh : freshId (chatNodeId 500) (fst Example.world2)).
  { split.
    - change (map nodeId (nodes (fst Example.world2)))
        with ["chat-node-1"; "memory-node-1"; "chat-node-2"].
      simpl. intuition discriminate.
    - change (edges (fst Example.world2)) with (@nil Edge). intros e []. }
  destruct (branch_sees_its_parent
              500 "chat-node-1" Example.world2 Example.receiver
              eq_refl eq_refl Hfresh)
    as (newNode & _ & _ & _ & _ & _ & _ & H & _).
  exact H.
Defined.

Lemma NoDup_map_filter {A B} (f : A -> B) (p : A -> bool) (l : list A) :
  List.NoDup (map f l) -> List.NoDup (map f (List.filter p l)).
Proof.
  induction l as [|a l IH]; intros Hd; [constructor|].
  cbn [map] in Hd. apply List.NoDup_cons_iff in Hd as [Hn Hd].
  cbn [List.filter]. destruct (p a); [|apply IH, Hd].
  cbn [map]. constructor; [|apply IH, Hd].
  intros Hin. apply Hn. apply in_map_iff in Hin as (x & E & Hx).
  apply filter_In in Hx as [Hx _]. rewrite <- E. apply in_map, Hx.
Qed.

Lemma commonProvider_ollama (l : list Node) :
  forall m, fst (fold_left commonStep l ("ollama", m)) = "ollama".
Proof.
  induction l as [|n l IH]; intros m; [reflexivity|].
  cbn [fold_left commonStep]. apply IH.
Qed.

(** X29: A merged chat starts empty and sees the chats merged.  When at
    least two of the selected nodes are chat nodes, merging adds one chat
    node without messages, whose provider is always ollama whatever the
    providers of the merged chats and whose system prompt is that of the
    first of them, and one context edge from each selected chat node to
    it, in the order of the canvas.  The donor context of the new node is
    then exactly the selected chat nodes with their titles and messages,
    the donor context of every other node is what it was, and a canvas
    whose edges ran between its nodes stays so. *)
Theorem merge_sees_the_merged
        (now : Z) (selectedNodeIds : list string) (w : World) :
  List.NoDup (map nodeId (nodes (fst w))) ->
  freshId (chatNodeId now) (fst w) ->
  let selectedNodes :=
    List.filter (fun n => includes selectedNodeIds (nodeId n)
                          && isType (nodeType n) "chat")
                (nodes (fst w)) in
  (2 <= length selectedNodes)%nat ->
  let w' := handleMerge now selectedNodeIds w in
  exists newNode,
    nodes (fst w') = nodes (fst w) ++ [newNode]
    /\ nodeId newNode = chatNodeId now
    /\ nodeType newNode = Some "chat"
    /\ messages (data newNode) = Some []
    /\ provider (data newNode) = Some "ollama"
    /\ systemPrompt (data newNode)
       = match selectedNodes with
         | first :: _ => systemPrompt (data first)
         | [] => None
         end
    /\ edges (fst w')
       = edges (fst w)
         ++ map (fun n => contextEdge (nodeId n) (chatNodeId now))
                selectedNodes
    /\ getContextFromDonorNodes (edges (fst w')) (nodes (fst w'))
                                (chatNodeId now)
       = map donorFrom selectedNodes
    /\ (forall id, id <> chatNodeId now ->
                   getContextFromDonorNodes (edges (fst w'))
                                            (nodes (fst w')) id
                   = getContextFromDonorNodes (edges (fst w))
                                              (nodes (fst w)) id)
    /\ (wellFormed (fst w) -> wellFormed (fst w')).
Proof.
  intros Hd Hfresh selectedNodes Hlen w'.
  assert (Hsel : forall n, In n selectedNodes ->
                           In n (nodes (fst w))
                           /\ In (nodeId n) selectedNodeIds
                           /\ nodeType n = Some "chat").
  { intros n Hn. apply filter_In in Hn as [Hn Hb].
    apply andb_true_iff in Hb as [Hi Ht].
    apply includes_In in Hi. apply isType_eq in Ht. auto. }
  assert (Hids : (2 <= length selectedNodeIds)%nat).
  { etransitivity; [exact Hlen|].
    rewrite <- (length_map nodeId selectedNodes).
    apply NoDup_incl_length.
    - apply NoDup_map_filter, Hd.
    - intros i Hi. apply in_map_iff in Hi as (n & <- & Hn).
      apply Hsel, Hn. }
  subst w'. unfold handleMerge.
  destruct (Nat.ltb_spec (length selectedNodeIds) 2) as [Hlt|_]; [lia|].
  fold selectedNodes.
  destruct (Nat.ltb_spec (length selectedNodes) 2) as [Hlt|_]; [lia|].
  pose proof (commonProvider_ollama selectedNodes EmptyString) as Hprov.
  destruct (fold_left commonStep selectedNodes ("ollama", EmptyString))
    as [commonProvider commonModel].
  cbn [fst] in Hprov. subst commonProvider. cbv zeta.
  match goal with
  | |- context [addNode now ?n w] => set (newNode := n)
  end.
  destruct (addNode_canvas now newNode w) as [Hn1 He1].
  destruct (addEdges_canvas
              now (fun n => contextEdge (nodeId n) (nodeId newNode))
              selectedNodes (addNode now newNode w)) as [Hn2 He2].
  cbv zeta in Hn2, He2. rewrite Hn1 in Hn2. rewrite He1 in He2.
  exists newNode. rewrite Hn2, He2.
  split; [reflexivity|]. split; [reflexivity|]. split; [reflexivity|].
  split; [reflexivity|]. split; [reflexivity|]. split; [reflexivity|].
  split; [reflexivity|]. split; [|split].
  - apply (donors_of_new_node (fst w) newNode selectedNodes Hfresh).
    intros n Hn. destruct (Hsel n Hn) as (Hin & _ & Hty).
    split; [apply findNode_member; assumption | exact Hty].
  - intros id Hid.
    apply (donors_of_old_node (fst w) newNode _ id Hfresh Hid).
    intros e He. apply in_map_iff in He as (n & <- & _). reflexivity.
  - apply (wellFormed_extended (fst w) _ newNode selectedNodes Hn2 He2).
    intros n Hn. apply Hsel, Hn.
Qed.

Lemma merge_sees_the_merged_witness :
  getContextFromDonorNodes
    (edges (fst (handleMerge 500 ["chat-node-1"; "chat-node-2"]
                             Example.world2)))
    (nodes (fst (handleMerge 500 ["chat-node-1"; "chat-node-2"]
                             Example.world2)))
    (chatNodeId 500)
  = [donorFrom Example.receiver; donorFrom Example.donor2].
Proof.
  assert (Hd : List.NoDup (map nodeId (nodes (fst Example.world2)))).
  { change (map nodeId (nodes (fst Example.world2)))
      with ["chat-node-1"; "memory-node-1"; "chat-node-2"].
    repeat constructor; simpl; intuition discriminate. }
  assert (Hfresh : freshId (chatNodeId 500) (fst Example.world2)).
  { split.
    - change (map nodeId (nodes (fst Example.world2)))
        with ["chat-node-1"; "memory-node-1"; "chat-node-2"].
      simpl. intuition discriminate.
    - change (edges (fst Example.world2)) with (@nil Edge). intros e []. }
  assert (Hlen : (2 <= length
                        (List.filter
                           (fun n =>
                              includes ["chat-node-1"; "chat-node-2"]
                                       (nodeId n)
                              && isType (nodeType n) "chat")
                           (nodes (fst Example.world2))))%nat).
  { change (nodes (fst Example.world2))
      with [Example.receiver; Example.memoryNode; Example.donor2].
    simpl. lia. }
  destruct (merge_sees_the_merged
              500 ["chat-node-1"; "chat-node-2"] Example.world2
              Hd Hfresh Hlen)
    as (newNode & _ & _ & _ & _ & _ & _ & _ & H & _).
  exact H.
Defined.

End BranchFacts.

Section SyncFacts.
Import CanvasStore ChatNodeSync.

Lemma sync_includes_In (l : list string) (id : string) :
  ChatNodeSync.includes l id = true <-> In id l.
Proof.
  unfold ChatNodeSync.includes. rewrite existsb_exists. split.
  - intros (x & Hin & E). apply String.eqb_eq in E. subst. exact Hin.
  - intros Hin. exists id. split; [exact Hin | apply String.eqb_refl].
Qed.

Lemma all_included (l1 l2 : list string) :
  existsb (fun id => negb (ChatNodeSync.includes l2 id)) l1 = false
  <-> forall id, In id l1 -> In id l2.
Proof.
  split.
  - intros H id Hin. apply sync_includes_In.
    destruct (ChatNodeSync.includes l2 id) eqn:E; [reflexivity|].
    assert (existsb (fun id => negb (ChatNodeSync.includes l2 id)) l1
            = true); [|congruence].
    apply existsb_exists. exists id. rewrite E. auto.
  - intros H. apply not_true_iff_false. intros Hex.
    apply existsb_exists in Hex as (id & Hin & Hn).
    apply negb_true_iff in Hn. apply H, sync_includes_In in Hin.
    congruence.
Qed.

Lemma needsUpdate_false (l1 l2 : list string) :
  needsUpdate l1 l2 = false
  <-> length l1 = length l2 /\ sameMembers l1 l2.
Proof.
  unfold needsUpdate, sameMembers.
  rewrite !orb_false_iff, negb_false_iff, Nat.eqb_eq, !all_included.
  split.
  - intros [[Hl H1] H2]. split; [exact Hl|]. intros id. split; auto.
  - intros [Hl H]. repeat split; [exact Hl | |]; intros id Hin;
      apply H, Hin.
Qed.

Lemma fixedEdges_shape (toFix : list string) (es : list Edge) :
  map edgeId (fixedEdges toFix es) = map edgeId es
  /\ map source (fixedEdges toFix es) = map source es
  /\ map target (fixedEdges toFix es) = map target es.
Proof.
  unfold fixedEdges. rewrite !map_map.
  repeat split; apply map_ext; intros e;
    destruct (existsb _ toFix); reflexivity.
Qed.

Lemma fixedEdges_nil (es : list Edge) : fixedEdges [] es = es.
Proof. unfold fixedEdges. cbn [existsb]. apply map_id. Qed.

Lemma sourceIsMemory_updated (updates : NodeUpdates) (id : string)
      (ns : list Node) (e : Edge) :
  sourceIsMemory
    (map (fun node => if String.eqb (nodeId node) id
                      then applyUpdates updates node else node) ns) e
  = sourceIsMemory ns e.
Proof.
  unfold sourceIsMemory.
  assert (H : forall k,
             option_map nodeType
               (findNode (map (fun node =>
                                 if String.eqb (nodeId node) id
                                 then applyUpdates updates node else node)
                              ns) k)
             = option_map nodeType (findNode ns k)).
  { intros k. unfold findNode. induction ns as [|n ns IH]; [reflexivity|].
    cbn [map List.find].
    destruct (String.eqb (nodeId n) id);
      cbn [applyUpdates nodeId]; destruct (String.eqb (nodeId n) k);
      try reflexivity; exact IH. }
  specialize (H (source e)).
  destruct (findNode _ (source e)), (findNode ns (source e));
    cbn [option_map] in H; congruence.
Qed.

Lemma sourceIsMemory_fixed (toFix : list string) (ns : list Node)
      (e : Edge) :
  sourceIsMemory ns
    (if existsb (fun f => String.eqb f (edgeId e)) toFix
     then mkEdge (edgeId e) (source e) (target e) (Some "rag") else e)
  = sourceIsMemory ns e.
Proof. destruct (existsb _ toFix); reflexivity. Qed.

(** With edge ids that are unique, an edge is among those to fix exactly
    if it comes into the node from a memory node and is not marked. *)
Lemma toFix_spec (es : list Edge) (ns : list Node) (id : string) (e : Edge) :
  List.NoDup (map edgeId es) -> In e es ->
  existsb (fun f => String.eqb f (edgeId e)) (edgesToFix es ns id) = true
  <-> target e = id /\ sourceIsMemory ns e = true
      /\ isType (edgeType e) "rag" = false.
Proof.
  intros Hd Hin. unfold edgesToFix, allIncomingEdges.
  rewrite existsb_exists. split.
  - intros (f & Hf & E). apply String.eqb_eq in E.
    apply in_map_iff in Hf as (e0 & E0 & He0).
    apply filter_In in He0 as [He0 Hb].
    apply filter_In in He0 as [He0 Ht].
    assert (e0 = e).
    { revert Hd Hin He0 E E0. clear. intros Hd Hin He0 E E0.
      induction es as [|a es IH]; [destruct Hin|].
      cbn [map] in Hd. apply List.NoDup_cons_iff in Hd as [Hn Hd].
      destruct Hin as [->|Hin], He0 as [->|He0]; try reflexivity.
      - exfalso. apply Hn. rewrite <- E, <- E0. apply in_map, He0.
      - exfalso. apply Hn. rewrite E0, E. apply in_map, Hin.
      - apply IH; assumption. }
    subst e0. apply andb_true_iff in Hb as [Hm Hr].
    apply negb_true_iff in Hr. apply String.eqb_eq in Ht. auto.
  - intros (Ht & Hm & Hr). exists (edgeId e).
    split; [|apply String.eqb_refl].
    apply in_map, filter_In. split.
    + apply filter_In. split; [exact Hin | apply String.eqb_eq, Ht].
    + rewrite Hm, Hr. reflexivity.
Qed.

Lemma incoming_fixed (toFix : list string) (es : list Edge) (id : string) :
  allIncomingEdges (fixedEdges toFix es) id
  = fixedEdges toFix (allIncomingEdges es id).
Proof.
  unfold allIncomingEdges, fixedEdges.
  induction es as [|e es IH]; [reflexivity|].
  cbn [map List.filter].
  assert (Ht : target (if existsb (fun f => String.eqb f (edgeId e)) toFix
                       then mkEdge (edgeId e) (source e) (target e)
                                   (Some "rag") else e) = target e)
    by (destruct (existsb _ toFix); reflexivity).
  rewrite Ht. destruct (String.eqb (target e) id); cbn [map];
    rewrite IH; reflexivity.
Qed.

Lemma filter_fixed_nil (p : Edge -> bool) (toFix : list string)
      (l : list Edge) :
  (forall e, In e l ->
             p (if existsb (fun f => String.eqb f (edgeId e)) toFix
                then mkEdge (edgeId e) (source e) (target e) (Some "rag")
                else e) = false) ->
  List.filter p (fixedEdges toFix l) = [].
Proof.
  intros H. unfold fixedEdges. induction l as [|e l IH]; [reflexivity|].
  cbn [map List.filter]. rewrite (H e (or_introl eq_refl)).
  apply IH. intros e' He'. apply H. right. exact He'.
Qed.

Lemma sources_fixed (p q : Edge -> bool) (toFix : list string)
      (l : list Edge) :
  (forall e, In e l ->
             p (if existsb (fun f => String.eqb f (edgeId e)) toFix
                then mkEdge (edgeId e) (source e) (target e) (Some "rag")
                else e) = q e) ->
  map source (List.filter p (fixedEdges toFix l))
  = map source (List.filter q l).
Proof.
  intros H. unfold fixedEdges. induction l as [|e l IH]; [reflexivity|].
  cbn [map List.filter]. rewrite (H e (or_introl eq_refl)).
  assert (IH' := IH (fun e' He' => H e' (or_intror He'))).
  destruct (q e); cbn [map]; rewrite IH'; [|reflexivity].
  destruct (existsb _ toFix); reflexivity.
Qed.

Lemma incoming_In (es : list Edge) (id : string) (e : Edge) :
  In e (allIncomingEdges es id) <-> In e es /\ target e = id.
Proof.
  unfold allIncomingEdges. rewrite filter_In, String.eqb_eq. tauto.
Qed.

Lemma edgesToFix_fixed (es : list Edge) (ns : list Node) (id : string) :
  List.NoDup (map edgeId es) ->
  edgesToFix (fixedEdges (edgesToFix es ns id) es) ns id = [].
Proof.
  intros Hd. unfold edgesToFix at 1. rewrite incoming_fixed.
  rewrite filter_fixed_nil; [reflexivity|].
  intros e He. apply incoming_In in He as [He Ht].
  rewrite sourceIsMemory_fixed.
  destruct (existsb (fun f => String.eqb f (edgeId e))
                    (edgesToFix es ns id)) eqn:Ex.
  - cbn [edgeType isType]. rewrite String.eqb_refl.
    apply andb_false_r.
  - destruct (sourceIsMemory ns e) eqn:Hm; [|reflexivity].
    destruct (isType (edgeType e) "rag") eqn:Hr; [reflexivity|].
    exfalso. apply not_true_iff_false in Ex. apply Ex.
    apply (toFix_spec es ns id e Hd He). auto.
Qed.

Lemma memoryNodeIds_fixed (es : list Edge) (ns : list Node) (id : string) :
  List.NoDup (map edgeId es) ->
  memoryNodeIds (fixedEdges (edgesToFix es ns id) es) ns id
  = memoryNodeIds es ns id.
Proof.
  intros Hd. unfold memoryNodeIds, ragEdges. rewrite incoming_fixed.
  f_equal. apply sources_fixed.
  intros e He. apply incoming_In in He as [He Ht].
  rewrite sourceIsMemory_fixed.
  destruct (existsb (fun f => String.eqb f (edgeId e))
                    (edgesToFix es ns id)) eqn:Ex.
  - apply (toFix_spec es ns id e Hd He) in Ex as (_ & Hm & Hr).
    cbn [edgeType isType target]. rewrite String.eqb_refl, Hm, Hr, Ht.
    rewrite String.eqb_refl. reflexivity.
  - reflexivity.
Qed.

Lemma edgesToFix_nodes (es : list Edge) (ns ns' : list Node) (id : string) :
  (forall e, sourceIsMemory ns' e = sourceIsMemory ns e) ->
  edgesToFix es ns' id = edgesToFix es ns id
  /\ memoryNodeIds es ns' id = memoryNodeIds es ns id.
Proof.
  intros H. unfold edgesToFix, memoryNodeIds, ragEdges. split.
  - f_equal. apply filter_ext. intros e. rewrite H. reflexivity.
  - do 2 f_equal. apply filter_ext. intros e. rewrite H. reflexivity.
Qed.

(** The canvas after the effect. *)
Lemma sync_canvas (now : Z) (id : string) (w : World) :
  let es := edges (fst w) in
  let ns := nodes (fst w) in
  let ids := memoryNodeIds es ns id in
  let old := default [] (attachedMemoryNodes (currentData ns id)) in
  let w1 := syncAttachedMemoryNodes now id w in
  edges (fst w1) = fixedEdges (edgesToFix es ns id) es
  /\ nodes (fst w1)
     = if needsUpdate ids old
       then map (fun node =>
                   if String.eqb (nodeId node) id
                   then applyUpdates (withAttached (currentData ns id) ids)
                                     node
                   else node) ns
       else ns.
Proof.
  intros es ns ids old w1. subst w1. unfold syncAttachedMemoryNodes.
  fold es ns. fold ids. fold old.
  set (toFix := edgesToFix es ns id).
  set (w0 := if (0 <? length toFix)%nat
             then setEdges now (fixedEdges toFix es) w else w).
  assert (H0 : edges (fst w0) = fixedEdges toFix es
               /\ nodes (fst w0) = ns).
  { unfold w0. destruct toFix as [|f toFix'] eqn:E.
    - cbn [length Nat.ltb Nat.leb]. rewrite fixedEdges_nil. auto.
    - change (0 <? length (f :: toFix'))%nat with true. cbv iota.
      rewrite setEdges_edges, setEdges_nodes. auto. }
  destruct H0 as [He0 Hn0].
  destruct (needsUpdate ids old).
  - rewrite updateNode_edges, updateNode_nodes, He0, Hn0. auto.
  - auto.
Qed.

Lemma mergeData_attached (d : NodeData) (ids : list string) :
  mergeData d (mkData (title d) (provider d) (model d) (messages d)
                      (systemPrompt d) (Some ids) (chunkCount d))
  = mkData (title d) (provider d) (model d) (messages d) (systemPrompt d)
           (Some ids) (chunkCount d).
Proof.
  destruct d as [f1 f2 f3 f4 f5 f6 f7]. unfold mergeData.
  cbn [title provider model messages systemPrompt attachedMemoryNodes
       chunkCount].
  destruct f1, f2, f3, f4, f5, f7; reflexivity.
Qed.

(** X30: The effect that keeps a chat node in step with its RAG edges
    settles in one run.  On a canvas with unique edge ids and for a node
    that exists, after the effect every edge that comes into the node
    from a memory node is a RAG edge (ids and endpoints of all edges are
    kept), the node's attachedMemoryNodes has the same members and the
    same length as the sources of its RAG edges, its other data are
    kept, and a second run of the effect changes nothing any more, nor
    does the fallback of handleSend, which then queries exactly the
    attached memory nodes. *)
Theorem sync_settles_in_one_run
        (now1 now2 : Z) (id : string) (w : World) (node : Node) :
  List.NoDup (map edgeId (edges (fst w))) ->
  findNode (nodes (fst w)) id = Some node ->
  let w1 := syncAttachedMemoryNodes now1 id w in
  (forall e, In e (edges (fst w1)) -> target e = id ->
             sourceIsMemory (nodes (fst w1)) e = true ->
             edgeType e = Some "rag")
  /\ map edgeId (edges (fst w1)) = map edgeId (edges (fst w))
  /\ map source (edges (fst w1)) = map source (edges (fst w))
  /\ map target (edges (fst w1)) = map target (edges (fst w))
  /\ map nodeId (nodes (fst w1)) = map nodeId (nodes (fst w))
  /\ (exists node1,
         findNode (nodes (fst w1)) id = Some node1
         /\ sameMembers
              (default [] (attachedMemoryNodes (data node1)))
              (memoryNodeIds (edges (fst w1)) (nodes (fst w1)) id)
         /\ length (default [] (attachedMemoryNodes (data node1)))
            = length (memoryNodeIds (edges (fst w1)) (nodes (fst w1)) id)
         /\ memoryNodeIds (edges (fst w1)) (nodes (fst w1)) id
            = memoryNodeIds (edges (fst w)) (nodes (fst w)) id
         /\ title (data node1) = title (data node)
         /\ messages (data node1) = messages (data node)
         /\ systemPrompt (data node1) = systemPrompt (data node)
         /\ resolveAttachedMemoryNodes now2 id w1
            = (default [] (attachedMemoryNodes (data node1)), w1))
  /\ syncAttachedMemoryNodes now2 id w1 = w1.
Proof.
  intros Hd Hnode w1.
  destruct (sync_canvas now1 id w) as [He1 Hn1]. fold w1 in He1, Hn1.
  set (es := edges (fst w)) in *. set (ns := nodes (fst w)) in *.
  set (ids := memoryNodeIds es ns id) in *.
  assert (Hcd : currentData ns id = data node).
  { unfold currentData. fold ns in Hnode. rewrite Hnode. reflexivity. }
  rewrite Hcd in Hn1.
  set (old := default [] (attachedMemoryNodes (data node))) in *.
  (* the nodes after the effect look at edges as the nodes before *)
  assert (Hmem : forall e,
             sourceIsMemory (nodes (fst w1)) e = sourceIsMemory ns e).
  { intros e. rewrite Hn1. destruct (needsUpdate ids old); [|reflexivity].
    apply sourceIsMemory_updated. }
  destruct (edgesToFix_nodes (edges (fst w1)) ns (nodes (fst w1)) id Hmem)
    as [HtoFix1 Hids1].
  rewrite He1 in HtoFix1, Hids1.
  rewrite (edgesToFix_fixed es ns id Hd) in HtoFix1.
  rewrite (memoryNodeIds_fixed es ns id Hd) in Hids1. fold ids in Hids1.
  (* the node after the effect *)
  assert (Hnode1 : exists node1,
             findNode (nodes (fst w1)) id = Some node1
             /\ needsUpdate
                  ids (default [] (attachedMemoryNodes (data node1)))
                = false
             /\ title (data node1) = title (data node)
             /\ messages (data node1) = messages (data node)
             /\ systemPrompt (data node1) = systemPrompt (data node)).
  { rewrite Hn1. destruct (needsUpdate ids old) eqn:Enu.
    - rewrite findNode_updated. fold ns in Hnode. rewrite Hnode.
      cbn [option_map]. eexists. split; [reflexivity|].
      cbn [applyUpdates withAttached updData data].
      rewrite mergeData_attached.
      cbn [attachedMemoryNodes title messages systemPrompt default].
      split; [|auto].
      apply needsUpdate_false. split; [reflexivity|]. intros k; tauto.
    - exists node. fold ns in Hnode. split; [exact Hnode|].
      fold old. auto. }
  destruct Hnode1 as (node1 & Hf1 & Hnu1 & Ht1 & Hm1 & Hs1).
  assert (Hcd1 : currentData (nodes (fst w1)) id = data node1).
  { unfold currentData. rewrite Hf1. reflexivity. }
  pose proof Hnu1 as Hsame. apply needsUpdate_false in Hsame as [Hlen Hsame].
  split; [|split; [|split; [|split; [|split; [|split]]]]].
  - intros e Hin Ht Hm. rewrite Hmem in Hm. rewrite He1 in Hin.
    unfold fixedEdges in Hin. apply in_map_iff in Hin as (e0 & <- & He0).
    rewrite sourceIsMemory_fixed in Hm.
    destruct (existsb (fun f => String.eqb f (edgeId e0))
                      (edgesToFix es ns id)) eqn:Ex;
      [reflexivity|].
    destruct (isType (edgeType e0) "rag") eqn:Hr;
      [apply isType_eq; exact Hr|].
    exfalso. apply not_true_iff_false in Ex. apply Ex.
    apply (toFix_spec es ns id e0 Hd He0). auto.
  - rewrite He1. apply fixedEdges_shape.
  - rewrite He1. apply fixedEdges_shape.
  - rewrite He1. apply fixedEdges_shape.
  - rewrite Hn1. destruct (needsUpdate ids old); [|reflexivity].
    apply updated_ids.
  - exists node1. rewrite He1, Hids1.
    split; [exact Hf1|].
    split; [intros k; symmetry; apply Hsame|].
    split; [symmetry; exact Hlen|].
    split; [reflexivity|].
    split; [exact Ht1|]. split; [exact Hm1|]. split; [exact Hs1|].
    unfold resolveAttachedMemoryNodes. rewrite Hcd1, He1, Hids1.
    destruct (default [] (attachedMemoryNodes (data node1))) as [|a l] eqn:Ea.
    + cbn [length Nat.eqb]. cbv iota.
      destruct ids; [reflexivity | discriminate Hlen].
    + reflexivity.
  - unfold syncAttachedMemoryNodes.
    rewrite Hcd1, He1, HtoFix1, Hids1, Hnu1. reflexivity.
Qed.

Lemma sync_settles_in_one_run_witness :
  syncAttachedMemoryNodes
    900 "chat-node-1"
    (syncAttachedMemoryNodes 800 "chat-node-1" Example.world3)
  = syncAttachedMemoryNodes 800 "chat-node-1" Example.world3.
Proof.
  assert (Hd : List.NoDup (map edgeId (edges (fst Example.world3)))).
  { change (map edgeId (edges (fst Example.world3))) with ["e1"].
    repeat constructor. intros []. }
  exact (proj2 (proj2 (proj2 (proj2 (proj2 (proj2
           (sync_settles_in_one_run
              800 900 "chat-node-1" Example.world3 Example.receiver
              Hd eq_refl))))))).
Defined.

End SyncFacts.
